(** * Meadow of Mind: the shop state, the scene graph, the shaders, the field
      generator and the animation tick.

    The development follows the TypeScript sources:
    - [App.tsx]: the store ([INITIAL_STORE_ITEMS], [handlePurchase],
      [handleEquip]) and the derived selectors [activeSkin], [activeCompanion];
    - [VisualizerCanvas]: [updatePlayerMesh], [updateCompanionMesh], the chunk
      generation loop, the GLSL vertex shaders and the [animate] callback.

    Numbers.  JavaScript numbers and GLSL floats are modelled by exact
    rationals [Q]; every constant of the source ([0.9], [0.12], [2.5], ...) is
    the rational its decimal literal denotes.  Rounding is therefore not part
    of the model.  [Math.sqrt d > r] (with [0 <= r]) is written as the
    comparison [r * r < d] of the squares, which is the same test on exact
    numbers.  [Math.random()] is an oracle [random : nat -> Q] read through a
    draw counter; [Math.sin], [Math.cos] and [Math.PI] are parameters.  The
    one number of the code that can be NaN or an infinity, the mouth
    curvature, is a [Js.number].

    Handlers.  A handler of a React component reads the state of the render
    that made it, and its functional updaters act on the state at the time
    they run: [handlePurchase] takes both states, and [ShopFlow.uiRun] plays
    clicks against any render.  A handler that awaits is split at its
    [await]: [handleStart] and [togglePause] write the status in a later
    step of the session, and other steps may come in between. *)

From Stdlib Require Import QArith Qabs Qround Lqa Lia ZArith List String Bool.
Import ListNotations.

(** ** Rational helpers *)

Open Scope Q_scope.

(** Strict comparison on [Q] as a boolean ([a < b] in the source). *)
Definition Qlt_bool (a b : Q) : bool := negb (Qle_bool b a).

(** [x ** 2] and GLSL [pow(x, 2.0)]. *)
Definition sq (x : Q) : Q := x * x.

Close Scope Q_scope.

(** ** App.tsx: store items and the equip logic *)

Module App.

Open Scope string_scope.

Inductive ItemType := skin | companion.

Definition ItemType_eqb (a b : ItemType) : bool :=
  match a, b with
  | skin, skin | companion, companion => true
  | _, _ => false
  end.

Record StoreItem := mkItem {
  id : string;
  name : string;
  type : ItemType;
  cost : Z;
  unlocked : bool;
  active : bool;
  description : string
}.

Definition INITIAL_STORE_ITEMS : list StoreItem :=
  [ mkItem "skin_default" "光之球" skin 0 true true "最纯粹的光芒形态。";
    mkItem "skin_cube" "量子立方" skin 50 false false "来自数字维度的几何体。";
    mkItem "skin_tetra" "以太棱镜" skin 120 false false "能够折射情绪的古代遗物。";
    mkItem "comp_butterfly" "蓝闪蝶" companion 0 true true "象征希望的忠实伙伴。";
    mkItem "comp_firefly" "余烬萤火" companion 80 false false "曾在风暴中幸存的微光。";
    mkItem "comp_spirit" "森林之灵" companion 200 false false "古老草甸的守护者。" ].

(** [{ ...i, unlocked: true }] and [{ ...i, active: b }]. *)
Definition set_unlocked (i : StoreItem) : StoreItem :=
  mkItem (id i) (name i) (type i) (cost i) true (active i) (description i).

Definition set_active (b : bool) (i : StoreItem) : StoreItem :=
  mkItem (id i) (name i) (type i) (cost i) (unlocked i) b (description i).

(** The React state the shop works on: [xp] and [storeItems]. *)
Record Shop := mkShop { xp : Z; storeItems : list StoreItem }.

Definition initialShop : Shop := mkShop 0 INITIAL_STORE_ITEMS.

(** [handleCollectShard]: [setXp(prev => prev + 50)]. *)
Definition handleCollectShard (s : Shop) : Shop :=
  mkShop (xp s + 50) (storeItems s).

(** [handlePurchase].  The handler is made anew by every render and closes
    over the [xp] of that render; [item] is the object the card was rendered
    with.  The guard reads these two, while the updaters
    [setXp(prev => ...)] and [setStoreItems(prev => ...)] act on the state
    [s] at the time of the call.  [render] is the state the render showed:
    for a call made before anything has changed it is [s] itself. *)
Definition handlePurchase (render : Shop) (item : StoreItem) (s : Shop) : Shop :=
  if (cost item <=? xp render)%Z && negb (unlocked item) then
    mkShop (xp s - cost item)
           (map (fun i => if id i =? id item then set_unlocked i else i)
                (storeItems s))
  else s.

(** The function [handleEquip] maps over the previous items. *)
Definition equipOne (item i : StoreItem) : StoreItem :=
  if ItemType_eqb (type item) skin && ItemType_eqb (type i) skin then
    set_active (id i =? id item) i
  else if ItemType_eqb (type item) companion && ItemType_eqb (type i) companion then
    set_active (id i =? id item) i
  else i.

Definition handleEquipItems (item : StoreItem) (l : list StoreItem) : list StoreItem :=
  if negb (unlocked item) then l else map (equipOne item) l.

Definition handleEquip (item : StoreItem) (s : Shop) : Shop :=
  mkShop (xp s) (handleEquipItems item (storeItems s)).

(** [storeItems.find(i => i.type === t && i.active)]. *)
Definition findActive (t : ItemType) (l : list StoreItem) : option StoreItem :=
  find (fun i => ItemType_eqb (type i) t && active i) l.

(** [x?.id || fallback]: the fallback is taken when nothing is found and
    also when the id found is the empty string (falsy in JavaScript). *)
Definition idOr (o : option StoreItem) (fallback : string) : string :=
  match o with
  | Some i => if id i =? "" then fallback else id i
  | None => fallback
  end.

Definition activeSkin (s : Shop) : string :=
  idOr (findActive skin (storeItems s)) "skin_default".

Definition activeCompanion (s : Shop) : string :=
  idOr (findActive companion (storeItems s)) "comp_butterfly".

(** Number of active items of a type. *)
Definition countActive (t : ItemType) (l : list StoreItem) : nat :=
  List.length (filter (fun i => ItemType_eqb (type i) t && active i) l).

(** The shop states the user interface reaches when every click is handled
    by the render of the state it finds: shards are collected, and the
    overlay's item cards call [onPurchase(item)] and [onEquip(item)] with an
    [item] of the current [storeItems].  [ShopFlow.uiRun] below also has the
    clicks that reach a handler of an earlier render. *)
Inductive reachable : Shop -> Prop :=
| reach_init : reachable initialShop
| reach_collect s : reachable s -> reachable (handleCollectShard s)
| reach_purchase s item :
    reachable s -> In item (storeItems s) -> reachable (handlePurchase s item s)
| reach_equip s item :
    reachable s -> In item (storeItems s) -> reachable (handleEquip item s).

(** The invariant of the reachable shop states. *)
Definition shopInv (l : list StoreItem) : Prop :=
  map id l = map id INITIAL_STORE_ITEMS /\
  countActive skin l = 1%nat /\ countActive companion l = 1%nat.

End App.

(** ** Vectors and colours of three.js *)

Record Vector2 := mkV2 { v2x : Q; v2y : Q }.
Record Vector3 := mkV3 { v3x : Q; v3y : Q; v3z : Q }.
Record Color := mkColor { cr : Q; cg : Q; cb : Q }.

Open Scope Q_scope.

(** [Color.setHex]: the three bytes of the hexadecimal number, each scaled to
    the unit interval (the colour-space conversion of three.js is not
    modelled: it does not change how the blending below works). *)
Definition setHex (hex : Z) : Color :=
  mkColor (inject_Z (Z.land (Z.shiftr hex 16) 255) / 255)
          (inject_Z (Z.land (Z.shiftr hex 8) 255) / 255)
          (inject_Z (Z.land hex 255) / 255).

(** The update that [Color.lerp], [Vector3.lerp] and the scalar lines
    [cur += (target - cur) * rate] of [animate] all perform on a number. *)
Definition lerp1 (cur target alpha : Q) : Q := cur + (target - cur) * alpha.

(** The same update repeated [n] times towards one target. *)
Fixpoint lerpAfter (n : nat) (cur target alpha : Q) : Q :=
  match n with
  | O => cur
  | S n' => lerp1 (lerpAfter n' cur target alpha) target alpha
  end.

(** The update applied to a list of numbers, each with its target and rate. *)
Fixpoint lerpAll (cur target alpha : list Q) : list Q :=
  match cur, target, alpha with
  | c :: cs, t :: ts, a :: rs => lerp1 c t a :: lerpAll cs ts rs
  | _, _, _ => []
  end.

Definition Color_lerp (c target : Color) (alpha : Q) : Color :=
  mkColor (lerp1 (cr c) (cr target) alpha)
          (lerp1 (cg c) (cg target) alpha)
          (lerp1 (cb c) (cb target) alpha).

Definition Vector3_lerp (v target : Vector3) (alpha : Q) : Vector3 :=
  mkV3 (lerp1 (v3x v) (v3x target) alpha)
       (lerp1 (v3y v) (v3y target) alpha)
       (lerp1 (v3z v) (v3z target) alpha).

Close Scope Q_scope.

(** ** VisualizerCanvas: the cosmetic subtrees *)

Module Scene.

Open Scope string_scope.
Open Scope Q_scope.

Inductive Geometry :=
| BoxGeometry (width height depth : Q)
| TetrahedronGeometry (radius : Q)
| SphereGeometry (radius : Q) (widthSegments heightSegments : Z)
| DodecahedronGeometry (radius : Q) (detail : Z)
| CircleGeometry (radius : Q) (segments : Z) (thetaStart thetaLength : Q)
                 (translatedY : Q).

Inductive Side := FrontSide | DoubleSide.
Inductive Blending := NormalBlending | AdditiveBlending.

Inductive Material :=
| MeshStandardMaterial (color emissive : Z) (roughness metalness : Q)
| MeshPhysicalMaterial (color : Z) (transmission opacity : Q) (transparent : bool)
                       (roughness ior thickness : Q)
| MeshBasicMaterial (color : Z) (side : Side) (transparent : bool) (opacity : Q)
                    (blending : Blending).

(** The children the two groups hold: meshes and point lights.  Objects are
    compared by what they are built from; object identity is not modelled. *)
Inductive Object3D :=
| Mesh (geometry : Geometry) (material : Material) (rotation position : Vector3)
| PointLight (color : Z) (intensity distance : Q).

(** [c instanceof THREE.Mesh]. *)
Definition isMesh (c : Object3D) : bool :=
  match c with Mesh _ _ _ _ => true | PointLight _ _ _ => false end.

(** [group.remove(children.find(p))]: the first child that satisfies [p]
    leaves the list. *)
Fixpoint removeFirst (p : Object3D -> bool) (l : list Object3D) : list Object3D :=
  match l with
  | [] => []
  | c :: r => if p c then r else c :: removeFirst p r
  end.

(** [while (children.length > 0) remove(children[0])]. *)
Fixpoint removeAll (l : list Object3D) : list Object3D :=
  match l with
  | [] => []
  | _ :: r => removeAll r
  end.

Definition origin : Vector3 := mkV3 0 0 0.

(** A material built from [{ color }] alone takes the defaults of three.js. *)
Definition basic (color : Z) : Material :=
  MeshBasicMaterial color FrontSide false 1 NormalBlending.

(** The [switch] of [updatePlayerMesh]. *)
Definition playerMesh (activeSkin : string) : Object3D :=
  if activeSkin =? "skin_cube" then
    Mesh (BoxGeometry 4 4 4) (MeshStandardMaterial 0x00ffff 0x0088aa 0.2 0.8)
         origin origin
  else if activeSkin =? "skin_tetra" then
    Mesh (TetrahedronGeometry 3.5)
         (MeshPhysicalMaterial 0xffccff 0.5 0.8 true 0 1.5 2.0) origin origin
  else
    Mesh (SphereGeometry 2.5 32 32) (basic 0xffffee) origin origin.

Definition updatePlayerMesh (activeSkin : string) (children : list Object3D)
  : list Object3D :=
  let children :=
    match find isMesh children with
    | Some _ => removeFirst isMesh children
    | None => children
    end in
  children ++ [playerMesh activeSkin].

Section Companion.

(** [Math.PI]. *)
Variable Math_PI : Q.

(** What [updateCompanionMesh] adds for a companion id.  The two wings share
    one [wingGeo], which both [translate(0, 0.4, 0)] calls move. *)
Definition companionParts (type : string) : list Object3D :=
  if type =? "comp_firefly" then
    [ Mesh (SphereGeometry 0.5 8 8) (basic 0xffaa00) origin origin;
      PointLight 0xffaa00 1.5 30 ]
  else if type =? "comp_spirit" then
    [ Mesh (DodecahedronGeometry 1.2 0)
           (MeshBasicMaterial 0xccffff FrontSide true 0.6 AdditiveBlending)
           origin origin;
      PointLight 0xccffff 1.0 40 ]
  else
    let wingGeo := CircleGeometry 0.8 8 0 Math_PI (0.4 + 0.4) in
    let wingMat := MeshBasicMaterial 0x88CCFF DoubleSide true 0.9 NormalBlending in
    [ Mesh wingGeo wingMat (mkV3 (Math_PI / 2) 0 (Math_PI / 2)) (mkV3 (-0.1) 0 0);
      Mesh wingGeo wingMat (mkV3 (Math_PI / 2) 0 (- Math_PI / 2)) (mkV3 0.1 0 0);
      PointLight 0x0088ff 0.8 20 ].

Definition updateCompanionMesh (type : string) (children : list Object3D)
  : list Object3D :=
  removeAll children ++ companionParts type.

(** The part of the component the cosmetic effect works on. *)
Record Cosmetics := mkCosmetics {
  activeSkinRef : string;
  activeCompanionRef : string;
  playerChildren : list Object3D;     (* playerRef.current.children *)
  companionChildren : list Object3D   (* companionGroupRef.current.children *)
}.

Definition playerLight : Object3D := PointLight 0xffaa00 2 60.

(** The scene set-up: the companion group is filled first, the player group
    gets its light and then its mesh. *)
Definition mountCosmetics (activeSkin activeCompanion : string) : Cosmetics :=
  mkCosmetics activeSkin activeCompanion
    (updatePlayerMesh activeSkin [playerLight])
    (updateCompanionMesh activeCompanion []).

(** The effect with dependencies [[activeSkin, activeCompanion]], once the
    scene exists: React runs it after a render in which one of the two props
    differs from the previous render, and it rebuilds both subtrees. *)
Definition cosmeticEffect (activeSkin activeCompanion : string) (c : Cosmetics)
  : Cosmetics :=
  if (activeSkin =? activeSkinRef c) && (activeCompanion =? activeCompanionRef c)
  then c
  else mkCosmetics activeSkin activeCompanion
         (updatePlayerMesh activeSkin (playerChildren c))
         (updateCompanionMesh activeCompanion (companionChildren c)).

(** The cosmetic states of a mounted canvas: the scene is set up, then the
    effect runs with whatever props later renders pass. *)
Inductive cosmeticsReachable : Cosmetics -> Prop :=
| reach_mount skin comp : cosmeticsReachable (mountCosmetics skin comp)
| reach_effect skin comp c :
    cosmeticsReachable c -> cosmeticsReachable (cosmeticEffect skin comp c).

End Companion.

(** Number of meshes among the children of a group. *)
Definition countMeshes (l : list Object3D) : nat := List.length (filter isMesh l).

End Scene.

(** ** The GLSL vertex shaders *)

Module Shader.

Open Scope Q_scope.

(** GLSL built-ins, by the formulas of the language reference.  [smoothstep]
    is the clamped Hermite polynomial also when [edge0] is the larger edge, as
    in the shader's [smoothstep(1.0, 0.85, normY)]. *)
Definition glsl_min (x y : Q) : Q := if Qlt_bool y x then y else x.
Definition glsl_max (x y : Q) : Q := if Qlt_bool x y then y else x.
Definition clamp (x minVal maxVal : Q) : Q := glsl_min (glsl_max x minVal) maxVal.
Definition glsl_mod (x y : Q) : Q := x - y * inject_Z (Qfloor (x / y)).
Definition smoothstep (edge0 edge1 x : Q) : Q :=
  let t := clamp ((x - edge0) / (edge1 - edge0)) 0 1 in
  t * t * (3 - 2 * t).

(** *** GRASS_VERTEX_SHADER, the interactive push *)

Definition interactRadius : Q := 35.

(** [heightPercent = pos.y / 4.5]. *)
Definition heightPercent (posY : Q) : Q := posY / 4.5.

(** The value of [pushFactor] that displaces the vertex; nothing is added
    when the test [dist < interactRadius] fails. *)
Definition pushFactor (dist heightPercent : Q) : Q :=
  if Qlt_bool dist interactRadius then
    sq (1 - dist / interactRadius) * 12 * heightPercent
  else 0.

(** The block as a whole. [dist] is the planar distance to the player and
    [pushDir] the normalised direction away from the player, both computed by
    the shader from [worldPos] and [uPlayerPosition]. *)
Definition interactivePush (dist : Q) (pushDir : Vector3) (heightPercent : Q)
    (worldPos : Vector3) : Vector3 :=
  if Qlt_bool dist interactRadius then
    let pf := pushFactor dist heightPercent in
    mkV3 (v3x worldPos + v3x pushDir * pf)
         (v3y worldPos - pf * 0.5)
         (v3z worldPos + v3z pushDir * pf)
  else worldPos.

(** *** WEATHER_VERTEX_SHADER, the fall and the fade *)

Definition fallOffset (uTime uSpeed aRandom : Q) : Q :=
  uTime * uSpeed * (0.8 + 0.4 * aRandom).

Definition height : Q := 200.

(** [pos.y = 100.0 - mod((100.0 - pos.y) + fallOffset, height)]. *)
Definition weatherY (posY uTime uSpeed aRandom : Q) : Q :=
  100 - glsl_mod ((100 - posY) + fallOffset uTime uSpeed aRandom) height.

Definition normY (y : Q) : Q := (y + 100) / 200.

Definition vAlpha (y : Q) : Q :=
  smoothstep 0 0.15 (normY y) * smoothstep 1 0.85 (normY y).

End Shader.

(** ** VisualizerCanvas: the chunk generation loop *)

(** [for (let i = from; i < from + n; i++) s = body(i, s)] over naturals and
    over integers. *)
Fixpoint forLoop {S : Type} (from n : nat) (body : nat -> S -> S) (s : S) : S :=
  match n with
  | O => s
  | Datatypes.S n' => forLoop (Datatypes.S from) n' body (body from s)
  end.

Fixpoint forLoopZ {S : Type} (from : Z) (n : nat) (body : Z -> S -> S) (s : S) : S :=
  match n with
  | O => s
  | Datatypes.S n' => forLoopZ (from + 1)%Z n' body (body from s)
  end.

Module Field.

Definition WORLD_EXTENT : Z := 60000.
Definition CHUNK_SIZE : Z := 2000.
Definition TOTAL_CHUNKS_SIDE : Z := (WORLD_EXTENT * 2) / CHUNK_SIZE.
Definition INSTANCES_PER_CHUNK : Z := 5000.

Open Scope Q_scope.

(** [new THREE.PlaneGeometry(w, h, ws, hs)] followed by [translate(0, ty, 0)]. *)
Record PlaneGeometry := mkPlane {
  width : Q; height : Q; widthSegments : Z; heightSegments : Z; translatedY : Q
}.

Definition bladeWidth : Q := 0.7.
Definition bladeHeight : Q := 4.5.
Definition grassGeoHigh : PlaneGeometry := mkPlane bladeWidth bladeHeight 1 3 (bladeHeight / 2).
Definition grassGeoLow : PlaneGeometry := mkPlane bladeWidth bladeHeight 1 1 (bladeHeight / 2).

(** The one shader material all batches share. *)
Inductive Material := grassMat.

(** [dummy.matrix] after [updateMatrix()]: it is composed from the position
    [(px, 0, pz)], the rotation about the vertical axis and the uniform scale,
    and is represented by these numbers. *)
Record Matrix4 := mkMatrix { m_px : Q; m_pz : Q; m_rotationY : Q; m_scale : Q }.

(** A slot of a freshly allocated [instanceMatrix]. *)
Definition unsetMatrix : Matrix4 := mkMatrix 0 0 0 0.

Record InstancedMesh := mkInstanced {
  geometry : PlaneGeometry;
  material : Material;
  count : nat;
  castShadow : bool;
  receiveShadow : bool;
  instanceMatrix : list Matrix4
}.

(** [new THREE.InstancedMesh(geometry, material, count)] with the two shadow
    flags assigned right after. *)
Definition newInstancedMesh (g : PlaneGeometry) (m : Material) (n : nat)
    (cast receive : bool) : InstancedMesh :=
  mkInstanced g m n cast receive (repeat unsetMatrix n).

(** Writing slot [j] of a list; a write past the end is dropped, as on a
    typed array. *)
Fixpoint writeAt (j : nat) (m : Matrix4) (l : list Matrix4) : list Matrix4 :=
  match l, j with
  | [], _ => []
  | _ :: r, O => m :: r
  | a :: r, Datatypes.S j' => a :: writeAt j' m r
  end.

Definition setMatrixAt (j : nat) (m : Matrix4) (mesh : InstancedMesh) : InstancedMesh :=
  mkInstanced (geometry mesh) (material mesh) (count mesh) (castShadow mesh)
              (receiveShadow mesh) (writeAt j m (instanceMatrix mesh)).

(** A [THREE.LOD] with its two levels. *)
Record Chunk := mkChunk {
  centerX : Z;
  centerZ : Z;
  meshHigh : InstancedMesh;   (* level at distance 0 *)
  meshLow : InstancedMesh;    (* level at distance [lowDistance] *)
  lowDistance : Z;
  autoUpdate : bool
}.

Section Generation.

Variable random : nat -> Q.   (* the successive results of [Math.random()] *)
Variable Math_PI : Q.

(** The grid parameters are arguments, so that the loop can be run on small
    grids; [chunks] below fixes them to the constants of the source. *)
Variable halfGrid : Z.
Variable chunkSize : Z.
Variable instances : nat.

(** The state of the loops: the two batches being filled and the number of
    random draws made so far. *)
Definition instanceBody (j : nat) (st : InstancedMesh * InstancedMesh * nat)
  : InstancedMesh * InstancedMesh * nat :=
  let '(high, low, k) := st in
  let px := (random k - 0.5) * inject_Z chunkSize in
  let pz := (random (k + 1) - 0.5) * inject_Z chunkSize in
  let rotationY := random (k + 2) * Math_PI in
  let scale := 0.8 + random (k + 3) * 0.7 in
  let dummy := mkMatrix px pz rotationY scale in
  (setMatrixAt j dummy high, setMatrixAt j dummy low, (k + 4)%nat).

Definition makeChunk (x z : Z) (k : nat) : Chunk * nat :=
  let cx := (x * chunkSize + chunkSize / 2)%Z in
  let cz := (z * chunkSize + chunkSize / 2)%Z in
  let high := newInstancedMesh grassGeoHigh grassMat instances true true in
  let low := newInstancedMesh grassGeoLow grassMat instances false true in
  let '(high, low, k) := forLoop 0 instances instanceBody (high, low, k) in
  (mkChunk cx cz high low 2000 false, k).

Definition gridSide : nat := Z.to_nat (halfGrid - - halfGrid).

Definition generate : list Chunk * nat :=
  forLoopZ (- halfGrid) gridSide
    (fun x st =>
       forLoopZ (- halfGrid) gridSide
         (fun z st =>
            let '(chunks, k) := st in
            let '(lod, k) := makeChunk x z k in
            (chunks ++ [lod], k))
         st)
    ([], O).

End Generation.

(** [chunksRef.current]. *)
Definition chunks (random : nat -> Q) (Math_PI : Q) : list Chunk :=
  fst (generate random Math_PI (TOTAL_CHUNKS_SIDE / 2) CHUNK_SIZE
                (Z.to_nat INSTANCES_PER_CHUNK)).

(** The square of ground a chunk is responsible for: the cell its instances
    are placed in, [(Math.random() - 0.5) * CHUNK_SIZE] around its centre. *)
Definition covers (c : Chunk) (px pz : Q) : Prop :=
  inject_Z (centerX c) - inject_Z CHUNK_SIZE / 2 <= px /\
  px < inject_Z (centerX c) + inject_Z CHUNK_SIZE / 2 /\
  inject_Z (centerZ c) - inject_Z CHUNK_SIZE / 2 <= pz /\
  pz < inject_Z (centerZ c) + inject_Z CHUNK_SIZE / 2.

(** The fixed world extent [[-WORLD_EXTENT, WORLD_EXTENT)] on both axes. *)
Definition inWorld (px pz : Q) : Prop :=
  - inject_Z WORLD_EXTENT <= px /\ px < inject_Z WORLD_EXTENT /\
  - inject_Z WORLD_EXTENT <= pz /\ pz < inject_Z WORLD_EXTENT.

(** Where a chunk sits. *)
Definition center (c : Chunk) : Z * Z := (centerX c, centerZ c).

(** The values the two loop counters take, in order. *)
Fixpoint zrange (from : Z) (n : nat) : list Z :=
  match n with
  | O => []
  | Datatypes.S n' => from :: zrange (from + 1)%Z n'
  end.

Definition gridIndices (halfGrid : Z) (side : nat) : list (Z * Z) :=
  flat_map (fun x => map (pair x) (zrange (- halfGrid) side)) (zrange (- halfGrid) side).

(** What the instance loop keeps true of the two batches it fills. *)
Definition batchesAgree (instances : nat) (st : InstancedMesh * InstancedMesh * nat)
  : Prop :=
  let '(high, low, _) := st in
  (geometry high = grassGeoHigh /\ geometry low = grassGeoLow) /\
  (material high = grassMat /\ material low = grassMat) /\
  (count high = instances /\ count low = instances) /\
  (castShadow high = true /\ castShadow low = false) /\
  (receiveShadow high = true /\ receiveShadow low = true) /\
  instanceMatrix high = instanceMatrix low /\
  List.length (instanceMatrix high) = instances.

(** What the loop body builds for the grid cell [(x, z)]. *)
Definition chunkAt (chunkSize : Z) (instances : nat) (x z : Z) (c : Chunk) : Prop :=
  centerX c = (x * chunkSize + chunkSize / 2)%Z /\
  centerZ c = (z * chunkSize + chunkSize / 2)%Z /\
  (geometry (meshHigh c) = grassGeoHigh /\ geometry (meshLow c) = grassGeoLow) /\
  (material (meshHigh c) = grassMat /\ material (meshLow c) = grassMat) /\
  (count (meshHigh c) = instances /\ count (meshLow c) = instances) /\
  (castShadow (meshHigh c) = true /\ castShadow (meshLow c) = false) /\
  (receiveShadow (meshHigh c) = true /\ receiveShadow (meshLow c) = true) /\
  instanceMatrix (meshHigh c) = instanceMatrix (meshLow c) /\
  List.length (instanceMatrix (meshHigh c)) = instances.

(** The centre of the cell [(x, z)]. *)
Definition cellCenter (i : Z * Z) : Z * Z :=
  ((fst i * CHUNK_SIZE + CHUNK_SIZE / 2)%Z, (snd i * CHUNK_SIZE + CHUNK_SIZE / 2)%Z).

Definition builtAt (i : Z * Z) (c : Chunk) : Prop :=
  chunkAt CHUNK_SIZE (Z.to_nat INSTANCES_PER_CHUNK) (fst i) (snd i) c.

Definition fieldIndices : list (Z * Z) :=
  gridIndices (TOTAL_CHUNKS_SIDE / 2)
              (Z.to_nat (TOTAL_CHUNKS_SIDE / 2 - - (TOTAL_CHUNKS_SIDE / 2))).

(** Two batches that differ at most in the tessellation of their geometry. *)
Definition sameButTessellation (a b : InstancedMesh) : Prop :=
  width (geometry a) = width (geometry b) /\
  height (geometry a) = height (geometry b) /\
  translatedY (geometry a) = translatedY (geometry b) /\
  material a = material b /\
  count a = count b /\
  castShadow a = castShadow b /\
  receiveShadow a = receiveShadow b /\
  instanceMatrix a = instanceMatrix b.

(** The same, with the shadow-casting flag left out of the comparison. *)
Definition sameButTessellationAndCastShadow (a b : InstancedMesh) : Prop :=
  width (geometry a) = width (geometry b) /\
  height (geometry a) = height (geometry b) /\
  translatedY (geometry a) = translatedY (geometry b) /\
  material a = material b /\
  count a = count b /\
  receiveShadow a = receiveShadow b /\
  instanceMatrix a = instanceMatrix b.

End Field.

(** ** JavaScript numbers that may not be finite *)

Module Js.

Open Scope Q_scope.

(** A number of JavaScript: a finite value, taken exactly, one of the two
    infinities, or NaN.  Rounding and overflow are left out, and so is the
    sign of zero: the one divisor of the code that can be zero is a result of
    [Math.hypot], which is never [-0]. *)
Inductive number := Finite (q : Q) | Infinity | NegInfinity | NaN.

Definition signed (positive : bool) : number :=
  if positive then Infinity else NegInfinity.

(** The product of an infinity and a number. *)
Definition mulInfinity (positive : bool) (b : number) : number :=
  match b with
  | Finite y =>
      if Qeq_bool y 0 then NaN else signed (Bool.eqb positive (Qlt_bool 0 y))
  | Infinity => signed positive
  | NegInfinity => signed (negb positive)
  | NaN => NaN
  end.

(** [a * b]. *)
Definition mul (a b : number) : number :=
  match a, b with
  | Finite x, Finite y => Finite (x * y)
  | Finite _, Infinity => mulInfinity true a
  | Finite _, NegInfinity => mulInfinity false a
  | Finite _, NaN => NaN
  | Infinity, _ => mulInfinity true b
  | NegInfinity, _ => mulInfinity false b
  | NaN, _ => NaN
  end.

(** [a + b]. *)
Definition add (a b : number) : number :=
  match a, b with
  | Finite x, Finite y => Finite (x + y)
  | NaN, _ | _, NaN => NaN
  | Infinity, NegInfinity | NegInfinity, Infinity => NaN
  | Infinity, _ | _, Infinity => Infinity
  | NegInfinity, _ | _, NegInfinity => NegInfinity
  end.

(** [x / y] of two finite numbers. *)
Definition div (x y : Q) : number :=
  if Qeq_bool y 0 then
    if Qeq_bool x 0 then NaN else signed (Qlt_bool 0 x)
  else Finite (x / y).

(** [a > b] and [a < b]: false as soon as one side is NaN. *)
Definition gt (a b : number) : bool :=
  match a, b with
  | NaN, _ | _, NaN => false
  | Finite x, Finite y => Qlt_bool y x
  | Infinity, Infinity => false
  | Infinity, _ => true
  | NegInfinity, _ => false
  | Finite _, NegInfinity => true
  | Finite _, Infinity => false
  end.

Definition lt (a b : number) : bool := gt b a.

Definition isFinite (a : number) : bool :=
  match a with Finite _ => true | _ => false end.

End Js.

(** ** VisualizerCanvas: the animation loop *)

Module Sim.

Open Scope string_scope.
Open Scope Q_scope.

Definition GAME_OVER_RADIUS : Q := 8000.

Inductive Emotion := HAPPY | CALM | SAD.

Record SystemState := mkSystemState {
  emotion : Emotion;
  mouthOpenness : Q;
  mouthCurvature : Js.number;
  soundAmplitude : Q;
  soundFrequency : Q;
  handPosition : Vector2;
  handSize : Q;
  isFist : bool
}.

(** The colours of [CONFIG] that [animate] reads. *)
Definition CONFIG_happyColor : Z := 0xD4DE8D.
Definition CONFIG_calmColor : Z := 0xE6C229.
Definition CONFIG_sadColor : Z := 0xBBDDFF.

(** [currentWeather.current]. *)
Record Weather := mkWeather {
  color : Color; speed : Q; sway : Q; size : Q
}.

(** The live values the blender writes: the grass uniforms, the sun light,
    the weather state and the halo uniforms. *)
Record Environment := mkEnv {
  uBaseColor : Color;
  uTipColor : Color;
  uWindStrength : Q;
  sunLightColor : Color;
  currentWeather : Weather;
  haloColor : Color;
  uOpacity : Q
}.

Definition initialEnvironment : Environment :=
  mkEnv (setHex 0x0a3a0a) (setHex 0xB0D66B) 1.0 (setHex 0xffaa33)
        (mkWeather (setHex 0xffffff) 10 1 4) (setHex 0xffaa33) 0.0.

(** The targets [animate] selects from the emotion.  The defaults it assigns
    first are overwritten in each of the three branches of its [if] chain. *)
Record Targets := mkTargets {
  targetBase : Color;
  targetTip : Color;
  sunColor : Color;
  targetWeatherColor : Color;
  targetWeatherSpeed : Q;
  targetWeatherSway : Q;
  targetWeatherSize : Q;
  targetHaloOpacity : Q;
  targetHaloColor : Color
}.

Definition targets (e : Emotion) : Targets :=
  match e with
  | CALM =>
      mkTargets (setHex 0x1a2a0a) (setHex CONFIG_calmColor) (setHex 0xffaa33)
                (setHex 0xE6C229) 6.0 2.0 5.0 0.4 (setHex 0xffaa00)
  | HAPPY =>
      mkTargets (setHex 0x1a2010) (setHex CONFIG_happyColor) (setHex 0xffffdd)
                (setHex 0xFFFFCC) 8.0 1.5 4.0 0.6 (setHex 0xfffee0)
  | SAD =>
      mkTargets (setHex 0x223344) (setHex CONFIG_sadColor) (setHex 0xFFEECC)
                (setHex 0xFFFFFF) 20.0 0.8 2.5 0.5 (setHex 0xFFDD88)
  end.

(** The two smoothing rates of the blender. *)
Definition BLEND_RATE : Q := 0.05.
Definition HALO_OPACITY_RATE : Q := 0.02.

(** The last part of [animate]: wind strength is set from the sound
    amplitude, every other live value moves towards its target. *)
Definition blend (state : SystemState) (env : Environment) : Environment :=
  let t := targets (emotion state) in
  let w := currentWeather env in
  mkEnv (Color_lerp (uBaseColor env) (targetBase t) BLEND_RATE)
        (Color_lerp (uTipColor env) (targetTip t) BLEND_RATE)
        (0.5 + soundAmplitude state * 5.0)
        (Color_lerp (sunLightColor env) (sunColor t) BLEND_RATE)
        (mkWeather (Color_lerp (color w) (targetWeatherColor t) BLEND_RATE)
                   (speed w + (targetWeatherSpeed t - speed w) * BLEND_RATE)
                   (sway w + (targetWeatherSway t - sway w) * BLEND_RATE)
                   (size w + (targetWeatherSize t - size w) * BLEND_RATE))
        (Color_lerp (haloColor env) (targetHaloColor t) BLEND_RATE)
        (uOpacity env + (targetHaloOpacity t - uOpacity env) * HALO_OPACITY_RATE).

(** The live numbers of an environment, the targets they move to and the
    rates they move at, listed in one order: base, tip, sun, weather colour
    (three channels each), weather speed, sway, size, halo colour, halo
    opacity. *)
Definition channelsOf (c : Color) : list Q := [cr c; cg c; cb c].

Definition liveValues (env : Environment) : list Q :=
  channelsOf (uBaseColor env) ++ channelsOf (uTipColor env) ++
  channelsOf (sunLightColor env) ++ channelsOf (color (currentWeather env)) ++
  [speed (currentWeather env); sway (currentWeather env); size (currentWeather env)] ++
  channelsOf (haloColor env) ++ [uOpacity env].

Definition targetValues (t : Targets) : list Q :=
  channelsOf (targetBase t) ++ channelsOf (targetTip t) ++
  channelsOf (sunColor t) ++ channelsOf (targetWeatherColor t) ++
  [targetWeatherSpeed t; targetWeatherSway t; targetWeatherSize t] ++
  channelsOf (targetHaloColor t) ++ [targetHaloOpacity t].

Definition rates : list Q := repeat BLEND_RATE 18 ++ [HALO_OPACITY_RATE].

(** *** Movement *)

Definition NEUTRAL_SIZE : Q := 0.12.
Definition SIZE_DEADZONE : Q := 0.02.
Definition TURN_GAIN : Q := 2.5.     (* the factor of [joyX * 2.5] *)
Definition DEPTH_GAIN : Q := 25.0.   (* the factor of [sizeDiff * 25.0] *)
Definition moveSpeed : Q := 0.6.

Definition turn (state : SystemState) : Q := v2x (handPosition state) * TURN_GAIN.

Definition speedZ (state : SystemState) : Q :=
  let sizeDiff := handSize state - NEUTRAL_SIZE in
  if Qlt_bool SIZE_DEADZONE (Qabs sizeDiff) then - (sizeDiff * DEPTH_GAIN) else 0.

Definition updateVelocity (state : SystemState) (v : Vector2) : Vector2 :=
  mkV2 (v2x v * 0.9 + turn state * 0.1) (v2y v * 0.9 + speedZ state * 0.1).

Definition updatePosition (v : Vector2) (p : Vector3) : Vector3 :=
  mkV3 (v3x p + v2x v * moveSpeed) (v3y p) (v3z p + v2y v * moveSpeed).

(** The square of [distFromCenter]. *)
Definition distFromCenterSq (p : Vector3) : Q := sq (v3x p) + sq (v3z p).

(** [distFromCenter > GAME_OVER_RADIUS]. *)
Definition outOfBounds (p : Vector3) : bool :=
  Qlt_bool (sq GAME_OVER_RADIUS) (distFromCenterSq p).

(** *** Shards *)

Record Shard := mkShard {
  position : Vector3; rotationX : Q; rotationY : Q; visible : bool
}.

Definition COLLECT_RADIUS : Q := 10.
Definition DESPAWN_RADIUS : Q := 8000.

(** What a tick signals to the application.  [onCollectShard()] takes no
    argument; the index of the shard that caused the call is recorded with the
    event so that calls can be told apart. *)
Inductive Event := GameOver | CollectShard (i : nat).

(** The square of the planar distance of a shard to the player. *)
Definition planarDistSq (s : Shard) (player : Vector3) : Q :=
  sq (v3x (position s) - v3x player) + sq (v3z (position s) - v3z player).

Section Loop.

Variable Math_sin : Q -> Q.
Variable Math_cos : Q -> Q.
Variable random : nat -> Q.   (* the successive results of [Math.random()] *)

(** The body of the shard loop for the shard of index [i]; [k] counts the
    random draws made so far. *)
Definition shardBody (time : Q) (player : Vector3) (i : nat) (shard : Shard) (k : nat)
  : Shard * nat * list Event :=
  let rotY := rotationY shard + 0.02 in
  let rotX := rotationX shard + 0.01 in
  let pos := mkV3 (v3x (position shard))
                  (5 + Math_sin (time * 2 + inject_Z (Z.of_nat i)) * 1.5)
                  (v3z (position shard)) in
  let d2 := planarDistSq shard player in
  if Qlt_bool d2 (sq COLLECT_RADIUS) then
    (mkShard (mkV3 (v3x player + (random k - 0.5) * 2000) 5
                   (v3z player + (random (k + 1) - 0.5) * 2000))
             rotX rotY true,
     (k + 2)%nat, [CollectShard i])
  else if Qlt_bool (sq DESPAWN_RADIUS) d2 then
    (mkShard (mkV3 (v3x player + (random k - 0.5) * 4000) 5
                   (v3z player + (random (k + 1) - 0.5) * 4000))
             rotX rotY (visible shard),
     (k + 2)%nat, [])
  else (mkShard pos rotX rotY (visible shard), k, []).

(** [for (let i = length - 1; i >= 0; i--)]: the shards of higher index are
    visited first.  [i] is the index of the head of [l]. *)
Fixpoint shardLoop (time : Q) (player : Vector3) (i : nat) (l : list Shard) (k : nat)
  : list Shard * nat * list Event :=
  match l with
  | [] => ([], k, [])
  | shard :: rest =>
      let '(rest', k1, ev1) := shardLoop time player (Datatypes.S i) rest k in
      let '(shard', k2, ev2) := shardBody time player i shard k1 in
      (shard' :: rest', k2, (ev1 ++ ev2)%list)
  end.

(** *** The simulation state *)

Record World := mkWorld {
  timeRef : Q;
  playerVelocity : Vector2;
  playerPosition : Vector3;
  playerGroupPosition : Vector3;     (* playerRef.current.position *)
  weatherSystemPosition : Vector3;
  groundPosition : Vector3;
  cameraPosition : Vector3;
  companionPosition : Vector3;
  shards : list Shard;
  environment : Environment;
  draws : nat                        (* calls of [Math.random()] so far *)
}.

(** What a frame reads from outside the component. *)
Record Frame := mkFrame {
  isPaused : bool;
  state : SystemState;
  activeCompanion : string
}.

(** The hover offset of the companion. *)
Definition hover (type : string) (time : Q) : Vector3 :=
  if type =? "comp_firefly" then
    mkV3 (Math_sin (time * 5.0) * 8.0) (Math_cos (time * 4.0) * 4.0 + 8.0)
         (Math_cos (time * 6.0) * 8.0)
  else if type =? "comp_spirit" then
    mkV3 (Math_sin (time * 0.5) * 6.0) (Math_cos (time * 0.8) * 2.0 + 6.0)
         (Math_cos (time * 0.4) * 6.0)
  else
    mkV3 (Math_sin (time * 1.2) * 5.0) (Math_cos (time * 2.3) * 3.0 + 5.0)
         (Math_cos (time * 0.8) * 5.0).

(** One call of [animate] that is not cut short: movement, the objects that
    follow the player, the shards, the blender.  Orientation ([lookAt]), the
    level-of-detail switch, the wing flap and the uniforms that only copy
    state ([uTime], [uPlayerPosition], the weather uniforms) act on rendering
    only and are left out. *)
Definition advance (f : Frame) (time : Q) (w : World) : World * list Event :=
  let v := updateVelocity (state f) (playerVelocity w) in
  let p := updatePosition v (playerPosition w) in
  let bobHeight := 6 + Math_sin (time * 1.5) * 1.0 in
  let targetCamPos := mkV3 (v3x p) 30 (v3z p + 60) in
  let h := hover (activeCompanion f) time in
  let targetPos := mkV3 (v3x p + v3x h + 8) (bobHeight + v3y h) (v3z p + v3z h) in
  let '(shards', k, events) := shardLoop time p 0 (shards w) (draws w) in
  (mkWorld time v p
           (mkV3 (v3x p) bobHeight (v3z p))
           (mkV3 (v3x p) 50 (v3z p))
           (mkV3 (v3x p) 0 (v3z p))
           (Vector3_lerp (cameraPosition w) targetCamPos 0.05)
           (Vector3_lerp (companionPosition w) targetPos 0.05)
           shards'
           (blend (state f) (environment w))
           k,
   events).

(** [timeRef.current += 0.01] alone. *)
Definition tickClock (w : World) : World :=
  mkWorld (timeRef w + 0.01) (playerVelocity w) (playerPosition w)
          (playerGroupPosition w) (weatherSystemPosition w) (groundPosition w)
          (cameraPosition w) (companionPosition w) (shards w) (environment w)
          (draws w).

(** The callback [animate].  It always requests the next frame first; then a
    paused frame returns at once, and a frame that finds the player out of
    bounds advances the clock, calls [onGameOver()] and returns. *)
Definition animate (f : Frame) (w : World) : World * list Event :=
  if isPaused f then (w, [])
  else if outOfBounds (playerPosition w) then (tickClock w, [GameOver])
  else advance f (timeRef w + 0.01) w.

(** The frames of a session in order, with the events they signal. *)
Fixpoint run (frames : list Frame) (w : World) : World * list Event :=
  match frames with
  | [] => (w, [])
  | f :: rest =>
      let '(w1, ev1) := animate f w in
      let '(w2, ev2) := run rest w1 in
      (w2, (ev1 ++ ev2)%list)
  end.

(** The shards of a fresh scene: 150 of them, three draws each. *)
Definition initialShards (k : nat) : list Shard * nat :=
  forLoop 0 150
    (fun _ st =>
       let '(l, k) := st in
       ((l ++ [mkShard (mkV3 ((random k - 0.5) * 6000) (5 + random (k + 1) * 5)
                             ((random (k + 2) - 0.5) * 6000)) 0 0 true])%list,
        (k + 3)%nat))
    ([], k).

(** The state after the scene is built, [k] draws having been made by the
    earlier set-up code.  A remount (the external reset) starts from here. *)
Definition initialWorld (k : nat) : World :=
  let '(l, k') := initialShards k in
  mkWorld 0 (mkV2 0 0) (mkV3 0 6 0) (mkV3 0 0 0) (mkV3 0 0 0) (mkV3 0 0 0)
          (mkV3 0 0 0) (mkV3 0 0 0) l initialEnvironment k'.

(** The movement part of a tick repeated under one input. *)
Fixpoint velocityAfter (n : nat) (state : SystemState) (v : Vector2) : Vector2 :=
  match n with
  | O => v
  | Datatypes.S n' => updateVelocity state (velocityAfter n' state v)
  end.

(** The blender repeated under one input. *)
Fixpoint blendAfter (n : nat) (state : SystemState) (env : Environment) : Environment :=
  match n with
  | O => env
  | Datatypes.S n' => blend state (blendAfter n' state env)
  end.

End Loop.

(** The frames of a list that are not paused. *)
Definition unpausedFrames (frames : list Frame) : nat :=
  List.length (filter (fun f => negb (isPaused f)) frames).

Definition Event_eq_dec (a b : Event) : {a = b} + {a <> b}.
Proof. decide equality. apply Nat.eq_dec. Defined.

(** A tracking snapshot with a given hand, and a world with the player and
    the shards placed by hand; both serve as concrete inputs. *)
Definition handState (x size : Q) : SystemState :=
  mkSystemState CALM 0 (Js.Finite 0) 0 0 (mkV2 x 0) size false.

Definition worldAt (p : Vector3) (l : list Shard) : World :=
  mkWorld 0 (mkV2 0 0) p (mkV3 0 0 0) (mkV3 0 0 0) (mkV3 0 0 0) (mkV3 0 0 0)
          (mkV3 0 0 0) l initialEnvironment 0.

(** A running frame with the hand at rest, and constant oracles. *)
Definition idleFrame : Frame :=
  mkFrame false (handState 0 0.12) "comp_butterfly".

Definition constantly (c : Q) : Q -> Q := fun _ => c.
Definition alwaysDraw (c : Q) : nat -> Q := fun _ => c.

(** A shard lying still at a place on the ground. *)
Definition shardAt (x z : Q) : Shard := mkShard (mkV3 x 5 z) 0 0 true.

(** Whether the loop body puts a shard back: it is closer to the player than
    the collect radius or farther than the despawn radius.  The loop runs
    from the last index down, so the shard of index [j] is reached after
    those of higher index, each of which has taken two draws if it was put
    back: [drawsBefore] counts these draws. *)
Definition relocates (player : Vector3) (s : Shard) : bool :=
  Qlt_bool (planarDistSq s player) (sq COLLECT_RADIUS)
  || Qlt_bool (sq DESPAWN_RADIUS) (planarDistSq s player).

Definition relocated (player : Vector3) (l : list Shard) : nat :=
  List.length (filter (relocates player) l).

Definition drawsBefore (player : Vector3) (l : list Shard) (j : nat) : nat :=
  2 * relocated player (skipn (Datatypes.S j) l).

(** A running frame with the hand at the right edge of the image. *)
Definition turningFrame : Frame :=
  mkFrame false (handState 1 0.12) "comp_butterfly".

(** A shard as the set-up loop makes it. *)
Definition fresh (s : Shard) : Prop :=
  visible s = true /\ rotationX s = 0 /\ rotationY s = 0 /\
  Qabs (v3x (position s)) <= 3000 /\ Qabs (v3z (position s)) <= 3000 /\
  5 <= v3y (position s) /\ v3y (position s) < 10.

(** The signed excess of the hand size beyond the dead zone, as the
    specification words it: the part of the difference from neutral that lies
    outside the dead zone, with the sign of the difference. *)
Definition specSignedExcess (state : SystemState) : Q :=
  let sizeDiff := handSize state - NEUTRAL_SIZE in
  if Qlt_bool 0 sizeDiff then sizeDiff - SIZE_DEADZONE else sizeDiff + SIZE_DEADZONE.

End Sim.

(** ** App.tsx and the overlay: what the player can do in the shop *)

Module ShopFlow.
Import App.

Open Scope string_scope.

(** The cost of the items that are unlocked. *)
Definition spent (l : list StoreItem) : Z :=
  fold_right (fun i acc => if unlocked i then (cost i + acc)%Z else acc) 0%Z l.






(** [ShopItemCard]: what the card of an item offers.  An unlocked item shows
    a check mark when active and the equip button otherwise; a locked item
    shows the purchase button, disabled when [currentXp < item.cost]. *)
Inductive CardControl := EquippedMark | EquipButton | PurchaseButton (enabled : bool).

Definition cardControl (item : StoreItem) (currentXp : Z) : CardControl :=
  if unlocked item then
    if active item then EquippedMark else EquipButton
  else PurchaseButton (cost item <=? currentXp)%Z.

(** A click on the control of a card. *)
Definition click (item : StoreItem) (s : Shop) : Shop :=
  match cardControl item (xp s) with
  | EquipButton => handleEquip item s
  | PurchaseButton true => handlePurchase s item s
  | PurchaseButton false => s
  | EquippedMark => s
  end.

(** What stays true of the store besides [shopInv]: the costs are the initial
    ones, the balance is not negative, and what is active is unlocked. *)
Definition accountInv (s : Shop) : Prop :=
  map cost (storeItems s) = map cost INITIAL_STORE_ITEMS /\
  (0 <= xp s)%Z /\
  (forall i, In i (storeItems s) -> active i = true -> unlocked i = true).

(** The callback of [handlePurchase]'s [map]. *)
Definition unlockIt (item i : StoreItem) : StoreItem :=
  if id i =? id item then set_unlocked i else i.

(** The selector that belongs to a type of item. *)
Definition activeOf (t : ItemType) (s : Shop) : string :=
  match t with skin => activeSkin s | companion => activeCompanion s end.













End ShopFlow.

(** ** The overlay: the hand line of the stats panel *)

Module Hud.
Import Sim.

Open Scope Q_scope.

(** The three texts of the hand line: approaching (forward), receding
    (backward), still. *)
Inductive HandLabel := Approaching | Receding | Still.

Definition handLabel (systemState : SystemState) : HandLabel :=
  if Qlt_bool 0.13 (handSize systemState) then Approaching
  else if Qlt_bool (handSize systemState) 0.10 then Receding
  else Still.

(** The width of the wind bar in percent,
    [Math.min(systemState.soundAmplitude * 200, 100)]. *)
Definition Math_min (a b : Q) : Q := if Qlt_bool b a then b else a.

Definition windBar (systemState : SystemState) : Q :=
  Math_min (soundAmplitude systemState * 200) 100.

End Hud.

(** ** App.tsx: the tracking callbacks *)

Module Tracking.
Import Sim.

Open Scope Q_scope.

(** A normalised landmark of MediaPipe (its depth is not read). *)
Record Landmark := mkLandmark { lx : Q; ly : Q }.

(** The three assignments to [systemStateRef.current] of [hands.onResults]. *)
Definition setHand (x y size : Q) (fist : bool) (st : SystemState) : SystemState :=
  mkSystemState (emotion st) (mouthOpenness st) (mouthCurvature st)
                (soundAmplitude st) (soundFrequency st) (mkV2 x y) size fist.

(** The two assignments of [faceMesh.onResults]. *)
Definition setFace (curvature : Js.number) (e : Emotion) (st : SystemState) : SystemState :=
  mkSystemState e (mouthOpenness st) curvature (soundAmplitude st)
                (soundFrequency st) (handPosition st) (handSize st) (isFist st).

(** The thresholds on the smoothed curvature. *)
Definition classify (curvature : Js.number) : Emotion :=
  if Js.gt curvature (Js.Finite 0.04) then HAPPY
  else if Js.lt curvature (Js.Finite (- 0.03)) then SAD
  else CALM.

(** Steps 3 and 4 of [faceMesh.onResults]: the moving average and the
    emotion. *)
Definition faceStep (rawCurvature : Js.number) (st : SystemState) : SystemState :=
  let curvature :=
    Js.add (Js.mul (mouthCurvature st) (Js.Finite 0.9))
           (Js.mul rawCurvature (Js.Finite 0.1)) in
  setFace curvature (classify curvature) st.

(** Frames of one and the same raw curvature. *)
Fixpoint faceAfter (n : nat) (rawCurvature : Js.number) (st : SystemState) : SystemState :=
  match n with
  | O => st
  | S n' => faceStep rawCurvature (faceAfter n' rawCurvature st)
  end.

(** Frames of any raw curvatures, the first of the list first. *)
Definition faceFrames (rawCurvatures : list Js.number) (st : SystemState) : SystemState :=
  fold_left (fun s raw => faceStep raw s) rawCurvatures st.

Section Hypot.

(** [Math.hypot]. *)
Variable Math_hypot : Q -> Q -> Q.

(** The distance of a finger tip to the palm centre; a missing tip adds
    nothing. *)
Definition tipDistance (landmarks : list (option Landmark)) (palmCenter : Landmark)
    (idx : nat) : Q :=
  match nth_error landmarks idx with
  | Some (Some tip) => Math_hypot (lx tip - lx palmCenter) (ly tip - ly palmCenter)
  | _ => 0
  end.

Definition tipToMcpDist (landmarks : list (option Landmark)) (palmCenter : Landmark) : Q :=
  fold_left (fun acc idx => acc + tipDistance landmarks palmCenter idx)
            [8; 12; 16; 20]%nat 0.

(** [hands.onResults].  [multiHandLandmarks] is the list of detected hands
    (empty or absent when there is none), a hand the list of its landmarks;
    a hand and a landmark may be missing ([null] or [undefined]). *)
Definition onHandResults (multiHandLandmarks : list (option (list (option Landmark))))
    (st : SystemState) : SystemState :=
  match multiHandLandmarks with
  | None :: _ => st
  | Some landmarks :: _ =>
      if (List.length landmarks <? 21)%nat then st
      else
        match nth_error landmarks 9, nth_error landmarks 0 with
        | Some (Some palmCenter), Some (Some wrist) =>
            setHand ((1 - lx palmCenter) * 2 - 1) (- (ly palmCenter) * 2 + 1)
                    (Math_hypot (lx palmCenter - lx wrist) (ly palmCenter - ly wrist))
                    (Qlt_bool (tipToMcpDist landmarks palmCenter) 0.35)
                    st
        | _, _ => st
        end
  | [] => setHand 0 0 0.12 false st
  end.

(** Steps 1 and 2 of [faceMesh.onResults].  A mouth of width 0 divides by
    zero: the raw curvature is then an infinity, or NaN when the lips are at
    the height of the corners. *)
Definition rawCurvature (leftCorner rightCorner upperLip lowerLip : Landmark) : Js.number :=
  let width := Math_hypot (lx rightCorner - lx leftCorner) (ly rightCorner - ly leftCorner) in
  let cornersY := (ly leftCorner + ly rightCorner) / 2 in
  let centerY := (ly upperLip + ly lowerLip) / 2 in
  Js.div (centerY - cornersY) width.

(** [faceMesh.onResults]: without a face, or with the face or one of the
    four mouth landmarks missing, nothing is written. *)
Definition onFaceResults (multiFaceLandmarks : list (option (list (option Landmark))))
    (st : SystemState) : SystemState :=
  match multiFaceLandmarks with
  | None :: _ => st
  | Some landmarks :: _ =>
      match nth_error landmarks 61, nth_error landmarks 291,
            nth_error landmarks 13, nth_error landmarks 14 with
      | Some (Some leftCorner), Some (Some rightCorner),
        Some (Some upperLip), Some (Some lowerLip) =>
          faceStep (rawCurvature leftCorner rightCorner upperLip lowerLip) st
      | _, _, _, _ => st
      end
  | [] => st
  end.

End Hypot.

(** The movement part of a tick, velocity and position, repeated under one
    input. *)
Fixpoint moveAfter (n : nat) (state : SystemState) (v : Vector2) (p : Vector3)
  : Vector2 * Vector3 :=
  match n with
  | O => (v, p)
  | S n' =>
      let '(v1, p1) := moveAfter n' state v p in
      let v2 := updateVelocity state v1 in
      (v2, updatePosition v2 p1)
  end.

End Tracking.

(** ** App.tsx: the audio loop *)

Module Audio.
Import Sim.

Open Scope Q_scope.

(** [for (let i = 0; i < bufferLength; i++) sum += dataArray[i]] over the
    bytes of the [Uint8Array]. *)
Definition byteSum (dataArray : list Byte.byte) : Z :=
  fold_left (fun sum b => (sum + Z.of_N (Byte.to_N b))%Z) dataArray 0%Z.

(** [sum / (bufferLength * 255)]. *)
Definition amplitude (dataArray : list Byte.byte) : Q :=
  inject_Z (byteSum dataArray) / (inject_Z (Z.of_nat (List.length dataArray)) * 255).

Definition setSoundAmplitude (a : Q) (st : SystemState) : SystemState :=
  mkSystemState (emotion st) (mouthOpenness st) (mouthCurvature st) a
                (soundFrequency st) (handPosition st) (handSize st) (isFist st).

(** The targets last passed to [setTargetAtTime], the clock of the loop and
    the number of random draws it has made. *)
Record AudioLoop := mkAudioLoop {
  time : Q;
  targetFreq : Q;
  targetGain : Q;
  audioDraws : nat
}.

Section Loop.

Variable Math_sin : Q -> Q.
Variable Math_cos : Q -> Q.
Variable random : nat -> Q.

(** One run of the interval callback.  [hasAudio] says whether the audio
    context and the analyser exist, [hasWind] whether the wind filter and
    the wind gain do. *)
Definition audioTick (hasAudio hasWind : bool) (dataArray : list Byte.byte)
    (loop : AudioLoop) (st : SystemState) : AudioLoop * SystemState :=
  if negb hasAudio then (loop, st)
  else
    let time := time loop + 0.05 in
    let st' := setSoundAmplitude (soundAmplitude st * 0.9 + amplitude dataArray * 0.1) st in
    let k := audioDraws loop in
    if hasWind then
      let baseVariation := Math_sin (time * 0.5) * 200 + Math_cos (time * 1.3) * 100 in
      if isFist st' then
        (mkAudioLoop time (800 + random k * 600) (0.8 + random (k + 1) * 0.3) (k + 2)%nat, st')
      else
        (mkAudioLoop time (400 + baseVariation) (0.4 + Math_sin (time * 0.2) * 0.1) k, st')
    else (mkAudioLoop time (targetFreq loop) (targetGain loop) k, st').

(** The callback run once per analysed buffer. *)
Fixpoint audioRun (hasWind : bool) (buffers : list (list Byte.byte)) (loop : AudioLoop)
    (st : SystemState) : AudioLoop * SystemState :=
  match buffers with
  | [] => (loop, st)
  | dataArray :: rest =>
      let '(loop1, st1) := audioTick true hasWind dataArray loop st in
      audioRun hasWind rest loop1 st1
  end.

End Loop.

End Audio.

(** ** App.tsx and the overlay: the session *)

Module Session.
Import App Sim ShopFlow.

Inductive AppStatus := IDLE | LOADING | READY | RUNNING | PAUSED | GAME_OVER | ERROR.

Definition AppStatus_eqb (a b : AppStatus) : bool :=
  match a, b with
  | IDLE, IDLE | LOADING, LOADING | READY, READY | RUNNING, RUNNING
  | PAUSED, PAUSED | GAME_OVER, GAME_OVER | ERROR, ERROR => true
  | _, _ => false
  end.

(** The state of [App] and of the canvas it mounts.  [hasAudio] says whether
    [audioContextRef.current] is set.  [starting] counts the calls of
    [handleStart] that wait for the initialisation to settle, and [toggling]
    holds the status writes of the calls of [togglePause] that wait for
    [suspend()] or [resume()]. *)
Record AppState := mkAppState {
  status : AppStatus;
  gameKey : nat;
  isShopOpen : bool;
  shop : Shop;
  canvas : World;
  starting : nat;
  hasAudio : bool;
  toggling : list AppStatus
}.

Definition setStatus (st : AppStatus) (s : AppState) : AppState :=
  mkAppState st (gameKey s) (isShopOpen s) (shop s) (canvas s) (starting s)
             (hasAudio s) (toggling s).

Definition setIsShopOpen (b : bool) (s : AppState) : AppState :=
  mkAppState (status s) (gameKey s) b (shop s) (canvas s) (starting s)
             (hasAudio s) (toggling s).

Definition setShop (sh : Shop) (s : AppState) : AppState :=
  mkAppState (status s) (gameKey s) (isShopOpen s) sh (canvas s) (starting s)
             (hasAudio s) (toggling s).

Definition setCanvas (w : World) (s : AppState) : AppState :=
  mkAppState (status s) (gameKey s) (isShopOpen s) (shop s) w (starting s)
             (hasAudio s) (toggling s).

Definition setToggling (l : list AppStatus) (s : AppState) : AppState :=
  mkAppState (status s) (gameKey s) (isShopOpen s) (shop s) (canvas s) (starting s)
             (hasAudio s) l.

(** [handleGameOver]. *)
Definition handleGameOver (s : AppState) : AppState := setStatus GAME_OVER s.

(** [togglePause] up to its [await].  The status it reads is the one of the
    render the click found.  With an audio context the call waits for
    [suspend()] or [resume()] before it writes the status, and anything may
    happen in between; without one it writes at once. *)
Definition togglePause (s : AppState) : AppState :=
  match status s with
  | RUNNING =>
      if hasAudio s then setToggling (toggling s ++ [PAUSED]) s else setStatus PAUSED s
  | PAUSED =>
      if hasAudio s then setToggling (toggling s ++ [RUNNING]) s else setStatus RUNNING s
  | _ => s
  end.

(** A list without its element of index [n]. *)
Fixpoint removeAt {A : Type} (n : nat) (l : list A) : list A :=
  match l, n with
  | [], _ => []
  | _ :: r, O => r
  | a :: r, S n' => a :: removeAt n' r
  end.

(** The rest of a call of [togglePause]: the promise of the waiting call of
    index [n] is fulfilled, and the call writes its status. *)
Definition toggled (n : nat) (s : AppState) : AppState :=
  match nth_error (toggling s) n with
  | Some st => setStatus st (setToggling (removeAt n (toggling s)) s)
  | None => s
  end.

(** The overlay: the screen it returns, in the order of its tests. *)
Inductive Screen :=
  | IntroScreen | LoadingScreen | GameOverScreen | ErrorScreen
  | ShopModal | PausedScreen | HudScreen.

Definition screen (s : AppState) : Screen :=
  match status s with
  | IDLE | READY => IntroScreen
  | LOADING => LoadingScreen
  | GAME_OVER => GameOverScreen
  | ERROR => ErrorScreen
  | _ =>
      if isShopOpen s then ShopModal
      else if AppStatus_eqb (status s) PAUSED then PausedScreen
      else HudScreen
  end.

(** The controls of the overlay that call back into [App]; the card of the
    item at position [card] of [storeItems]. *)
Inductive Control :=
  | StartButton | PauseButton | OpenShopButton | CloseShopButton | Card (card : nat).

Definition offers (sc : Screen) (c : Control) : bool :=
  match sc, c with
  | IntroScreen, StartButton => true
  | GameOverScreen, StartButton => true
  | ShopModal, CloseShopButton => true
  | ShopModal, Card _ => true
  | PausedScreen, PauseButton => true
  | PausedScreen, OpenShopButton => true
  | HudScreen, PauseButton => true
  | HudScreen, OpenShopButton => true
  | _, _ => false
  end.

(** What a call of a tick's callbacks does to [App]. *)
Definition signal (s : AppState) (e : Event) : AppState :=
  match e with
  | GameOver => handleGameOver s
  | CollectShard _ => setShop (handleCollectShard (shop s)) s
  end.

(** The events that are pickups, and whether a game over is among them. *)
Definition isPickup (e : Event) : bool :=
  match e with CollectShard _ => true | GameOver => false end.

Definition pickups (events : list Event) : Z :=
  Z.of_nat (List.length (filter isPickup events)).

Definition ended (events : list Event) : bool := existsb (fun e => negb (isPickup e)) events.

(** What happens to a session.  Every click is handled by the render of the
    state it finds. *)
Inductive Input :=
  | AnimationFrame (state : SystemState)   (* a frame, with the tracking state it reads *)
  | Press (c : Control)                    (* a click on a control of the overlay *)
  | Settled (ok : bool)                    (* the initialisation of a start ends *)
  | Toggled (n : nat).                     (* a waiting call of [togglePause] goes on *)

Section Canvas.

Variable Math_sin : Q -> Q.
Variable Math_cos : Q -> Q.
Variable random : nat -> Q.

(** The number of calls of [Math.random()] made before the shards of the
    canvas mounted under a key are created.  The audio code draws from the
    same source, so the session does not determine it. *)
Variable mountDraws : nat -> nat.

(** The props [App] passes to the canvas. *)
Definition frameOf (state : SystemState) (s : AppState) : Frame :=
  mkFrame (AppStatus_eqb (status s) PAUSED) state (App.activeCompanion (shop s)).

(** A frame of the mounted canvas and the callbacks it makes. *)
Definition frame (state : SystemState) (s : AppState) : AppState :=
  let '(w, events) := animate Math_sin Math_cos random (frameOf state s) (canvas s) in
  fold_left signal events (setCanvas w s).

(** [handleStart] up to its first [await]: a restart after a game over
    changes the key, which mounts a fresh canvas. *)
Definition handleStart (s : AppState) : AppState :=
  if AppStatus_eqb (status s) GAME_OVER then
    mkAppState LOADING (S (gameKey s)) (isShopOpen s) (shop s)
               (initialWorld random (mountDraws (S (gameKey s)))) (S (starting s))
               (hasAudio s) (toggling s)
  else
    mkAppState LOADING (gameKey s) (isShopOpen s) (shop s) (canvas s) (S (starting s))
               (hasAudio s) (toggling s).

(** The rest of [handleStart]: the [try] block has ended.  When it ends well
    the audio context exists; when it fails the context may or may not have
    been made, which nothing reads before a later start has ended well. *)
Definition settle (ok : bool) (s : AppState) : AppState :=
  match starting s with
  | O => s
  | S n =>
      mkAppState (if ok then RUNNING else ERROR) (gameKey s) (isShopOpen s) (shop s)
                 (canvas s) n (hasAudio s || ok) (toggling s)
  end.

Definition press (c : Control) (s : AppState) : AppState :=
  if offers (screen s) c then
    match c with
    | StartButton => handleStart s
    | PauseButton => togglePause s
    | OpenShopButton => setIsShopOpen true s
    | CloseShopButton => setIsShopOpen false s
    | Card card =>
        match nth_error (storeItems (shop s)) card with
        | Some item => setShop (click item (shop s)) s
        | None => s
        end
    end
  else s.

Definition step (s : AppState) (i : Input) : AppState :=
  match i with
  | AnimationFrame state => frame state s
  | Press c => press c s
  | Settled ok => settle ok s
  | Toggled n => toggled n s
  end.

Definition steps (inputs : list Input) (s : AppState) : AppState :=
  fold_left step inputs s.

(** The first render: [IDLE], key 0, the initial store, the first canvas, no
    audio context yet. *)
Definition initialApp : AppState :=
  mkAppState IDLE 0 false initialShop (initialWorld random (mountDraws 0)) 0 false [].

End Canvas.


Definition isFrame (i : Input) : bool :=
  match i with AnimationFrame _ => true | _ => false end.

Definition isPress (c : Control) (i : Input) : bool :=
  match i, c with
  | Press StartButton, StartButton => true
  | Press PauseButton, PauseButton => true
  | _, _ => false
  end.


Definition overLike (s0 s : AppState) : Prop :=
  status s = GAME_OVER /\ starting s = 0%nat /\ toggling s = [] /\
  shop s = shop s0 /\
  gameKey s = gameKey s0 /\ isShopOpen s = isShopOpen s0 /\
  playerPosition (canvas s) = playerPosition (canvas s0) /\
  shards (canvas s) = shards (canvas s0).

(** A running session with the player at a given place. *)
Definition runningAt (p : Vector3) : AppState :=
  mkAppState RUNNING 0 false initialShop (worldAt p []) 0 true [].

(** What holds of every state of a session. *)
Definition wellFormed (s : AppState) : Prop :=
  reachable (shop s) /\ status s <> READY /\
  List.length (shards (canvas s)) = 150%nat /\
  v3y (playerPosition (canvas s)) = 6%Q /\
  (status s = LOADING -> (0 < starting s)%nat) /\
  Forall (fun st => st = PAUSED \/ st = RUNNING) (toggling s).

End Session.

(** ** The shaders, remaining parts *)

Module Fx.
Import Shader Sim.

Open Scope Q_scope.

(** More GLSL built-ins. *)
Definition glsl_floor (x : Q) : Q := inject_Z (Qfloor x).
Definition fract (x : Q) : Q := x - glsl_floor x.
Definition mix (x y a : Q) : Q := x * (1 - a) + y * a.

Definition scaleColor (c : Color) (k : Q) : Color :=
  mkColor (cr c * k) (cg c * k) (cb c * k).

Definition mixColor (x y : Color) (a : Q) : Color :=
  mkColor (mix (cr x) (cr y) a) (mix (cg x) (cg y) a) (mix (cb x) (cb y) a).

(** A property of each of the three channels of the colours involved. *)
Definition eachChannel (P : (Color -> Q) -> Prop) : Prop := P cr /\ P cg /\ P cb.

(** A colour without a negative channel. *)
Definition nonnegColor (c : Color) : Prop := 0 <= cr c /\ 0 <= cg c /\ 0 <= cb c.

(** [x] lies between [a] and [b], whichever of the two is the larger. *)
Definition between (a b x : Q) : Prop := (a <= x /\ x <= b) \/ (b <= x /\ x <= a).

(** The side of the boundary plane is [GAME_OVER_RADIUS * 2] and its [uv]
    runs from 0 to 1 across it: a fragment at planar distance [r] from the
    centre of the plane has [distance(vUv, center) = r / (2 * radius)]. *)
Definition uvDistance (r : Q) : Q := r / (GAME_OVER_RADIUS * 2).

(** BOUNDARY_FRAGMENT_SHADER, [ring]. *)
Definition ring (dist : Q) : Q := smoothstep 0.48 0.5 dist * smoothstep 0.52 0.5 dist.

(** SUN_FRAGMENT_SHADER, the alpha of the fragment. *)
Definition sunAlpha (dist uOpacity : Q) : Q :=
  let glow := 1 - smoothstep 0.0 0.5 dist in
  let glow := sq glow in
  glow * uOpacity.

(** WEATHER_FRAGMENT_SHADER, the alpha of the fragment; [None] is [discard]. *)
Definition weatherAlpha (vAlpha r : Q) : option Q :=
  if Qlt_bool 0.5 r then None
  else
    let glow := 1 - smoothstep 0.4 0.5 r in
    Some (vAlpha * glow * 0.8).

(** GRASS_FRAGMENT_SHADER: [ndotl] is [dot(normal, lightDir)] and [dist] the
    planar distance of the fragment to the camera. *)
Definition fogColor : Color := mkColor 0.05 0.05 0.08.

Definition grassFragment (vColor : Color) (ndotl dist : Q) : Color :=
  let diff := glsl_max ndotl 0.0 in
  let light := scaleColor vColor (diff * 0.6 + 0.4) in
  let fogFactor := smoothstep 500.0 25000.0 dist in
  mixColor light fogColor fogFactor.

Section Gpu.

(** [sin] and [cos] of GLSL. *)
Variable sin : Q -> Q.
Variable cos : Q -> Q.

(** BOUNDARY_FRAGMENT_SHADER, the alpha of the fragment. *)
Definition boundaryAlpha (dist uTime : Q) : Q :=
  let glow := sin (uTime * 2.0) * 0.5 + 0.5 in
  ring dist * glow * 0.5.

(** GRASS_VERTEX_SHADER: [noise] and [smoothNoise]. *)
Definition noise (x y : Q) : Q :=
  fract (sin (x * 12.9898 + y * 78.233) * 43758.5453123).

Definition smoothNoise (px py : Q) : Q :=
  let ix := glsl_floor px in
  let iy := glsl_floor py in
  let fx := fract px in
  let fy := fract py in
  let fx := fx * fx * (3.0 - 2.0 * fx) in
  let fy := fy * fy * (3.0 - 2.0 * fy) in
  let a := noise ix iy in
  let b := noise (ix + 1.0) (iy + 0.0) in
  let c := noise (ix + 0.0) (iy + 1.0) in
  let d := noise (ix + 1.0) (iy + 1.0) in
  mix (mix a b fx) (mix c d fx) fy.

(** The wind animation. *)
Definition totalWind (worldPos : Vector3) (uTime uWindStrength heightPercent : Q) : Q :=
  let windWave := smoothNoise (v3x worldPos * 0.05 + uTime * 0.5)
                              (v3z worldPos * 0.05 + uTime * 0.5) in
  let windJitter := smoothNoise (v3x worldPos * 0.2 + uTime * 2.0)
                                (v3z worldPos * 0.2 + uTime * 2.0) in
  (windWave * 0.7 + windJitter * 0.3) * uWindStrength * heightPercent.

Definition windDisplace (worldPos : Vector3) (uTime uWindStrength heightPercent : Q)
  : Vector3 :=
  let totalWind := totalWind worldPos uTime uWindStrength heightPercent in
  mkV3 (v3x worldPos + totalWind * 2.0) (v3y worldPos) (v3z worldPos + totalWind * 1.0).

(** [vWorldPosition] of a vertex at height [posY] of its blade whose instance
    matrix puts it at [worldPos].  [dist] and [pushDir] stand for
    [distance(worldPos.xz, uPlayerPosition.xz)] and
    [normalize(worldPos.xyz - uPlayerPosition)], which the shader takes of the
    position the wind has moved. *)
Definition grassVertex (posY : Q) (worldPos : Vector3) (uTime uWindStrength : Q)
    (dist : Vector3 -> Q) (pushDir : Vector3 -> Vector3) : Vector3 :=
  let heightPercent := heightPercent posY in
  let blown := windDisplace worldPos uTime uWindStrength heightPercent in
  interactivePush (dist blown) (pushDir blown) heightPercent blown.

(** The colouring. *)
Definition grassColor (worldPos : Vector3) (uBaseColor uTipColor : Color)
    (heightPercent : Q) : Color :=
  let variation := smoothNoise (v3x worldPos * 0.1) (v3z worldPos * 0.1) in
  let mixedBase := mixColor uBaseColor (scaleColor uBaseColor 0.8) variation in
  let mixedTip := mixColor uTipColor (scaleColor uTipColor 1.2) variation in
  mixColor mixedBase mixedTip heightPercent.

(** WEATHER_VERTEX_SHADER: the position of a particle in the weather system,
    fall and sway. *)
Definition weatherVertex (position : Vector3) (aRandom uTime uSpeed uSway : Q) : Vector3 :=
  let y := weatherY (v3y position) uTime uSpeed aRandom in
  let swayVal := sin (uTime * uSway + aRandom * 10.0) in
  mkV3 (v3x position + swayVal * 5.0 * (0.5 + aRandom))
       y
       (v3z position + cos (uTime * uSway * 0.8 + aRandom * 12.0) * 5.0 * (0.5 + aRandom)).

End Gpu.

(** The attributes of a weather particle. *)
Record Particle := mkParticle { startPosition : Vector3; aRandom : Q }.

Section Setup.

Variable random : nat -> Q.

(** The particles of a fresh scene: 2000 of them, four draws each. *)
Definition initialWeather (k : nat) : list Particle * nat :=
  forLoop 0 2000
    (fun _ st =>
       let '(l, k) := st in
       ((l ++ [mkParticle (mkV3 ((random k - 0.5) * 400)
                                ((random (k + 1) - 0.5) * 200)
                                ((random (k + 2) - 0.5) * 400))
                          (random (k + 3))])%list,
        (k + 4)%nat))
    ([], k).

End Setup.

(** A particle as the set-up loop makes it. *)
Definition inBox (p : Particle) : Prop :=
  Qabs (v3x (startPosition p)) <= 200 /\ Qabs (v3y (startPosition p)) <= 100 /\
  Qabs (v3z (startPosition p)) <= 200 /\ 0 <= aRandom p /\ aRandom p < 1.

End Fx.

(** ** Ranges of the simulation *)

Module Envelope.
Import Sim.

Open Scope Q_scope.

Definition unitColor (c : Color) : Prop :=
  (0 <= cr c /\ cr c <= 1) /\ (0 <= cg c /\ cg c <= 1) /\ (0 <= cb c /\ cb c <= 1).

(** The ranges spanned by the initial values of the blender and its targets
    for the three emotions. *)
Definition inEnvelope (env : Environment) : Prop :=
  unitColor (uBaseColor env) /\ unitColor (uTipColor env) /\
  unitColor (sunLightColor env) /\ unitColor (color (currentWeather env)) /\
  unitColor (haloColor env) /\
  (6 <= speed (currentWeather env) /\ speed (currentWeather env) <= 20) /\
  (0.8 <= sway (currentWeather env) /\ sway (currentWeather env) <= 2) /\
  (2.5 <= size (currentWeather env) /\ size (currentWeather env) <= 5) /\
  (0 <= uOpacity env /\ uOpacity env <= 0.6).

(** A hand inside the image, within [reach] of the neutral size. *)
Definition handWithin (reach : Q) (f : Frame) : Prop :=
  Qabs (v2x (handPosition (state f))) <= 1 /\
  Qabs (handSize (state f) - NEUTRAL_SIZE) <= reach.

(** The number of unpaused frames, as a rational. *)
Definition ticks (frames : list Frame) : Q :=
  inject_Z (Z.of_nat (unpausedFrames frames)).

End Envelope.

(** ** App.tsx: the noise of the wind *)

Module Noise.

Open Scope Q_scope.

(** The state of the pink-noise filter of [initAudio]. *)
Record Pink := mkPink { b0 : Q; b1 : Q; b2 : Q; b3 : Q; b4 : Q; b5 : Q; b6 : Q }.

Definition silent : Pink := mkPink 0 0 0 0 0 0 0.

(** The body of the loop for one white sample: the new state and
    [output[i]]. *)
Definition pinkStep (white : Q) (s : Pink) : Pink * Q :=
  let b0 := 0.99886 * b0 s + white * 0.0555179 in
  let b1 := 0.99332 * b1 s + white * 0.0750759 in
  let b2 := 0.96900 * b2 s + white * 0.1538520 in
  let b3 := 0.86650 * b3 s + white * 0.3104856 in
  let b4 := 0.55000 * b4 s + white * 0.5329522 in
  let b5 := - 0.7616 * b5 s - white * 0.0168980 in
  let output := b0 + b1 + b2 + b3 + b4 + b5 + b6 s + white * 0.5362 in
  let output := output * 0.11 in
  (mkPink b0 b1 b2 b3 b4 b5 (white * 0.115926), output).

Section Fill.

Variable random : nat -> Q.

(** [for (let i = 0; i < bufferSize; i++)]: the state, the samples written
    so far and the number of random draws made. *)
Definition fill (bufferSize : nat) (k : nat) : Pink * list Q * nat :=
  forLoop 0 bufferSize
    (fun _ st =>
       let '(s, output, k) := st in
       let white := random k * 2 - 1 in
       let '(s', sample) := pinkStep white s in
       (s', (output ++ [sample])%list, (k + 1)%nat))
    (silent, [], k).

End Fill.

(** The bounds the filter state keeps. *)
Definition bounded (s : Pink) : Prop :=
  Qabs (b0 s) <= 49 /\ Qabs (b1 s) <= 12 /\ Qabs (b2 s) <= 5 /\
  Qabs (b3 s) <= 2.4 /\ Qabs (b4 s) <= 1.2 /\ Qabs (b5 s) <= 0.08 /\
  Qabs (b6 s) <= 0.116.

End Noise.

(* ================================================================== *)
(** * Properties *)
(* ================================================================== *)

(** ** The shop: one active item per type *)

Module AppTheory.
Import App.

Open Scope string_scope.

Lemma ItemType_eqb_eq (a b : ItemType) : ItemType_eqb a b = true <-> a = b.
Proof. destruct a, b; simpl; split; congruence. Qed.

Lemma ItemType_eqb_refl (a : ItemType) : ItemType_eqb a a = true.
Proof. now destruct a. Qed.

(** The two branches of [handleEquip]'s callback are one test on the type. *)
Lemma equipOne_spec (item i : StoreItem) :
  equipOne item i =
  if ItemType_eqb (type i) (type item) then set_active (id i =? id item) i else i.
Proof. unfold equipOne. destruct (type item), (type i); reflexivity. Qed.

Lemma equipOne_id (item i : StoreItem) : id (equipOne item i) = id i.
Proof. rewrite equipOne_spec. now destruct (ItemType_eqb _ _). Qed.

Lemma equipOne_type (item i : StoreItem) : type (equipOne item i) = type i.
Proof. rewrite equipOne_spec. now destruct (ItemType_eqb _ _). Qed.

Lemma map_id_equip (item : StoreItem) (l : list StoreItem) :
  map id (handleEquipItems item l) = map id l.
Proof.
  unfold handleEquipItems. destruct (negb _); [reflexivity|].
  rewrite map_map. apply map_ext. intros. apply equipOne_id.
Qed.

Lemma map_id_purchase (r : Shop) (item : StoreItem) (s : Shop) :
  map id (storeItems (handlePurchase r item s)) = map id (storeItems s).
Proof.
  unfold handlePurchase. destruct (_ && _); [simpl|reflexivity].
  rewrite map_map. apply map_ext. intros i. now destruct (id i =? id item).
Qed.

Lemma length_filter_map (f : StoreItem -> bool) (g : StoreItem -> StoreItem)
      (l : list StoreItem) :
  (forall a, f (g a) = f a) ->
  List.length (filter f (map g l)) = List.length (filter f l).
Proof.
  intros E. induction l as [|a l IH]; [reflexivity|].
  simpl. rewrite E. destruct (f a); simpl; now rewrite IH.
Qed.

Lemma countActive_purchase (t : ItemType) (r : Shop) (item : StoreItem) (s : Shop) :
  countActive t (storeItems (handlePurchase r item s)) = countActive t (storeItems s).
Proof.
  unfold handlePurchase. destruct (_ && _); [simpl|reflexivity].
  unfold countActive. apply length_filter_map.
  intros a. now destruct (id a =? id item).
Qed.

(** Items whose id differs from the equipped one end up inactive or are of
    another type: none of them counts for the equipped type. *)
Lemma countActive_equip_others (item : StoreItem) (l : list StoreItem) :
  ~ In (id item) (map id l) ->
  countActive (type item) (map (equipOne item) l) = 0%nat.
Proof.
  unfold countActive. induction l as [|a l IH]; intros Hn; [reflexivity|].
  simpl in *. rewrite equipOne_spec.
  assert (Ha : (id a =? id item) = false).
  { apply String.eqb_neq. intros E. apply Hn. now left. }
  rewrite Ha.
  destruct (ItemType_eqb (type a) (type item)) eqn:Et; simpl.
  - rewrite Et. simpl. apply IH. tauto.
  - rewrite Et. simpl. apply IH. tauto.
Qed.

Lemma countActive_equip_same (item : StoreItem) (l : list StoreItem) :
  NoDup (map id l) -> In item l ->
  countActive (type item) (map (equipOne item) l) = 1%nat.
Proof.
  induction l as [|a l IH]; intros Hnd Hin; [contradiction|].
  simpl in Hnd. inversion Hnd as [|? ? Hna Hnd']; subst.
  destruct Hin as [->|Hin].
  - pose proof (countActive_equip_others item l Hna) as H0.
    unfold countActive in *. simpl. rewrite equipOne_spec, ItemType_eqb_refl.
    rewrite String.eqb_refl. simpl. rewrite ItemType_eqb_refl. simpl.
    now rewrite H0.
  - assert (Ha : (id a =? id item) = false).
    { apply String.eqb_neq. intros E. apply Hna. rewrite E. now apply in_map. }
    specialize (IH Hnd' Hin). unfold countActive in *. simpl.
    rewrite equipOne_spec, Ha.
    destruct (ItemType_eqb (type a) (type item)) eqn:Et; simpl; rewrite Et; simpl; exact IH.
Qed.

Lemma countActive_equip_other (t : ItemType) (item : StoreItem) (l : list StoreItem) :
  t <> type item ->
  countActive t (map (equipOne item) l) = countActive t l.
Proof.
  intros Ht. unfold countActive. induction l as [|a l IH]; [reflexivity|].
  simpl. rewrite equipOne_spec.
  destruct (ItemType_eqb (type a) (type item)) eqn:Et.
  - apply ItemType_eqb_eq in Et.
    assert (Ef : ItemType_eqb (type a) t = false).
    { destruct (ItemType_eqb (type a) t) eqn:E; [|reflexivity].
      apply ItemType_eqb_eq in E. congruence. }
    simpl. rewrite Ef. simpl. exact IH.
  - destruct (_ && _); simpl; now rewrite IH.
Qed.

(** A single match of the filter is what [find] returns. *)
Lemma find_of_count (f : StoreItem -> bool) (l : list StoreItem) :
  List.length (filter f l) = 1%nat ->
  exists i, find f l = Some i /\ In i l /\ f i = true.
Proof.
  induction l as [|a l IH]; simpl; [discriminate|].
  destruct (f a) eqn:Ef; intros H.
  - exists a. auto.
  - destruct (IH H) as (i & ? & ? & ?). exists i. auto.
Qed.

Lemma initial_ids_nodup : NoDup (map id INITIAL_STORE_ITEMS).
Proof.
  simpl. repeat (constructor; [simpl; intuition discriminate|]). constructor.
Qed.

Lemma initial_ids_nonempty (i : string) :
  In i (map id INITIAL_STORE_ITEMS) -> (i =? "") = false.
Proof. simpl. intuition (subst; reflexivity). Qed.

Lemma shopInv_equip (item : StoreItem) (l : list StoreItem) :
  shopInv l -> In item l -> shopInv (handleEquipItems item l).
Proof.
  intros (Hid & Hs & Hc) Hin. split; [now rewrite map_id_equip|].
  unfold handleEquipItems. destruct (negb (unlocked item)); [now split|].
  assert (Hnd : NoDup (map id l)) by (rewrite Hid; apply initial_ids_nodup).
  pose proof (countActive_equip_same item l Hnd Hin) as Hsame.
  destruct (type item) eqn:Et.
  - split; [exact Hsame|]. rewrite countActive_equip_other; [exact Hc|]. congruence.
  - split; [|exact Hsame]. rewrite countActive_equip_other; [exact Hs|]. congruence.
Qed.

Lemma reachable_inv (s : Shop) : reachable s -> shopInv (storeItems s).
Proof.
  induction 1 as [|s _ IH|s item _ IH Hin|s item _ IH Hin].
  - repeat split.
  - exact IH.
  - destruct IH as (Hid & Hs & Hc). repeat split.
    + now rewrite map_id_purchase.
    + now rewrite countActive_purchase.
    + now rewrite countActive_purchase.
  - simpl. now apply shopInv_equip.
Qed.

Lemma selector_defined (t : ItemType) (fallback : string) (l : list StoreItem) :
  map id l = map id INITIAL_STORE_ITEMS -> countActive t l = 1%nat ->
  exists i, findActive t l = Some i /\ In i l /\ type i = t /\ active i = true /\
            idOr (findActive t l) fallback = id i.
Proof.
  intros Hid Hc. destruct (find_of_count _ _ Hc) as (i & Hf & Hin & Hp).
  apply andb_prop in Hp. destruct Hp as [Ht Ha]. apply ItemType_eqb_eq in Ht.
  exists i. unfold findActive. rewrite Hf. repeat split; auto.
  simpl. rewrite initial_ids_nonempty; [reflexivity|].
  rewrite <- Hid. now apply in_map.
Qed.

(** Within a list of distinct ids, an id names one item. *)
Lemma id_names_item (l : list StoreItem) (i item : StoreItem) :
  NoDup (map id l) -> In i l -> In item l -> id i = id item -> i = item.
Proof.
  induction l as [|a l IH]; simpl; [contradiction|].
  intros Hnd Hi Hitem E. inversion Hnd as [|? ? Hna Hnd']; subst.
  destruct Hi as [->|Hi], Hitem as [->|Hitem]; auto.
  - exfalso. apply Hna. rewrite E. now apply in_map.
  - exfalso. apply Hna. rewrite <- E. now apply in_map.
Qed.

(** C10.  In every reachable shop state exactly one skin and exactly one
    companion are active, so [activeSkin] and [activeCompanion] are the ids of
    items the [find] calls do return; and equipping an unlocked item of the
    store rewrites the items of its type to "active iff it is that item" and
    keeps the items of the other type as they are. *)
Theorem shop_one_active_per_type (s : Shop) :
  reachable s ->
  countActive skin (storeItems s) = 1%nat /\
  countActive companion (storeItems s) = 1%nat /\
  (exists i, findActive skin (storeItems s) = Some i /\ In i (storeItems s) /\
             type i = skin /\ active i = true /\ activeSkin s = id i) /\
  (exists i, findActive companion (storeItems s) = Some i /\ In i (storeItems s) /\
             type i = companion /\ active i = true /\ activeCompanion s = id i) /\
  forall item, In item (storeItems s) -> unlocked item = true ->
    storeItems (handleEquip item s) =
      map (fun i => if ItemType_eqb (type i) (type item)
                    then set_active (id i =? id item) i else i) (storeItems s) /\
    (forall i, In i (storeItems s) -> (id i =? id item) = true <-> i = item) /\
    In (set_active true item) (storeItems (handleEquip item s)) /\
    reachable (handleEquip item s).
Proof.
  intros Hr. pose proof (reachable_inv s Hr) as (Hid & Hs & Hc).
  assert (Hnd : NoDup (map id (storeItems s))) by (rewrite Hid; apply initial_ids_nodup).
  split; [exact Hs|]. split; [exact Hc|].
  split; [apply selector_defined; assumption|].
  split; [apply selector_defined; assumption|].
  intros item Hin Hu.
  assert (Heq : storeItems (handleEquip item s) =
      map (fun i => if ItemType_eqb (type i) (type item)
                    then set_active (id i =? id item) i else i) (storeItems s)).
  { simpl. unfold handleEquipItems. rewrite Hu. simpl.
    apply map_ext. intros i. apply equipOne_spec. }
  split; [exact Heq|]. split; [|split].
  - intros i Hi. rewrite String.eqb_eq. split.
    + intros E. now apply (id_names_item (storeItems s) i item Hnd).
    + now intros ->.
  - rewrite Heq. apply in_map_iff. exists item. split; [|exact Hin].
    now rewrite ItemType_eqb_refl, String.eqb_refl.
  - now apply reach_equip.
Qed.

(** The statement above at the initial store. *)
Lemma shop_one_active_per_type_initial :
  reachable initialShop /\
  countActive skin INITIAL_STORE_ITEMS = 1%nat /\
  countActive companion INITIAL_STORE_ITEMS = 1%nat.
Proof.
  split; [exact reach_init|].
  destruct (shop_one_active_per_type initialShop reach_init) as (Hs & Hc & _).
  split; [exact Hs | exact Hc].
Defined.

(** A session: one shard is collected, the cube is bought and equipped. *)
Example equip_cube_after_purchase :
  let cube := mkItem "skin_cube" "量子立方" skin 50 false false "来自数字维度的几何体。" in
  let bought := handlePurchase (handleCollectShard initialShop) cube
                               (handleCollectShard initialShop) in
  let equipped := handleEquip (set_unlocked cube) bought in
  xp bought = 0%Z /\
  activeSkin bought = "skin_default" /\
  activeSkin equipped = "skin_cube" /\
  activeCompanion equipped = "comp_butterfly" /\
  map active (storeItems equipped) = [false; true; false; true; false; false].
Proof. repeat split. Qed.

(** A locked item cannot be equipped. *)
Example equip_locked_is_ignored :
  handleEquip (mkItem "skin_tetra" "以太棱镜" skin 120 false false "能够折射情绪的古代遗物。")
              initialShop = initialShop.
Proof. reflexivity. Qed.

End AppTheory.

(** ** Cosmetics: equipping what is equipped, rebuilding what is built *)

Module CosmeticTheory.
Import App Scene AppTheory.

Open Scope string_scope.

Lemma set_active_same (i : StoreItem) : set_active (active i) i = i.
Proof. now destruct i. Qed.

Lemma equipOne_idempotent (item i : StoreItem) :
  equipOne item (equipOne item i) = equipOne item i.
Proof.
  rewrite (equipOne_spec item (equipOne item i)), equipOne_id, equipOne_type.
  rewrite (equipOne_spec item i).
  destruct (ItemType_eqb (type i) (type item)); reflexivity.
Qed.

Lemma handleEquip_idempotent (item : StoreItem) (s : Shop) :
  handleEquip item (handleEquip item s) = handleEquip item s.
Proof.
  unfold handleEquip, handleEquipItems. simpl.
  destruct (negb (unlocked item)); [reflexivity|].
  f_equal. rewrite map_map. apply map_ext. intros i. apply equipOne_idempotent.
Qed.

(** With one active item of a type in the list, an active item of that type
    is that one. *)
Lemma active_unique (t : ItemType) (l : list StoreItem) (i j : StoreItem) :
  countActive t l = 1%nat ->
  In i l -> type i = t -> active i = true ->
  In j l -> type j = t -> active j = true -> i = j.
Proof.
  unfold countActive. induction l as [|a l IH]; [contradiction|].
  intros Hc Hi Hti Hai Hj Htj Haj. simpl in Hc.
  assert (Hnone : forall x, List.length (filter
                    (fun i => ItemType_eqb (type i) t && active i) l) = 0%nat ->
                    In x l -> type x = t -> active x = true -> False).
  { intros x H0 Hx Htx Hax. apply length_zero_iff_nil in H0.
    assert (Hin : In x (filter (fun i => ItemType_eqb (type i) t && active i) l)).
    { apply filter_In. split; [exact Hx|].
      rewrite Htx, ItemType_eqb_refl, Hax. reflexivity. }
    rewrite H0 in Hin. contradiction. }
  destruct (ItemType_eqb (type a) t && active a) eqn:Ea.
  - simpl in Hc. injection Hc as Hc.
    destruct Hi as [<-|Hi], Hj as [<-|Hj]; auto; exfalso; eapply Hnone; eauto.
  - assert (Hna : forall x, a = x -> type x = t -> active x = true -> False).
    { intros x <- Htx Hax. rewrite Htx, ItemType_eqb_refl, Hax in Ea. discriminate. }
    destruct Hi as [Hi|Hi]; [exfalso; eapply Hna; eauto|].
    destruct Hj as [Hj|Hj]; [exfalso; eapply Hna; eauto|].
    now apply IH.
Qed.

(** Equipping the item that is active already rewrites nothing. *)
Lemma handleEquip_active_noop (s : Shop) (item : StoreItem) :
  reachable s -> In item (storeItems s) -> active item = true ->
  handleEquip item s = s.
Proof.
  intros Hr Hin Hact. destruct (reachable_inv s Hr) as (Hid & Hs & Hc).
  assert (Hnd : NoDup (map id (storeItems s))) by (rewrite Hid; apply initial_ids_nodup).
  assert (Hcount : countActive (type item) (storeItems s) = 1%nat)
    by (destruct (type item); assumption).
  destruct s as [x l]. unfold handleEquip, handleEquipItems. simpl in *.
  f_equal. destruct (negb (unlocked item)); [reflexivity|].
  rewrite <- (map_id l) at 2. apply map_ext_in. intros i Hi.
  rewrite equipOne_spec.
  destruct (ItemType_eqb (type i) (type item)) eqn:Et; [|reflexivity].
  apply ItemType_eqb_eq in Et.
  assert (Ha : active i = (id i =? id item)).
  { destruct (id i =? id item) eqn:E.
    - apply String.eqb_eq in E.
      now rewrite (id_names_item l i item Hnd Hi Hin E).
    - destruct (active i) eqn:Hai; [|reflexivity].
      rewrite (active_unique (type item) l i item Hcount Hi Et Hai Hin eq_refl Hact) in E.
      now rewrite String.eqb_refl in E. }
  rewrite <- Ha. apply set_active_same.
Qed.

(** *** The two groups *)

Lemma playerMesh_isMesh (skin : string) : isMesh (playerMesh skin) = true.
Proof.
  unfold playerMesh. destruct (skin =? "skin_cube"); [reflexivity|].
  destruct (skin =? "skin_tetra"); reflexivity.
Qed.

(** A list without meshes followed by one mesh: [find] returns that mesh and
    removing it gives the list back. *)
Lemma find_mesh_last (l : list Object3D) (m : Object3D) :
  countMeshes l = 0%nat -> isMesh m = true ->
  find isMesh (l ++ [m]) = Some m /\ removeFirst isMesh (l ++ [m]) = l.
Proof.
  unfold countMeshes. intros H0 Hm. induction l as [|a l IH]; simpl.
  - now rewrite Hm.
  - simpl in H0. destruct (isMesh a); [discriminate|].
    destruct (IH H0) as [-> ->]. now split.
Qed.

(** Taking the first mesh out of a group that has at most one leaves none. *)
Lemma removeFirst_no_mesh (l : list Object3D) :
  (countMeshes l <= 1)%nat ->
  countMeshes (match find isMesh l with
               | Some _ => removeFirst isMesh l
               | None => l
               end) = 0%nat.
Proof.
  unfold countMeshes. induction l as [|a l IH]; simpl; [reflexivity|].
  destruct (isMesh a) eqn:Ea; simpl; intros H.
  - lia.
  - specialize (IH H). destruct (find isMesh l); simpl; now rewrite Ea.
Qed.

Lemma updatePlayerMesh_one_mesh (skin : string) (l : list Object3D) :
  (countMeshes l <= 1)%nat -> countMeshes (updatePlayerMesh skin l) = 1%nat.
Proof.
  intros H. pose proof (removeFirst_no_mesh l H) as H0.
  unfold updatePlayerMesh, countMeshes in *.
  rewrite filter_app, length_app, H0. simpl. now rewrite playerMesh_isMesh.
Qed.

Lemma updatePlayerMesh_idempotent (skin : string) (l : list Object3D) :
  (countMeshes l <= 1)%nat ->
  updatePlayerMesh skin (updatePlayerMesh skin l) = updatePlayerMesh skin l.
Proof.
  intros H. pose proof (removeFirst_no_mesh l H) as H0.
  unfold updatePlayerMesh at 2 3.
  set (rest := match find isMesh l with
               | Some _ => removeFirst isMesh l
               | None => l
               end) in *.
  unfold updatePlayerMesh.
  destruct (find_mesh_last rest (playerMesh skin) H0 (playerMesh_isMesh skin))
    as [-> ->].
  reflexivity.
Qed.

Lemma removeAll_nil (l : list Object3D) : removeAll l = [].
Proof. induction l; simpl; auto. Qed.

Section WithPI.

Variable Math_PI : Q.

Lemma updateCompanionMesh_parts (type : string) (l : list Object3D) :
  updateCompanionMesh Math_PI type l = companionParts Math_PI type.
Proof. unfold updateCompanionMesh. now rewrite removeAll_nil. Qed.

(** What a mounted canvas holds: the player light and the mesh of the
    current skin, and the parts of the current companion. *)
Lemma cosmetics_invariant (c : Cosmetics) :
  cosmeticsReachable Math_PI c ->
  playerChildren c = [playerLight; playerMesh (activeSkinRef c)] /\
  companionChildren c = companionParts Math_PI (activeCompanionRef c).
Proof.
  induction 1 as [skin comp|skin comp c _ [IHp IHc]].
  - split; reflexivity.
  - unfold cosmeticEffect. destruct (_ && _); [now split|]. simpl.
    split; [|apply updateCompanionMesh_parts].
    rewrite IHp. unfold updatePlayerMesh. simpl.
    now rewrite playerMesh_isMesh.
Qed.

(** C9.  Equipping an item twice is the same as equipping it once; equipping
    the item that is already active leaves the store, and with it
    [activeSkin] and [activeCompanion], as they are, so that the effect of the
    canvas, whose references agree with these props, keeps the scene
    untouched.  Were the subtrees rebuilt all the same, as they are when the
    other selector changes, the rebuilt children are the ones replaced: the
    player group holds its light and exactly one mesh, the companion group
    exactly the parts of its variant. *)
Theorem reselecting_cosmetic_changes_nothing
    (s : Shop) (item : StoreItem) (c : Cosmetics) :
  reachable s -> In item (storeItems s) -> active item = true ->
  cosmeticsReachable Math_PI c ->
  activeSkinRef c = activeSkin s -> activeCompanionRef c = activeCompanion s ->
  (forall (item' : StoreItem) (s' : Shop),
     handleEquip item' (handleEquip item' s') = handleEquip item' s') /\
  handleEquip item s = s /\
  activeSkin (handleEquip item s) = activeSkin s /\
  activeCompanion (handleEquip item s) = activeCompanion s /\
  cosmeticEffect Math_PI (activeSkin (handleEquip item s))
                 (activeCompanion (handleEquip item s)) c = c /\
  updatePlayerMesh (activeSkinRef c) (playerChildren c) = playerChildren c /\
  updateCompanionMesh Math_PI (activeCompanionRef c) (companionChildren c)
    = companionChildren c /\
  countMeshes (playerChildren c) = 1%nat /\
  playerChildren c = [playerLight; playerMesh (activeSkinRef c)] /\
  companionChildren c = companionParts Math_PI (activeCompanionRef c) /\
  (forall skin comp : string,
     cosmeticEffect Math_PI skin comp (cosmeticEffect Math_PI skin comp c)
     = cosmeticEffect Math_PI skin comp c).
Proof.
  intros Hr Hin Hact Hc Hskin Hcomp.
  pose proof (handleEquip_active_noop s item Hr Hin Hact) as Hnoop.
  destruct (cosmetics_invariant c Hc) as [Hp Hq].
  split; [exact handleEquip_idempotent|]. split; [exact Hnoop|].
  rewrite Hnoop. split; [reflexivity|]. split; [reflexivity|].
  split.
  { unfold cosmeticEffect. now rewrite <- Hskin, <- Hcomp, !String.eqb_refl. }
  split.
  { rewrite Hp. unfold updatePlayerMesh. simpl. now rewrite playerMesh_isMesh. }
  split; [rewrite updateCompanionMesh_parts; now rewrite Hq|].
  split; [rewrite Hp; unfold countMeshes; simpl; now rewrite playerMesh_isMesh|].
  split; [exact Hp|]. split; [exact Hq|].
  intros skin comp. unfold cosmeticEffect at 2 3.
  destruct ((skin =? activeSkinRef c) && (comp =? activeCompanionRef c)) eqn:E.
  - unfold cosmeticEffect. now rewrite E.
  - unfold cosmeticEffect. simpl. now rewrite !String.eqb_refl.
Qed.

End WithPI.

(** The statement above for the default sphere, re-selected in the initial
    store, with a freshly mounted canvas. *)
Lemma reselecting_default_skin :
  handleEquip (mkItem "skin_default" "光之球" skin 0 true true "最纯粹的光芒形态。")
              initialShop = initialShop /\
  countMeshes (playerChildren (mountCosmetics 3.14159 "skin_default" "comp_butterfly")) = 1%nat.
Proof.
  destruct (reselecting_cosmetic_changes_nothing 3.14159 initialShop
              (mkItem "skin_default" "光之球" skin 0 true true "最纯粹的光芒形态。")
              (mountCosmetics 3.14159 "skin_default" "comp_butterfly")
              reach_init (or_introl eq_refl) eq_refl
              (reach_mount 3.14159 "skin_default" "comp_butterfly") eq_refl eq_refl)
    as (_ & H1 & _ & _ & _ & _ & _ & H2 & _).
  split; [exact H1 | exact H2].
Defined.

(** Switching the companion replaces the three butterfly parts by the two
    firefly parts, and rebuilds the player mesh as it was. *)
Example switch_to_firefly :
  let c := cosmeticEffect 3.14159 "skin_default" "comp_firefly"
             (mountCosmetics 3.14159 "skin_default" "comp_butterfly") in
  List.length (companionChildren (mountCosmetics 3.14159 "skin_default" "comp_butterfly"))
    = 3%nat /\
  List.length (companionChildren c) = 2%nat /\
  playerChildren c = [playerLight; playerMesh "skin_default"].
Proof. repeat split. Qed.

End CosmeticTheory.

(** ** Exponential smoothing on a number *)

Section Smoothing.

Open Scope Q_scope.

Lemma Qlt_bool_true (a b : Q) : Qlt_bool a b = true <-> a < b.
Proof.
  unfold Qlt_bool. rewrite negb_true_iff. split.
  - intros H. apply Qnot_le_lt. intros L. apply Qle_bool_iff in L. congruence.
  - intros H. destruct (Qle_bool b a) eqn:E; [|reflexivity].
    apply Qle_bool_iff in E. lra.
Qed.

Lemma Qlt_bool_false (a b : Q) : Qlt_bool a b = false <-> b <= a.
Proof.
  unfold Qlt_bool. rewrite negb_false_iff. apply Qle_bool_iff.
Qed.

#[local] Instance lerp1_proper : Proper (Qeq ==> Qeq ==> Qeq ==> Qeq) lerp1.
Proof. intros a a' Ha b b' Hb c c' Hc. unfold lerp1. now rewrite Ha, Hb, Hc. Qed.

#[local] Instance lerpAfter_proper (n : nat) :
  Proper (Qeq ==> Qeq ==> Qeq ==> Qeq) (lerpAfter n).
Proof.
  induction n as [|n IH]; intros a a' Ha b b' Hb c c' Hc; simpl; [exact Ha|].
  apply lerp1_proper; [apply IH; assumption | assumption | assumption].
Qed.

(** One step multiplies the gap to the target by [1 - alpha]. *)
Lemma lerp1_gap (cur target alpha : Q) :
  target - lerp1 cur target alpha == (1 - alpha) * (target - cur).
Proof. unfold lerp1. ring. Qed.

(** No overshoot: a step from below stays below and does not go back, and
    symmetrically from above. *)
Lemma lerp1_below (cur target alpha : Q) :
  0 <= alpha <= 1 -> cur <= target ->
  cur <= lerp1 cur target alpha /\ lerp1 cur target alpha <= target.
Proof. intros [H0 H1] Hc. unfold lerp1. split; nra. Qed.

Lemma lerp1_above (cur target alpha : Q) :
  0 <= alpha <= 1 -> target <= cur ->
  target <= lerp1 cur target alpha /\ lerp1 cur target alpha <= cur.
Proof. intros [H0 H1] Hc. unfold lerp1. split; nra. Qed.

Lemma lerpAfter_below (n : nat) (cur target alpha : Q) :
  0 <= alpha <= 1 -> cur <= target ->
  lerpAfter n cur target alpha <= lerpAfter (S n) cur target alpha /\
  lerpAfter (S n) cur target alpha <= target.
Proof.
  intros Ha Hc.
  assert (Hn : forall m, lerpAfter m cur target alpha <= target).
  { induction m as [|m IH]; cbn [lerpAfter]; [exact Hc|]. now apply lerp1_below. }
  cbn [lerpAfter]. apply lerp1_below; auto.
Qed.

Lemma lerpAfter_above (n : nat) (cur target alpha : Q) :
  0 <= alpha <= 1 -> target <= cur ->
  target <= lerpAfter (S n) cur target alpha /\
  lerpAfter (S n) cur target alpha <= lerpAfter n cur target alpha.
Proof.
  intros Ha Hc.
  assert (Hn : forall m, target <= lerpAfter m cur target alpha).
  { induction m as [|m IH]; cbn [lerpAfter]; [exact Hc|]. now apply lerp1_above. }
  cbn [lerpAfter]. apply lerp1_above; auto.
Qed.

(** The gap to the target never grows. *)
Lemma lerpAfter_gap_le (n : nat) (cur target alpha : Q) :
  0 <= alpha <= 1 ->
  Qabs (target - lerpAfter (S n) cur target alpha) <=
  Qabs (target - lerpAfter n cur target alpha).
Proof.
  intros [H0 H1]. cbn [lerpAfter]. rewrite lerp1_gap, Qabs_Qmult.
  rewrite (Qabs_pos (1 - alpha)) by lra.
  pose proof (Qabs_nonneg (target - lerpAfter n cur target alpha)). nra.
Qed.

(** Bernoulli's bound on the gap after [n] steps. *)
Lemma lerpAfter_gap_bound (n : nat) (cur target alpha : Q) :
  0 <= alpha <= 1 ->
  Qabs (target - lerpAfter n cur target alpha) * (1 + inject_Z (Z.of_nat n) * alpha)
  <= Qabs (target - cur).
Proof.
  intros [H0 H1]. induction n as [|n IH].
  - simpl. ring_simplify. apply Qle_refl.
  - cbn [lerpAfter]. rewrite lerp1_gap, Qabs_Qmult.
    rewrite (Qabs_pos (1 - alpha)) by lra.
    rewrite Nat2Z.inj_succ, <- Z.add_1_r, inject_Z_plus.
    set (g := Qabs (target - lerpAfter n cur target alpha)) in *.
    set (m := inject_Z (Z.of_nat n)) in *.
    assert (Hg : 0 <= g) by apply Qabs_nonneg.
    assert (Hm : 0 <= m).
    { unfold m. change 0 with (inject_Z 0). rewrite <- Zle_Qle. lia. }
    change (inject_Z 1) with 1.
    assert (E : (1 - alpha) * g * (1 + (m + 1) * alpha)
                == g * (1 + m * alpha) - g * (alpha * alpha * (m + 1))) by ring.
    rewrite E.
    assert (0 <= g * (alpha * alpha * (m + 1))).
    { apply Qmult_le_0_compat; [exact Hg|].
      apply Qmult_le_0_compat; [|lra]. apply Qmult_le_0_compat; lra. }
    lra.
Qed.

(** With a positive rate the gap falls below every positive bound. *)
Lemma lerpAfter_converges (cur target alpha eps : Q) :
  0 < alpha -> alpha <= 1 -> 0 < eps ->
  exists N : nat, forall m : nat, (N <= m)%nat ->
    Qabs (target - lerpAfter m cur target alpha) < eps.
Proof.
  intros H0 H1 He.
  set (g0 := Qabs (target - cur)).
  assert (Hg0 : 0 <= g0) by apply Qabs_nonneg.
  set (b := g0 / (eps * alpha)).
  assert (Hea : 0 < eps * alpha) by (apply Qmult_lt_0_compat; assumption).
  assert (Hb : 0 <= b).
  { unfold b. apply Qle_shift_div_l; [exact Hea|]. lra. }
  exists (Z.to_nat (Qceiling b)). intros m Hm.
  pose proof (lerpAfter_gap_bound m cur target alpha (conj (Qlt_le_weak _ _ H0) H1)) as Hbd.
  fold g0 in Hbd.
  set (g := Qabs (target - lerpAfter m cur target alpha)) in *.
  assert (Hg : 0 <= g) by apply Qabs_nonneg.
  assert (Hmq : b <= inject_Z (Z.of_nat m)).
  { apply Qle_trans with (inject_Z (Qceiling b)); [apply Qle_ceiling|].
    rewrite <- Zle_Qle. lia. }
  set (mq := inject_Z (Z.of_nat m)) in *.
  assert (Hbe : g0 == b * (eps * alpha)).
  { unfold b. field. lra. }
  assert (Hmul : b * (eps * alpha) <= mq * (eps * alpha)).
  { apply Qmult_le_compat_r; lra. }
  destruct (Qlt_le_dec g eps) as [Hlt|Hge]; [exact Hlt|exfalso].
  assert (eps * (1 + mq * alpha) <= g * (1 + mq * alpha)).
  { apply Qmult_le_compat_r; [exact Hge|].
    assert (0 <= mq * alpha) by (apply Qmult_le_0_compat; lra). lra. }
  assert (E1 : eps * (1 + mq * alpha) == eps + mq * (eps * alpha)) by ring.
  lra.
Qed.

End Smoothing.

(** ** The animation loop *)

Module SimTheory.
Import Sim.

Open Scope Q_scope.

(** *** Depth speed and the dead zone *)

(** C2, the claim as stated fails: no constant makes the depth speed that
    constant times the signed excess beyond the dead zone.  Hand sizes [0.15]
    and [0.16] have excess [0.01] and [0.02] and speeds [-0.75] and [-1]. *)
Lemma speedZ_not_proportional_to_excess :
  ~ exists c : Q, forall state : SystemState,
      SIZE_DEADZONE < Qabs (handSize state - NEUTRAL_SIZE) ->
      speedZ state == c * specSignedExcess state.
Proof.
  intros [c H].
  pose proof (H (handState 0 0.15)) as H1.
  pose proof (H (handState 0 0.16)) as H2.
  assert (E1 : speedZ (handState 0 0.15) == - (3 # 4)) by reflexivity.
  assert (E2 : speedZ (handState 0 0.16) == - 1) by reflexivity.
  assert (X1 : specSignedExcess (handState 0 0.15) == 1 # 100) by reflexivity.
  assert (X2 : specSignedExcess (handState 0 0.16) == 2 # 100) by reflexivity.
  rewrite E1, X1 in H1. rewrite E2, X2 in H2.
  assert (D1 : SIZE_DEADZONE < Qabs (handSize (handState 0 0.15) - NEUTRAL_SIZE))
    by reflexivity.
  assert (D2 : SIZE_DEADZONE < Qabs (handSize (handState 0 0.16) - NEUTRAL_SIZE))
    by reflexivity.
  specialize (H1 D1). specialize (H2 D2). lra.
Qed.

(** C2, as the code has it: the depth speed is 0 inside the dead zone (its
    edge included); outside it is [-25] times the whole difference between
    hand size and neutral size, so a larger-than-neutral hand gives a negative
    speed along Z, which is forward, a smaller one a positive speed, and the
    speed is already beyond [0.5] in magnitude right outside the dead zone. *)
Theorem speedZ_deadzone_then_full_difference (state : SystemState) :
  (Qabs (handSize state - NEUTRAL_SIZE) <= SIZE_DEADZONE -> speedZ state == 0) /\
  (SIZE_DEADZONE < Qabs (handSize state - NEUTRAL_SIZE) ->
     speedZ state == - DEPTH_GAIN * (handSize state - NEUTRAL_SIZE) /\
     DEPTH_GAIN * SIZE_DEADZONE < Qabs (speedZ state)) /\
  (NEUTRAL_SIZE + SIZE_DEADZONE < handSize state -> speedZ state < 0) /\
  (handSize state < NEUTRAL_SIZE - SIZE_DEADZONE -> 0 < speedZ state).
Proof.
  unfold speedZ, DEPTH_GAIN, SIZE_DEADZONE, NEUTRAL_SIZE.
  set (d := handSize state - 0.12).
  assert (Hd : handSize state == d + 0.12) by (unfold d; ring).
  destruct (Qlt_bool 0.02 (Qabs d)) eqn:E.
  - apply Qlt_bool_true in E.
    split; [intros H; lra|]. split; [intros _; split; [ring|]|].
    + revert E. apply Qabs_case; intros Hs E.
      * rewrite Qabs_neg by lra. lra.
      * rewrite Qabs_pos by lra. lra.
    + split; intros H; lra.
  - apply Qlt_bool_false in E.
    split; [intros _; reflexivity|]. split; [intros H; lra|].
    split; intros H; revert E; apply Qabs_case; intros; lra.
Qed.

(** *** The low-pass filter on the lateral velocity *)

Lemma updateVelocity_x (state : SystemState) (v : Vector2) :
  v2x (updateVelocity state v) == lerp1 (v2x v) (turn state) 0.1.
Proof. unfold updateVelocity, lerp1. simpl. lra. Qed.

Lemma velocityAfter_x (n : nat) (state : SystemState) (v : Vector2) :
  v2x (velocityAfter n state v) == lerpAfter n (v2x v) (turn state) 0.1.
Proof.
  induction n as [|n IH]; [reflexivity|].
  cbn [velocityAfter lerpAfter]. rewrite updateVelocity_x.
  unfold lerp1. rewrite IH. reflexivity.
Qed.

(** C7.  Under the constant lateral input [0.5], starting from rest, the
    lateral velocity never decreases from one tick to the next, never exceeds
    [0.5 * TURN_GAIN], and comes closer to it than any positive bound. *)
Theorem lateral_velocity_approaches_half_gain (state : SystemState) (v0 : Vector2) :
  v2x (handPosition state) == 0.5 -> v2x v0 == 0 ->
  (forall n : nat,
     v2x (velocityAfter n state v0) <= v2x (velocityAfter (S n) state v0) /\
     v2x (velocityAfter n state v0) <= 0.5 * TURN_GAIN) /\
  (forall eps : Q, 0 < eps ->
     exists N : nat, forall m : nat, (N <= m)%nat ->
       Qabs (0.5 * TURN_GAIN - v2x (velocityAfter m state v0)) < eps).
Proof.
  intros Hx Hv.
  assert (Ht : turn state == 0.5 * TURN_GAIN) by (unfold turn; now rewrite Hx).
  assert (Hr : 0 <= 0.1 <= 1) by (split; lra).
  assert (H0 : v2x v0 <= turn state) by (rewrite Ht, Hv; unfold TURN_GAIN; lra).
  split.
  - intros n. rewrite !velocityAfter_x, <- Ht.
    destruct (lerpAfter_below n (v2x v0) (turn state) 0.1 Hr H0) as [Hm Hb].
    split; [exact Hm|]. eapply Qle_trans; eassumption.
  - intros eps He.
    destruct (lerpAfter_converges (v2x v0) (turn state) 0.1 eps) as [N HN]; try lra.
    exists N. intros m Hm. rewrite velocityAfter_x, <- Ht. now apply HN.
Qed.

(** The statement above for a hand held at [x = 0.5] and the neutral size. *)
Lemma lateral_velocity_at_rest_start :
  (forall n : nat,
     v2x (velocityAfter n (handState 0.5 0.12) (mkV2 0 0))
       <= v2x (velocityAfter (S n) (handState 0.5 0.12) (mkV2 0 0)) /\
     v2x (velocityAfter n (handState 0.5 0.12) (mkV2 0 0)) <= 0.5 * TURN_GAIN) /\
  (forall eps : Q, 0 < eps ->
     exists N : nat, forall m : nat, (N <= m)%nat ->
       Qabs (0.5 * TURN_GAIN - v2x (velocityAfter m (handState 0.5 0.12) (mkV2 0 0))) < eps).
Proof.
  apply (lateral_velocity_approaches_half_gain (handState 0.5 0.12) (mkV2 0 0));
    reflexivity.
Defined.

(** *** The environmental blender *)

Lemma nth_lerpAll (cs ts rs : list Q) (i : nat) :
  (i < List.length cs)%nat ->
  List.length ts = List.length cs -> List.length rs = List.length cs ->
  nth i (lerpAll cs ts rs) 0 = lerp1 (nth i cs 0) (nth i ts 0) (nth i rs 0).
Proof.
  revert ts rs i. induction cs as [|c cs IH]; intros ts rs i Hi Ht Hr.
  - simpl in Hi. lia.
  - destruct ts as [|t ts]; [discriminate|]. destruct rs as [|r rs]; [discriminate|].
    destruct i as [|i]; [reflexivity|].
    simpl in *. apply IH; lia.
Qed.

Lemma blend_liveValues (state : SystemState) (env : Environment) :
  liveValues (blend state env) =
  lerpAll (liveValues env) (targetValues (targets (emotion state))) rates.
Proof. reflexivity. Qed.

Lemma liveValues_length (env : Environment) : List.length (liveValues env) = 19%nat.
Proof. reflexivity. Qed.

Lemma targetValues_length (t : Targets) : List.length (targetValues t) = 19%nat.
Proof. reflexivity. Qed.

Lemma rates_range (i : nat) :
  (i < 19)%nat -> 0 < nth i rates 0 /\ nth i rates 0 <= 1.
Proof.
  intros Hi.
  do 19 (destruct i as [|i];
         [unfold rates, BLEND_RATE, HALO_OPACITY_RATE; simpl; split; lra|]).
  lia.
Qed.

Lemma blendAfter_liveValues (n i : nat) (state : SystemState) (env : Environment) :
  (i < 19)%nat ->
  nth i (liveValues (blendAfter n state env)) 0 =
  lerpAfter n (nth i (liveValues env) 0)
              (nth i (targetValues (targets (emotion state))) 0) (nth i rates 0).
Proof.
  intros Hi. induction n as [|n IH]; [reflexivity|].
  cbn [blendAfter lerpAfter]. rewrite blend_liveValues, nth_lerpAll.
  - now rewrite IH.
  - now rewrite liveValues_length.
  - now rewrite liveValues_length, targetValues_length.
  - now rewrite liveValues_length.
Qed.

Section Oracles.

Variable Math_sin : Q -> Q.
Variable Math_cos : Q -> Q.
Variable random : nat -> Q.

Local Abbreviation animate := (Sim.animate Math_sin Math_cos random).
Local Abbreviation advance := (Sim.advance Math_sin Math_cos random).
Local Abbreviation run := (Sim.run Math_sin Math_cos random).
Local Abbreviation shardLoop := (Sim.shardLoop Math_sin random).
Local Abbreviation shardBody := (Sim.shardBody Math_sin random).

(** A frame that is neither paused nor out of bounds runs [advance]. *)
Lemma animate_running (f : Frame) (w : World) :
  isPaused f = false -> outOfBounds (playerPosition w) = false ->
  animate f w = advance f (timeRef w + 0.01) w.
Proof. intros Hp Ho. unfold Sim.animate. now rewrite Hp, Ho. Qed.

Lemma advance_environment (f : Frame) (time : Q) (w : World) :
  environment (fst (advance f time w)) = blend (state f) (environment w).
Proof.
  unfold Sim.advance. destruct (Sim.shardLoop _ _ _ _ _ _ _) as [[l k] ev].
  reflexivity.
Qed.

(** C6.  On every tick that runs to its end the blender replaces each live
    value [cur] by [cur + (target - cur) * rate]; the rate is [0.02] for the
    halo opacity and [0.05] for the eighteen other numbers.  With the emotion
    held fixed, each live value moves towards its target tick after tick:
    the gap never grows, the value never passes the target, and the gap falls
    below every positive bound. *)
Theorem blend_smooths_every_live_value (state : SystemState) (env : Environment) :
  let tv := targetValues (targets (emotion state)) in
  (forall (f : Frame) (w : World),
      isPaused f = false -> outOfBounds (playerPosition w) = false ->
      environment (fst (animate f w)) = blend (Sim.state f) (environment w)) /\
  liveValues (blend state env) = lerpAll (liveValues env) tv rates /\
  rates = (repeat 0.05 18 ++ [0.02])%list /\
  forall i : nat, (i < 19)%nat ->
    let cur n := nth i (liveValues (blendAfter n state env)) 0 in
    let tgt := nth i tv 0 in
    cur 1%nat = cur 0%nat + (tgt - cur 0%nat) * nth i rates 0 /\
    (forall n : nat, Qabs (tgt - cur (S n)) <= Qabs (tgt - cur n)) /\
    (cur 0%nat <= tgt -> forall n : nat, cur n <= cur (S n) /\ cur (S n) <= tgt) /\
    (tgt <= cur 0%nat -> forall n : nat, tgt <= cur (S n) /\ cur (S n) <= cur n) /\
    (forall eps : Q, 0 < eps ->
       exists N : nat, forall m : nat, (N <= m)%nat -> Qabs (tgt - cur m) < eps).
Proof.
  intros tv. split; [|split; [|split]].
  - intros f w Hp Ho. rewrite animate_running by assumption.
    apply advance_environment.
  - apply blend_liveValues.
  - reflexivity.
  - intros i Hi cur tgt.
    destruct (rates_range i Hi) as [Hr0 Hr1].
    assert (Hr : 0 <= nth i rates 0 <= 1) by (split; lra).
    assert (E : forall n, cur n =
                  lerpAfter n (nth i (liveValues env) 0) tgt (nth i rates 0)).
    { intros n. unfold cur, tgt, tv. now apply blendAfter_liveValues. }
    split; [|split; [|split; [|split]]].
    + rewrite (E 1%nat), (E 0%nat). reflexivity.
    + intros n. rewrite !E. now apply lerpAfter_gap_le.
    + intros H0 n. rewrite !E. rewrite (E 0%nat) in H0. now apply lerpAfter_below.
    + intros H0 n. rewrite !E. rewrite (E 0%nat) in H0. now apply lerpAfter_above.
    + intros eps He.
      destruct (lerpAfter_converges (nth i (liveValues env) 0) tgt (nth i rates 0) eps)
        as [N HN]; auto.
      exists N. intros m Hm. rewrite E. now apply HN.
Qed.

(** *** The boundary *)

Lemma animate_paused (f : Frame) (w : World) :
  isPaused f = true -> animate f w = (w, []).
Proof. intros Hp. unfold Sim.animate. now rewrite Hp. Qed.

Lemma animate_out (f : Frame) (w : World) :
  isPaused f = false -> outOfBounds (playerPosition w) = true ->
  animate f w = (tickClock w, [GameOver]).
Proof. intros Hp Ho. unfold Sim.animate. now rewrite Hp, Ho. Qed.

Lemma outOfBounds_true (p : Vector3) :
  outOfBounds p = true <-> sq GAME_OVER_RADIUS < distFromCenterSq p.
Proof. apply Qlt_bool_true. Qed.

Lemma outOfBounds_false (p : Vector3) :
  outOfBounds p = false <-> distFromCenterSq p <= sq GAME_OVER_RADIUS.
Proof. apply Qlt_bool_false. Qed.

(** The shard loop signals pickups only, for indices from [i] on. *)
Lemma shardBody_events (time : Q) (player : Vector3) (i : nat) (s : Shard) (k : nat) :
  forall e, In e (snd (shardBody time player i s k)) -> e = CollectShard i.
Proof.
  intros e. unfold Sim.shardBody.
  destruct (Qlt_bool _ _); [|destruct (Qlt_bool _ _)]; simpl; intuition.
Qed.

Lemma shardLoop_events (l : list Shard) (time : Q) (player : Vector3) (i k : nat) :
  forall e, In e (snd (shardLoop time player i l k)) ->
            exists j, e = CollectShard j /\ (i <= j)%nat.
Proof.
  revert i k. induction l as [|s l IH]; intros i k e; simpl; [contradiction|].
  destruct (shardLoop time player (S i) l k) as [[l' k1] ev1] eqn:E1.
  destruct (shardBody time player i s k1) as [[s' k2] ev2] eqn:E2.
  simpl. rewrite in_app_iff. intros [H|H].
  - destruct (IH (S i) k e) as (j & -> & Hj); [now rewrite E1|].
    exists j. split; [reflexivity|lia].
  - exists i. split; [|lia].
    apply (shardBody_events time player i s k1). now rewrite E2.
Qed.

Lemma advance_events (f : Frame) (time : Q) (w : World) :
  ~ In GameOver (snd (advance f time w)).
Proof.
  unfold Sim.advance.
  destruct (Sim.shardLoop _ _ _ _ _ _ _) as [[l k] ev] eqn:E. simpl. intros H.
  destruct (shardLoop_events (shards w) time
              (updatePosition (updateVelocity (state f) (playerVelocity w))
                              (playerPosition w)) 0 (draws w) GameOver)
    as (j & Hj & _); [now rewrite E|discriminate].
Qed.

(** Once the player is out of bounds, frames change the clock only, and every
    frame that is not paused signals the game over again. *)
Lemma run_out_of_bounds (frames : list Frame) (w : World) :
  outOfBounds (playerPosition w) = true ->
  playerPosition (fst (run frames w)) = playerPosition w /\
  playerVelocity (fst (run frames w)) = playerVelocity w /\
  shards (fst (run frames w)) = shards w /\
  environment (fst (run frames w)) = environment w /\
  snd (run frames w) = repeat GameOver (unpausedFrames frames).
Proof.
  revert w. induction frames as [|f frames IH]; intros w Ho; [now repeat split|].
  cbn [Sim.run]. unfold unpausedFrames. cbn [filter].
  destruct (isPaused f) eqn:Hp.
  - rewrite animate_paused by assumption.
    destruct (IH w Ho) as (P & V & S & E & Ev).
    destruct (run frames w) as [w2 ev2]. simpl in *. now repeat split.
  - rewrite animate_out by assumption.
    destruct (IH (tickClock w) Ho) as (P & V & S & E & Ev).
    destruct (run frames (tickClock w)) as [w2 ev2]. simpl in *.
    repeat split; try assumption. now rewrite Ev.
Qed.

Lemma initialWorld_position (k : nat) :
  playerPosition (initialWorld random k) = mkV3 0 6 0.
Proof.
  unfold initialWorld. destruct (initialShards random k) as [l k']. reflexivity.
Qed.

(** C1, as the code has it.  The distance is tested at the beginning of a
    tick, before the move.  A tick that finds the player within the radius
    signals no game over, also when it moves the player beyond the radius; it
    is the next unpaused tick that signals then.  A paused frame returns at
    once: it signals nothing and changes nothing.  A tick that finds the
    player beyond the radius signals the game over exactly once and ends
    there, with nothing but the clock advanced; from then on no frame moves
    the player (nor the velocity, the shards or the environment), each
    further unpaused tick repeating the one signal, and the world of a
    remounted canvas starts within the radius again. *)
Theorem game_over_only_beyond_radius (f : Frame) (w : World) :
  (distFromCenterSq (playerPosition w) <= sq GAME_OVER_RADIUS ->
     ~ In GameOver (snd (animate f w)) /\
     (isPaused f = false ->
        fst (animate f w) = fst (advance f (timeRef w + 0.01) w) /\
        (outOfBounds (playerPosition (fst (animate f w))) = true ->
         forall f' : Frame, isPaused f' = false ->
           snd (animate f' (fst (animate f w))) = [GameOver]))) /\
  (isPaused f = true -> animate f w = (w, [])) /\
  (isPaused f = false ->
   sq GAME_OVER_RADIUS < distFromCenterSq (playerPosition w) ->
     snd (animate f w) = [GameOver] /\
     count_occ Event_eq_dec (snd (animate f w)) GameOver = 1%nat /\
     fst (animate f w) = tickClock w /\
     (forall frames : list Frame,
        playerPosition (fst (run frames (fst (animate f w)))) = playerPosition w /\
        playerVelocity (fst (run frames (fst (animate f w)))) = playerVelocity w /\
        shards (fst (run frames (fst (animate f w)))) = shards w /\
        environment (fst (run frames (fst (animate f w)))) = environment w /\
        snd (run frames (fst (animate f w))) = repeat GameOver (unpausedFrames frames)) /\
     (forall k : nat,
        outOfBounds (playerPosition (initialWorld random k)) = false)).
Proof.
  split; [|split].
  - intros Hin. apply outOfBounds_false in Hin. split.
    + destruct (isPaused f) eqn:Hp.
      * rewrite animate_paused by assumption. intros [].
      * rewrite animate_running by assumption. apply advance_events.
    + intros Hp. split; [now rewrite animate_running by assumption|].
      intros Hout f' Hp'. now rewrite animate_out by assumption.
  - intros Hp. now apply animate_paused.
  - intros Hp Hout. apply outOfBounds_true in Hout.
    rewrite animate_out by assumption. simpl fst. simpl snd.
    split; [reflexivity|]. split; [reflexivity|]. split; [reflexivity|]. split.
    + intros frames. apply (run_out_of_bounds frames (tickClock w)). exact Hout.
    + intros k. now rewrite initialWorld_position.
Qed.

(** *** The shards *)

Lemma shardLoop_length (l : list Shard) (time : Q) (player : Vector3) (i k : nat) :
  List.length (fst (fst (shardLoop time player i l k))) = List.length l.
Proof.
  revert i k. induction l as [|s l IH]; intros i k; simpl; [reflexivity|].
  specialize (IH (S i) k).
  destruct (shardLoop time player (S i) l k) as [[l' k1] ev1].
  destruct (shardBody time player i s k1) as [[s' k2] ev2].
  simpl in *. now rewrite IH.
Qed.

(** The shard at position [j] of the result is the body applied to the shard
    at position [j], and the events hold its pickup as often as the body
    signalled it. *)
Lemma shardLoop_nth (l : list Shard) (time : Q) (player : Vector3) (i k j : nat)
      (s : Shard) :
  nth_error l j = Some s ->
  exists kj : nat,
    nth_error (fst (fst (shardLoop time player i l k))) j =
      Some (fst (fst (shardBody time player (i + j) s kj))) /\
    count_occ Event_eq_dec (snd (shardLoop time player i l k)) (CollectShard (i + j)) =
      count_occ Event_eq_dec (snd (shardBody time player (i + j) s kj))
                (CollectShard (i + j)).
Proof.
  revert i k j. induction l as [|a l IH]; intros i k j Hj; [now destruct j|].
  simpl.
  destruct (shardLoop time player (S i) l k) as [[l' k1] ev1] eqn:E1.
  destruct (shardBody time player i a k1) as [[a' k2] ev2] eqn:E2.
  simpl. rewrite count_occ_app. destruct j as [|j]; simpl in Hj.
  - injection Hj as ->. exists k1. rewrite Nat.add_0_r, E2. simpl. split; [reflexivity|].
    assert (H0 : count_occ Event_eq_dec ev1 (CollectShard i) = 0%nat).
    { apply count_occ_not_In. intros Hin.
      destruct (shardLoop_events l time player (S i) k (CollectShard i))
        as (m & Hm & Hle); [now rewrite E1|].
      injection Hm as <-. lia. }
    now rewrite H0.
  - destruct (IH (S i) k j Hj) as (kj & Hn & Hc).
    rewrite E1 in Hn, Hc. cbn [fst snd] in Hn, Hc.
    replace (i + S j)%nat with (S i + j)%nat by lia.
    exists kj. split; [exact Hn|]. rewrite Hc.
    assert (H0 : count_occ Event_eq_dec ev2 (CollectShard (S i + j)) = 0%nat).
    { apply count_occ_not_In. intros Hin.
      pose proof (shardBody_events time player i a k1 (CollectShard (S i + j))) as Hb.
      rewrite E2 in Hb. specialize (Hb Hin). injection Hb as Hb. lia. }
    rewrite H0. lia.
Qed.

(** A draw in [0, 1) moves a coordinate by at most half the span. *)
Lemma draw_band (r c span half : Q) :
  0 <= r -> r < 1 -> span == 2 * half -> 0 <= half ->
  Qabs (c + (r - 0.5) * span - c) <= half.
Proof.
  intros H0 H1 Hs Hh. rewrite Hs. apply Qabs_Qle_condition. split; nra.
Qed.

(** The three cases of the loop body. *)
Lemma shardBody_cases (time : Q) (player : Vector3) (i : nat) (s : Shard) (k : nat) :
  (forall n, 0 <= random n /\ random n < 1) ->
  let s' := fst (fst (shardBody time player i s k)) in
  let ev := snd (shardBody time player i s k) in
  (planarDistSq s player < sq COLLECT_RADIUS ->
     ev = [CollectShard i] /\ visible s' = true /\ v3y (position s') = 5 /\
     Qabs (v3x (position s') - v3x player) <= 1000 /\
     Qabs (v3z (position s') - v3z player) <= 1000) /\
  (sq DESPAWN_RADIUS < planarDistSq s player ->
     ev = [] /\ visible s' = visible s /\ v3y (position s') = 5 /\
     Qabs (v3x (position s') - v3x player) <= 2000 /\
     Qabs (v3z (position s') - v3z player) <= 2000) /\
  (sq COLLECT_RADIUS <= planarDistSq s player ->
   planarDistSq s player <= sq DESPAWN_RADIUS ->
     ev = [] /\ visible s' = visible s /\
     v3x (position s') = v3x (position s) /\ v3z (position s') = v3z (position s)).
Proof.
  intros Hr s' ev. unfold s', ev, Sim.shardBody.
  assert (Hcd : sq COLLECT_RADIUS < sq DESPAWN_RADIUS) by reflexivity.
  destruct (Hr k) as [Hk0 Hk1]. destruct (Hr (k + 1)%nat) as [Hk2 Hk3].
  destruct (Qlt_bool (planarDistSq s player) (sq COLLECT_RADIUS)) eqn:Ec.
  - apply Qlt_bool_true in Ec. cbn [fst snd position visible v3x v3y v3z].
    split; [|split].
    + intros _. split; [reflexivity|]. split; [reflexivity|]. split; [reflexivity|].
      split; apply draw_band; try assumption; try reflexivity; lra.
    + intros H. lra.
    + intros H. lra.
  - apply Qlt_bool_false in Ec.
    destruct (Qlt_bool (sq DESPAWN_RADIUS) (planarDistSq s player)) eqn:Ed.
    + apply Qlt_bool_true in Ed. cbn [fst snd position visible v3x v3y v3z].
      split; [|split].
      * intros H. lra.
      * intros _. split; [reflexivity|]. split; [reflexivity|]. split; [reflexivity|].
        split; apply draw_band; try assumption; try reflexivity; lra.
      * intros _ H. lra.
    + apply Qlt_bool_false in Ed. cbn [fst snd position visible v3x v3y v3z].
      split; [|split].
      * intros H. lra.
      * intros H. lra.
      * intros _ _. now repeat split.
Qed.

(** The body, exactly: where it puts the shard and what it draws. *)
Lemma shardBody_exact (time : Q) (player : Vector3) (i : nat) (s : Shard) (k : nat) :
  let s' := fst (fst (shardBody time player i s k)) in
  rotationX s' = rotationX s + 0.01 /\ rotationY s' = rotationY s + 0.02 /\
  snd (fst (shardBody time player i s k))
    = (k + (if relocates player s then 2 else 0))%nat /\
  (planarDistSq s player < sq COLLECT_RADIUS ->
     position s' = mkV3 (v3x player + (random k - 0.5) * 2000) 5
                        (v3z player + (random (k + 1) - 0.5) * 2000)) /\
  (sq DESPAWN_RADIUS < planarDistSq s player ->
     position s' = mkV3 (v3x player + (random k - 0.5) * 4000) 5
                        (v3z player + (random (k + 1) - 0.5) * 4000)) /\
  (sq COLLECT_RADIUS <= planarDistSq s player ->
   planarDistSq s player <= sq DESPAWN_RADIUS ->
     position s' = mkV3 (v3x (position s))
                        (5 + Math_sin (time * 2 + inject_Z (Z.of_nat i)) * 1.5)
                        (v3z (position s))).
Proof.
  cbv zeta. unfold Sim.shardBody, relocates.
  assert (Hcd : sq COLLECT_RADIUS < sq DESPAWN_RADIUS) by reflexivity.
  destruct (Qlt_bool (planarDistSq s player) (sq COLLECT_RADIUS)) eqn:Ec.
  - apply Qlt_bool_true in Ec. cbn [fst snd position rotationX rotationY orb].
    split; [reflexivity|]. split; [reflexivity|]. split; [reflexivity|].
    split; [reflexivity|]. split; intros; lra.
  - apply Qlt_bool_false in Ec.
    destruct (Qlt_bool (sq DESPAWN_RADIUS) (planarDistSq s player)) eqn:Ed.
    + apply Qlt_bool_true in Ed. cbn [fst snd position rotationX rotationY orb].
      split; [reflexivity|]. split; [reflexivity|]. split; [reflexivity|].
      split; [intros; lra|]. split; [reflexivity|intros; lra].
    + apply Qlt_bool_false in Ed. cbn [fst snd position rotationX rotationY orb].
      split; [reflexivity|]. split; [reflexivity|]. split; [lia|].
      split; [intros; lra|]. split; [intros; lra|reflexivity].
Qed.

(** The draws of the loop: two for each shard it puts back. *)
Lemma shardLoop_draws (l : list Shard) (time : Q) (player : Vector3) (i k : nat) :
  snd (fst (shardLoop time player i l k)) = (k + 2 * relocated player l)%nat.
Proof.
  revert i. induction l as [|a l IH]; intros i.
  - unfold relocated. cbn. lia.
  - cbn [Sim.shardLoop]. specialize (IH (S i)).
    destruct (shardLoop time player (S i) l k) as [[l' k1] ev1].
    destruct (shardBody_exact time player i a k1) as (_ & _ & Hk & _).
    destruct (shardBody time player i a k1) as [[a' k2] ev2].
    cbn [fst snd] in *. rewrite Hk, IH. unfold relocated. cbn [filter].
    destruct (relocates player a); cbn [List.length]; lia.
Qed.

(** The shard at position [j] is reached with the draws of those behind it
    made. *)
Lemma shardLoop_at (l : list Shard) (time : Q) (player : Vector3) (i k j : nat)
      (s : Shard) :
  nth_error l j = Some s ->
  nth_error (fst (fst (shardLoop time player i l k))) j =
    Some (fst (fst (shardBody time player (i + j) s
                              (k + 2 * relocated player (skipn (S j) l))))).
Proof.
  revert i j. induction l as [|a l IH]; intros i j Hj; [now destruct j|].
  cbn [Sim.shardLoop].
  pose proof (shardLoop_draws l time player (S i) k) as Hd.
  destruct (shardLoop time player (S i) l k) as [[l' k1] ev1] eqn:E1.
  destruct (shardBody time player i a k1) as [[a' k2] ev2] eqn:E2.
  cbn [fst snd] in *. destruct j as [|j]; cbn [nth_error] in *.
  - injection Hj as ->. cbn [skipn]. rewrite Nat.add_0_r, <- Hd, E2. reflexivity.
  - specialize (IH (S i) j Hj). rewrite E1 in IH. cbn [fst] in IH.
    replace (i + S j)%nat with (S i + j)%nat by lia. exact IH.
Qed.

Lemma animate_shards_length (f : Frame) (w : World) :
  List.length (shards (fst (animate f w))) = List.length (shards w).
Proof.
  unfold Sim.animate. destruct (isPaused f); [reflexivity|].
  destruct (outOfBounds _); [reflexivity|].
  unfold Sim.advance.
  pose proof (shardLoop_length (shards w) (timeRef w + 0.01)
                (updatePosition (updateVelocity (state f) (playerVelocity w))
                                (playerPosition w)) 0 (draws w)) as H.
  destruct (Sim.shardLoop _ _ _ _ _ _ _) as [[l k] ev]. exact H.
Qed.

Lemma run_shards_length (frames : list Frame) (w : World) :
  List.length (shards (fst (run frames w))) = List.length (shards w).
Proof.
  revert w. induction frames as [|f frames IH]; intros w; [reflexivity|].
  cbn [Sim.run]. pose proof (animate_shards_length f w) as Ha.
  destruct (animate f w) as [w1 ev1]. specialize (IH w1).
  destruct (run frames w1) as [w2 ev2]. simpl in *. congruence.
Qed.

(** C3.  In a tick that runs to its end, each shard is looked at once,
    against the position the player has after moving, the shards of higher
    index first.  Closer than the collect radius: its pickup is signalled
    exactly once, and it is put at a new place given by the next two random
    draws, [player + (draw - 0.5) * 2000] on each ground axis at height 5,
    hence within 1000 of the player on both axes, and it is visible.
    Farther than the despawn radius: no pickup, and it is put at
    [player + (draw - 0.5) * 4000], within 2000 of the player on both axes.
    In between: no pickup, it stays where it is on the ground and bobs.  The
    two draws of a shard are those that follow the draws of the shards
    behind it, so no draw serves twice, and the tick draws two numbers for
    each shard it puts back.  The number of shards is the same after any
    frame and after any sequence of frames. *)
Theorem shard_pickup_and_respawn (f : Frame) (w : World) :
  (forall n : nat, 0 <= random n /\ random n < 1) ->
  List.length (shards (fst (animate f w))) = List.length (shards w) /\
  (forall frames : list Frame,
     List.length (shards (fst (run frames w))) = List.length (shards w)) /\
  (isPaused f = false -> outOfBounds (playerPosition w) = false ->
   forall (j : nat) (s : Shard), nth_error (shards w) j = Some s ->
   exists s' : Shard,
     nth_error (shards (fst (animate f w))) j = Some s' /\
     let player := playerPosition (fst (animate f w)) in
     let pickups := count_occ Event_eq_dec (snd (animate f w)) (CollectShard j) in
     let k := (draws w + drawsBefore player (shards w) j)%nat in
     (planarDistSq s player < sq COLLECT_RADIUS ->
        pickups = 1%nat /\ visible s' = true /\ v3y (position s') = 5 /\
        Qabs (v3x (position s') - v3x player) <= 1000 /\
        Qabs (v3z (position s') - v3z player) <= 1000 /\
        position s' = mkV3 (v3x player + (random k - 0.5) * 2000) 5
                           (v3z player + (random (k + 1) - 0.5) * 2000)) /\
     (sq DESPAWN_RADIUS < planarDistSq s player ->
        pickups = 0%nat /\ visible s' = visible s /\ v3y (position s') = 5 /\
        Qabs (v3x (position s') - v3x player) <= 2000 /\
        Qabs (v3z (position s') - v3z player) <= 2000 /\
        position s' = mkV3 (v3x player + (random k - 0.5) * 4000) 5
                           (v3z player + (random (k + 1) - 0.5) * 4000)) /\
     (sq COLLECT_RADIUS <= planarDistSq s player ->
      planarDistSq s player <= sq DESPAWN_RADIUS ->
        pickups = 0%nat /\ visible s' = visible s /\
        v3x (position s') = v3x (position s) /\ v3z (position s') = v3z (position s) /\
        v3y (position s')
          = 5 + Math_sin (timeRef (fst (animate f w)) * 2 + inject_Z (Z.of_nat j)) * 1.5) /\
     rotationX s' = rotationX s + 0.01 /\ rotationY s' = rotationY s + 0.02) /\
  (isPaused f = false -> outOfBounds (playerPosition w) = false ->
   draws (fst (animate f w))
   = (draws w + 2 * relocated (playerPosition (fst (animate f w))) (shards w))%nat).
Proof.
  intros Hr. split; [apply animate_shards_length|].
  split; [intros frames; apply run_shards_length|]. split.
  - intros Hp Ho j s Hj. rewrite animate_running by assumption.
    unfold Sim.advance.
    set (p := updatePosition (updateVelocity (state f) (playerVelocity w))
                             (playerPosition w)).
    set (t := timeRef w + 0.01).
    destruct (shardLoop_nth (shards w) t p 0 (draws w) j s Hj) as (kj & _ & Hc).
    pose proof (shardLoop_at (shards w) t p 0 (draws w) j s Hj) as Hn.
    destruct (Sim.shardLoop Math_sin random t p 0 (shards w) (draws w)) as [[l k] ev].
    cbn [fst snd Nat.add] in Hn, Hc. cbn [fst snd shards playerPosition timeRef].
    fold (relocated p (skipn (S j) (shards w))) in Hn.
    unfold drawsBefore.
    set (k0 := (draws w + 2 * relocated p (skipn (S j) (shards w)))%nat) in *.
    exists (fst (fst (shardBody t p j s k0))). split; [exact Hn|].
    cbv zeta. rewrite Hc.
    destruct (shardBody_cases t p j s kj Hr) as (C1 & C2 & C3).
    destruct (shardBody_cases t p j s k0 Hr) as (D1 & D2 & D3).
    destruct (shardBody_exact t p j s k0) as (RX & RY & _ & P1 & P2 & P3).
    split; [|split; [|split; [|split; [exact RX|exact RY]]]].
    + intros H. destruct (C1 H) as (E & _). destruct (D1 H) as (_ & V & Y & BX & BZ).
      rewrite E. cbn [count_occ].
      destruct (Event_eq_dec (CollectShard j) (CollectShard j)); [|congruence].
      split; [reflexivity|]. split; [exact V|]. split; [exact Y|].
      split; [exact BX|]. split; [exact BZ|exact (P1 H)].
    + intros H. destruct (C2 H) as (E & _). destruct (D2 H) as (_ & V & Y & BX & BZ).
      rewrite E. split; [reflexivity|]. split; [exact V|]. split; [exact Y|].
      split; [exact BX|]. split; [exact BZ|exact (P2 H)].
    + intros H1 H2. destruct (C3 H1 H2) as (E & _).
      destruct (D3 H1 H2) as (_ & V & PX & PZ).
      rewrite E. split; [reflexivity|]. split; [exact V|]. split; [exact PX|].
      split; [exact PZ|]. now rewrite (P3 H1 H2).
  - intros Hp Ho. rewrite animate_running by assumption. unfold Sim.advance.
    pose proof (shardLoop_draws (shards w) (timeRef w + 0.01)
                  (updatePosition (updateVelocity (state f) (playerVelocity w))
                                  (playerPosition w)) 0 (draws w)) as Hd.
    destruct (Sim.shardLoop _ _ _ _ _ _ _) as [[l k] ev]. exact Hd.
Qed.

End Oracles.

(** *** Concrete runs *)

(** C1, the claim as stated fails: a tick that produces a distance beyond
    the radius does not signal the game over.  From rest at [x = 7999.9] with
    the hand at the right edge, the tick takes the player to [x = 8000.05],
    signals nothing and runs to its end. *)
Lemma crossing_tick_signals_nothing :
  ~ (forall (f : Frame) (w : World),
       isPaused f = false ->
       outOfBounds
         (playerPosition
            (fst (Sim.animate (constantly 0) (constantly 0) (alwaysDraw 0.25) f w))) = true ->
       count_occ Event_eq_dec
         (snd (Sim.animate (constantly 0) (constantly 0) (alwaysDraw 0.25) f w))
         GameOver = 1%nat).
Proof.
  intros H.
  specialize (H turningFrame (worldAt (mkV3 7999.9 6 0) []) eq_refl eq_refl).
  discriminate H.
Qed.

(** C1 at a player placed 9000 from the origin: the frame signals the game
    over once, and two more frames leave the player where it is. *)
Lemma game_over_at_9000 :
  isPaused idleFrame = false /\
  snd (Sim.animate (constantly 0) (constantly 0) (alwaysDraw 0.25) idleFrame
         (worldAt (mkV3 9000 6 0) [])) = [GameOver] /\
  playerPosition
    (fst (Sim.run (constantly 0) (constantly 0) (alwaysDraw 0.25) [idleFrame; idleFrame]
            (fst (Sim.animate (constantly 0) (constantly 0) (alwaysDraw 0.25) idleFrame
                    (worldAt (mkV3 9000 6 0) []))))) = mkV3 9000 6 0.
Proof.
  split; [reflexivity|].
  destruct (game_over_only_beyond_radius (constantly 0) (constantly 0) (alwaysDraw 0.25)
              idleFrame (worldAt (mkV3 9000 6 0) [])) as (_ & _ & H).
  destruct (H eq_refl eq_refl) as (E & _ & _ & R & _).
  split; [exact E|]. destruct (R [idleFrame; idleFrame]) as (P & _). exact P.
Defined.

(** C3 at a shard 5 away from a player at the origin: one pickup. *)
Lemma shard_at_distance_5 :
  (forall n : nat, 0 <= alwaysDraw 0.25 n /\ alwaysDraw 0.25 n < 1) /\
  count_occ Event_eq_dec
    (snd (Sim.animate (constantly 0) (constantly 0) (alwaysDraw 0.25) idleFrame
            (worldAt (mkV3 0 6 0) [shardAt 3 4; shardAt 9000 0])))
    (CollectShard 0) = 1%nat /\
  List.length
    (shards (fst (Sim.animate (constantly 0) (constantly 0) (alwaysDraw 0.25) idleFrame
                    (worldAt (mkV3 0 6 0) [shardAt 3 4; shardAt 9000 0])))) = 2%nat.
Proof.
  assert (Hr : forall n : nat, 0 <= alwaysDraw 0.25 n /\ alwaysDraw 0.25 n < 1).
  { intros n. unfold alwaysDraw. split; lra. }
  split; [exact Hr|].
  destruct (shard_pickup_and_respawn (constantly 0) (constantly 0) (alwaysDraw 0.25)
              idleFrame (worldAt (mkV3 0 6 0) [shardAt 3 4; shardAt 9000 0]) Hr)
    as (L & _ & H & _).
  split; [|exact L].
  destruct (H eq_refl eq_refl 0%nat (shardAt 3 4) eq_refl) as (s' & _ & C & _).
  destruct (C eq_refl) as (P & _). exact P.
Defined.

(** Two frames with a shard 5 away and a shard 9000 away from a player at
    the origin: the far one is put back first (the loop runs from the last
    index down), the near one is collected; nothing happens in the second
    frame. *)
Example two_frames_of_shards :
  let r := Sim.run (constantly 0) (constantly 0) (alwaysDraw 0.25) [idleFrame; idleFrame]
             (worldAt (mkV3 0 6 0) [shardAt 3 4; shardAt 9000 0]) in
  snd r = [CollectShard 0] /\ draws (fst r) = 4%nat /\
  map (fun s => Qeq_bool (v3x (position s)) (- 500)) (shards (fst r)) = [true; false] /\
  map (fun s => Qeq_bool (v3x (position s)) (- 1000)) (shards (fst r)) = [false; true].
Proof. repeat split. Qed.

(** One frame with the hand at [x = 0.5] and size [0.16]. *)
Example first_frame_of_motion :
  let w := fst (Sim.animate (constantly 0) (constantly 0) (alwaysDraw 0.25)
                  (mkFrame false (handState 0.5 0.16) "comp_butterfly")
                  (worldAt (mkV3 0 6 0) [])) in
  v2x (playerVelocity w) == 0.125 /\ v2y (playerVelocity w) == - 0.1 /\
  v3x (playerPosition w) == 0.075 /\ v3z (playerPosition w) == - 0.06 /\
  timeRef w == 0.01.
Proof. repeat split. Qed.

End SimTheory.

(** ** The vertex shaders *)

Module ShaderTheory.
Import Shader.

Open Scope Q_scope.

(** [mod(x, y)] lies in [[0, y)] for a positive [y]. *)
Lemma glsl_mod_range (x y : Q) : 0 < y -> 0 <= glsl_mod x y /\ glsl_mod x y < y.
Proof.
  intros Hy. unfold glsl_mod.
  pose proof (Qfloor_le (x / y)) as Hlo.
  pose proof (Qlt_floor (x / y)) as Hhi.
  rewrite inject_Z_plus in Hhi. change (inject_Z 1) with 1 in Hhi.
  set (n := inject_Z (Qfloor (x / y))) in *.
  assert (Hx : x == (x / y) * y) by (field; lra).
  set (q := x / y) in *.
  assert (H1 : n * y <= q * y) by (apply Qmult_le_compat_r; lra).
  assert (H2 : q * y < (n + 1) * y) by (apply Qmult_lt_compat_r; lra).
  split.
  - rewrite Hx at 1. lra.
  - rewrite Hx at 1. lra.
Qed.

(** C5.  Whatever the initial height, the time, the speed and the random
    factor of a particle, the height the weather shader computes lies in the
    band [[-100, 100]]; the fade is 0 at both edges of the band and 1 in its
    middle. *)
Theorem weather_height_in_band_and_fade (posY uTime uSpeed aRandom : Q) :
  - 100 <= weatherY posY uTime uSpeed aRandom /\
  weatherY posY uTime uSpeed aRandom <= 100 /\
  vAlpha 100 == 0 /\ vAlpha (- 100) == 0 /\ vAlpha 0 == 1.
Proof.
  unfold weatherY.
  destruct (glsl_mod_range (100 - posY + fallOffset uTime uSpeed aRandom) height)
    as [H0 H1]; [reflexivity|].
  unfold height in *.
  split; [lra|]. split; [lra|].
  split; [reflexivity|]. split; reflexivity.
Qed.

(** The square of a number that shrinks towards 0 from the right shrinks. *)
Lemma sq_lt (a b : Q) : 0 <= a -> a < b -> sq a < sq b.
Proof. intros Ha Hab. unfold sq. nra. Qed.

Lemma falloff_base (d : Q) : 1 - d / interactRadius == (35 - d) * (1 # 35).
Proof. unfold interactRadius. field. Qed.

Lemma pushFactor_inside (d hp : Q) :
  d < interactRadius -> pushFactor d hp == sq (1 - d / interactRadius) * 12 * hp.
Proof.
  intros H. unfold pushFactor.
  apply Qlt_bool_true in H. now rewrite H.
Qed.

Lemma pushFactor_outside (d hp : Q) : interactRadius <= d -> pushFactor d hp == 0.
Proof.
  intros H. unfold pushFactor.
  apply Qlt_bool_false in H. now rewrite H.
Qed.

Lemma pushFactor_decreasing (d1 d2 hp : Q) :
  0 < hp -> 0 <= d1 -> d1 < d2 -> d2 <= interactRadius ->
  pushFactor d2 hp < pushFactor d1 hp.
Proof.
  intros Hhp H0 H12 H2.
  assert (H1 : d1 < interactRadius) by lra.
  rewrite (pushFactor_inside d1 hp H1).
  pose proof (falloff_base d1) as B1. pose proof (falloff_base d2) as B2.
  unfold interactRadius in *.
  set (u1 := 1 - d1 / 35) in *. set (u2 := 1 - d2 / 35) in *.
  assert (Hu : 0 <= u2 /\ u2 < u1) by (split; lra).
  destruct Hu as [Hu2 Hu21].
  pose proof (sq_lt u2 u1 Hu2 Hu21) as Hsq.
  assert (Hpos : 0 < sq u1 * 12 * hp).
  { assert (0 < sq u1) by (unfold sq; nra).
    apply Qmult_lt_0_compat; [|exact Hhp]. lra. }
  destruct (Qlt_le_dec d2 35) as [Hin|Hout].
  - rewrite (pushFactor_inside d2 hp Hin). change (1 - d2 / interactRadius) with u2.
    apply Qmult_lt_compat_r; [exact Hhp|]. lra.
  - rewrite (pushFactor_outside d2 hp Hout). exact Hpos.
Qed.

(** The push vanishes continuously at the radius. *)
Lemma pushFactor_continuous_at_radius (hp eps : Q) :
  0 < eps ->
  exists delta : Q, 0 < delta /\
    forall d : Q, interactRadius - delta < d ->
      Qabs (pushFactor d hp - pushFactor interactRadius hp) < eps.
Proof.
  intros He.
  set (A := 12 * Qabs hp).
  assert (HA : 0 <= A) by (unfold A; pose proof (Qabs_nonneg hp); lra).
  set (q := eps / (A + 1)).
  assert (Hq : q * (A + 1) == eps) by (unfold q; field; lra).
  assert (Hq0 : 0 < q) by (unfold q; apply Qlt_shift_div_l; lra).
  set (e := if Qlt_bool q 1 then q else 1).
  assert (Hev : 0 < e /\ e <= 1 /\ e <= q).
  { unfold e. destruct (Qlt_bool q 1) eqn:E.
    - apply Qlt_bool_true in E. repeat split; lra.
    - apply Qlt_bool_false in E. repeat split; lra. }
  destruct Hev as (He0 & He1 & Heq).
  exists (35 * e). split; [lra|].
  intros d Hd. rewrite (pushFactor_outside interactRadius hp) by apply Qle_refl.
  unfold Qminus at 1. rewrite Qplus_0_r.
  destruct (Qlt_le_dec d interactRadius) as [Hin|Hout].
  - rewrite (pushFactor_inside d hp Hin).
    pose proof (falloff_base d) as B. unfold interactRadius in *.
    change (1 - d / interactRadius) with (1 - d / 35).
    set (u := 1 - d / 35) in *.
    assert (Hu0 : 0 < u) by lra. assert (Hu1 : u < e) by lra.
    assert (Hsq : sq u <= e) by (unfold sq; nra).
    assert (Hsq0 : 0 <= sq u) by (unfold sq; nra).
    assert (E : Qabs (sq u * 12 * hp) == sq u * A).
    { rewrite !Qabs_Qmult. rewrite (Qabs_pos (sq u)) by exact Hsq0.
      rewrite (Qabs_pos 12) by lra. unfold A. ring. }
    rewrite E.
    assert (sq u * A <= q * A).
    { apply Qmult_le_compat_r; [lra|exact HA]. }
    lra.
  - rewrite (pushFactor_outside d hp Hout). exact He.
Qed.

(** C4.  The push factor is [(1 - dist/radius)^2 * 12 * heightPercent]
    inside the interaction radius and 0 from the radius on, it is what the
    shader displaces the vertex by, it falls strictly as the distance grows
    towards the radius (for a vertex above the blade's root, where
    [heightPercent] is positive), and it tends to its value 0 at the radius:
    there is no jump. *)
Theorem push_falloff_smooth (hp : Q) :
  (forall d : Q, d < interactRadius ->
     pushFactor d hp == (1 - d / interactRadius) ^ 2 * 12 * hp) /\
  pushFactor interactRadius hp == 0 /\
  (forall d : Q, interactRadius <= d -> pushFactor d hp == 0) /\
  (forall (d : Q) (pushDir worldPos : Vector3),
     v3x (interactivePush d pushDir hp worldPos)
       == v3x worldPos + v3x pushDir * pushFactor d hp /\
     v3z (interactivePush d pushDir hp worldPos)
       == v3z worldPos + v3z pushDir * pushFactor d hp /\
     v3y (interactivePush d pushDir hp worldPos)
       == v3y worldPos - pushFactor d hp * 0.5) /\
  (0 < hp -> forall d1 d2 : Q, 0 <= d1 -> d1 < d2 -> d2 <= interactRadius ->
     pushFactor d2 hp < pushFactor d1 hp) /\
  (forall eps : Q, 0 < eps ->
     exists delta : Q, 0 < delta /\
       forall d : Q, interactRadius - delta < d ->
         Qabs (pushFactor d hp - pushFactor interactRadius hp) < eps).
Proof.
  split; [|split; [|split; [|split; [|split]]]].
  - intros d H. rewrite (pushFactor_inside d hp H). reflexivity.
  - apply pushFactor_outside. apply Qle_refl.
  - intros d H. now apply pushFactor_outside.
  - intros d pushDir worldPos. unfold interactivePush.
    destruct (Qlt_bool d interactRadius) eqn:E.
    + cbn [v3x v3y v3z]. repeat split; reflexivity.
    + apply Qlt_bool_false in E. rewrite (pushFactor_outside d hp E).
      repeat split; ring.
  - intros Hhp d1 d2. now apply pushFactor_decreasing.
  - intros eps. apply pushFactor_continuous_at_radius.
Qed.

(** A particle that starts at height 50 is at 50 at time 0 and at -50 once
    it has fallen by 100; one that starts at -90 and falls by 30 re-enters
    from the top, at 80. *)
Example weather_fall_wraps :
  weatherY 50 0 10 0.5 == 50 /\ weatherY 50 10 10 0.5 == - 50 /\
  weatherY (- 90) 3 10 0.5 == 80.
Proof. repeat split. Qed.

(** The push on a blade tip: 12 at the player, 3 half way, 0 from the radius
    on. *)
Example push_on_blade_tip :
  pushFactor 0 1 == 12 /\ pushFactor 17.5 1 == 3 /\
  pushFactor 35 1 == 0 /\ pushFactor 40 1 == 0.
Proof. repeat split. Qed.

End ShaderTheory.

(** ** The field generator *)

Module FieldTheory.
Import Field.

(** *** Loops *)

Lemma forLoop_invariant {S : Type} (P : S -> Prop) (body : nat -> S -> S)
      (n from : nat) (s : S) :
  P s -> (forall j s', P s' -> P (body j s')) -> P (forLoop from n body s).
Proof.
  intros H0 Hstep. revert from s H0.
  induction n as [|n IH]; intros from s H0; simpl; [exact H0|].
  apply IH. now apply Hstep.
Qed.

Lemma writeAt_length (j : nat) (m : Matrix4) (l : list Matrix4) :
  List.length (writeAt j m l) = List.length l.
Proof.
  revert j. induction l as [|a l IH]; intros j; [now destruct j|].
  destruct j; simpl; [reflexivity|]. now rewrite IH.
Qed.

Lemma in_zrange (n : nat) (from z : Z) :
  In z (zrange from n) <-> (from <= z < from + Z.of_nat n)%Z.
Proof.
  revert from. induction n as [|n IH]; intros from; simpl; [lia|].
  rewrite IH. lia.
Qed.

Lemma zrange_length (n : nat) (from : Z) : List.length (zrange from n) = n.
Proof. revert from. induction n as [|n IH]; intros from; simpl; [|rewrite IH]; reflexivity. Qed.

Lemma NoDup_zrange (n : nat) (from : Z) : NoDup (zrange from n).
Proof.
  revert from. induction n as [|n IH]; intros from; simpl; constructor.
  - rewrite in_zrange. lia.
  - apply IH.
Qed.

Lemma in_gridIndices (h : Z) (n : nat) (x z : Z) :
  In (x, z) (gridIndices h n) <->
  (- h <= x < - h + Z.of_nat n)%Z /\ (- h <= z < - h + Z.of_nat n)%Z.
Proof.
  unfold gridIndices. rewrite in_flat_map. split.
  - intros (x' & Hx & Hin). apply in_map_iff in Hin.
    destruct Hin as (z' & E & Hz). injection E as <- <-.
    now rewrite <- !in_zrange.
  - intros [Hx Hz]. exists x. rewrite in_zrange. split; [exact Hx|].
    apply in_map. now rewrite in_zrange.
Qed.

Lemma NoDup_pairs (K L : list Z) :
  NoDup K -> NoDup L -> NoDup (flat_map (fun x => map (pair x) L) K).
Proof.
  intros HK HL. induction HK as [|a K Ha HK IH]; simpl; [constructor|].
  apply NoDup_app.
  - apply NoDup_map_NoDup_ForallPairs; [|exact HL].
    intros y y' _ _ E. now injection E.
  - exact IH.
  - intros [x z] Hin Hin'. apply in_map_iff in Hin. destruct Hin as (z' & E & _).
    injection E as <- <-. apply in_flat_map in Hin'.
    destruct Hin' as (x' & Hx' & Hin'). apply in_map_iff in Hin'.
    destruct Hin' as (z'' & E & _). injection E as -> _. contradiction.
Qed.

Lemma gridIndices_length (h : Z) (n : nat) :
  List.length (gridIndices h n) = (n * n)%nat.
Proof.
  unfold gridIndices.
  assert (H : forall K L : list Z,
             List.length (flat_map (fun x => map (pair x) L) K)
             = (List.length K * List.length L)%nat).
  { intros K L. induction K as [|a K IH]; simpl; [reflexivity|].
    now rewrite length_app, length_map, IH. }
  now rewrite H, zrange_length.
Qed.

(** *** What the loops build *)

Section Generated.

Variable random : nat -> Q.
Variable Math_PI : Q.
Variable halfGrid : Z.
Variable chunkSize : Z.
Variable instances : nat.

Local Abbreviation makeChunk := (Field.makeChunk random Math_PI chunkSize instances).
Local Abbreviation instanceBody := (Field.instanceBody random Math_PI chunkSize).

Lemma instanceBody_keeps (j : nat) (st : InstancedMesh * InstancedMesh * nat) :
  batchesAgree instances st -> batchesAgree instances (instanceBody j st).
Proof.
  destruct st as [[high low] k]. unfold batchesAgree, Field.instanceBody, setMatrixAt.
  cbn [geometry material count castShadow receiveShadow instanceMatrix].
  intros (Hg & Hm & Hc & Hs & Hr & He & Hl).
  repeat (split; [assumption|]). split.
  - now rewrite He.
  - now rewrite writeAt_length.
Qed.

Lemma makeChunk_chunkAt (x z : Z) (k : nat) :
  chunkAt chunkSize instances x z (fst (makeChunk x z k)).
Proof.
  unfold Field.makeChunk.
  pose proof (forLoop_invariant (batchesAgree instances) instanceBody instances 0
                (newInstancedMesh grassGeoHigh grassMat instances true true,
                 newInstancedMesh grassGeoLow grassMat instances false true, k)) as H.
  destruct (forLoop 0 instances instanceBody _) as [[high low] k'].
  unfold chunkAt. cbn [fst centerX centerZ meshHigh meshLow].
  split; [reflexivity|]. split; [reflexivity|].
  apply H.
  - unfold batchesAgree, newInstancedMesh.
    cbn [geometry material count castShadow receiveShadow instanceMatrix].
    repeat split; try reflexivity. apply repeat_length.
  - intros j st. apply instanceBody_keeps.
Qed.

(** The inner loop appends one chunk per [z], in order. *)
Lemma inner_loop_appends (x : Z) (n : nat) (from : Z) (acc : list Chunk) (k : nat) :
  exists (new : list Chunk) (k' : nat),
    forLoopZ from n
      (fun z st => let '(chunks, k) := st in
                   let '(lod, k) := makeChunk x z k in
                   ((chunks ++ [lod])%list, k))
      (acc, k) = ((acc ++ new)%list, k') /\
    Forall2 (fun z c => chunkAt chunkSize instances x z c) (zrange from n) new.
Proof.
  revert from acc k. induction n as [|n IH]; intros from acc k.
  - exists [], k. simpl. rewrite app_nil_r. split; [reflexivity|constructor].
  - cbn [forLoopZ zrange].
    pose proof (makeChunk_chunkAt x from k) as Hc.
    destruct (makeChunk x from k) as [lod k1]. cbn [fst] in Hc.
    destruct (IH (from + 1)%Z (acc ++ [lod])%list k1) as (new & k' & E & F).
    exists (lod :: new), k'. split.
    + rewrite E. now rewrite <- app_assoc.
    + now constructor.
Qed.

Lemma Forall2_pair (x : Z) (zs : list Z) (new : list Chunk) :
  Forall2 (fun z c => chunkAt chunkSize instances x z c) zs new ->
  Forall2 (fun i c => chunkAt chunkSize instances (fst i) (snd i) c)
          (map (pair x) zs) new.
Proof. induction 1; simpl; constructor; auto. Qed.

(** The outer loop appends the chunks of one row after the other. *)
Lemma outer_loop_appends (side : nat) (n : nat) (from : Z) (acc : list Chunk) (k : nat) :
  exists (new : list Chunk) (k' : nat),
    forLoopZ from n
      (fun x st =>
         forLoopZ (- halfGrid) side
           (fun z st => let '(chunks, k) := st in
                        let '(lod, k) := makeChunk x z k in
                        ((chunks ++ [lod])%list, k))
           st)
      (acc, k) = ((acc ++ new)%list, k') /\
    Forall2 (fun i c => chunkAt chunkSize instances (fst i) (snd i) c)
            (flat_map (fun x => map (pair x) (zrange (- halfGrid) side)) (zrange from n))
            new.
Proof.
  revert from acc k. induction n as [|n IH]; intros from acc k.
  - exists [], k. simpl. rewrite app_nil_r. split; [reflexivity|constructor].
  - cbn [forLoopZ zrange flat_map].
    destruct (inner_loop_appends from side (- halfGrid) acc k) as (row & k1 & E1 & F1).
    rewrite E1.
    destruct (IH (from + 1)%Z (acc ++ row)%list k1) as (new & k' & E & F).
    exists (row ++ new)%list, k'. split.
    + rewrite E. now rewrite <- app_assoc.
    + apply Forall2_app; [now apply Forall2_pair|exact F].
Qed.

Lemma generate_grid :
  Forall2 (fun i c => chunkAt chunkSize instances (fst i) (snd i) c)
          (gridIndices halfGrid (Z.to_nat (halfGrid - - halfGrid)))
          (fst (generate random Math_PI halfGrid chunkSize instances)).
Proof.
  unfold generate, gridSide, gridIndices.
  destruct (outer_loop_appends (Z.to_nat (halfGrid - - halfGrid))
              (Z.to_nat (halfGrid - - halfGrid)) (- halfGrid) [] O)
    as (new & k' & E & F).
  rewrite E. exact F.
Qed.

End Generated.

(** *** The field of the source *)

Open Scope Q_scope.

Lemma Forall2_in_r {A B : Type} (R : A -> B -> Prop) (l : list A) (l' : list B) (c : B) :
  Forall2 R l l' -> In c l' -> exists i, In i l /\ R i c.
Proof.
  induction 1 as [|i c' l l' Hr _ IH]; simpl; [contradiction|].
  intros [<-|Hin].
  - exists i. auto.
  - destruct (IH Hin) as (i' & ? & ?). exists i'. auto.
Qed.

Lemma Forall2_in_l {A B : Type} (R : A -> B -> Prop) (l : list A) (l' : list B) (i : A) :
  Forall2 R l l' -> In i l -> exists c, In c l' /\ R i c.
Proof.
  induction 1 as [|i' c l l' Hr _ IH]; simpl; [contradiction|].
  intros [<-|Hin].
  - exists c. auto.
  - destruct (IH Hin) as (c' & ? & ?). exists c'. auto.
Qed.

Lemma Forall2_map_eq {A B C : Type} (R : A -> B -> Prop) (f : A -> C) (g : B -> C)
      (l : list A) (l' : list B) :
  (forall i c, R i c -> g c = f i) -> Forall2 R l l' -> map g l' = map f l.
Proof.
  intros H. induction 1 as [|i c l l' Hr _ IH]; simpl; [reflexivity|].
  now rewrite (H i c Hr), IH.
Qed.

Lemma chunks_grid (random : nat -> Q) (Math_PI : Q) :
  Forall2 builtAt fieldIndices (chunks random Math_PI).
Proof. unfold chunks, builtAt, fieldIndices. apply generate_grid. Qed.

Lemma in_fieldIndices (x z : Z) :
  In (x, z) fieldIndices <-> (- 30 <= x < 30)%Z /\ (- 30 <= z < 30)%Z.
Proof.
  unfold fieldIndices. rewrite in_gridIndices.
  change (TOTAL_CHUNKS_SIDE / 2)%Z with 30%Z.
  change (Z.of_nat (Z.to_nat (30 - - 30))) with 60%Z. lia.
Qed.

Lemma builtAt_center (i : Z * Z) (c : Chunk) : builtAt i c -> center c = cellCenter i.
Proof.
  intros (Hx & Hz & _). unfold center, cellCenter. now rewrite Hx, Hz.
Qed.

(** The cell of a chunk on one axis, in terms of its grid index. *)
Lemma axis_cell (x cx : Z) (p : Q) :
  cx = (x * CHUNK_SIZE + CHUNK_SIZE / 2)%Z ->
  (inject_Z cx - inject_Z CHUNK_SIZE / 2 <= p /\
   p < inject_Z cx + inject_Z CHUNK_SIZE / 2) <->
  (2000 * inject_Z x <= p /\ p < 2000 * inject_Z x + 2000).
Proof.
  intros ->. change (CHUNK_SIZE / 2)%Z with 1000%Z. unfold CHUNK_SIZE.
  rewrite inject_Z_plus, inject_Z_mult.
  assert (E : inject_Z 2000 / 2 == 1000) by reflexivity. rewrite !E.
  change (inject_Z 2000) with 2000. change (inject_Z 1000) with 1000.
  split; intros [? ?]; split; lra.
Qed.

Lemma covers_cell (i : Z * Z) (c : Chunk) (px pz : Q) :
  builtAt i c ->
  covers c px pz <->
  (2000 * inject_Z (fst i) <= px /\ px < 2000 * inject_Z (fst i) + 2000) /\
  (2000 * inject_Z (snd i) <= pz /\ pz < 2000 * inject_Z (snd i) + 2000).
Proof.
  intros (Hx & Hz & _). unfold covers.
  rewrite <- (axis_cell (fst i) (centerX c) px Hx).
  rewrite <- (axis_cell (snd i) (centerZ c) pz Hz). tauto.
Qed.

(** A point on an axis of the world lies in one cell, of index within the
    grid. *)
Lemma axis_cell_exists (p : Q) :
  - inject_Z WORLD_EXTENT <= p -> p < inject_Z WORLD_EXTENT ->
  exists x : Z, (- 30 <= x < 30)%Z /\
                2000 * inject_Z x <= p /\ p < 2000 * inject_Z x + 2000.
Proof.
  unfold WORLD_EXTENT. change (inject_Z 60000) with 60000. intros Hlo Hhi.
  exists (Qfloor (p / 2000)).
  pose proof (Qfloor_le (p / 2000)) as Hf.
  pose proof (Qlt_floor (p / 2000)) as Hc.
  rewrite inject_Z_plus in Hc. change (inject_Z 1) with 1 in Hc.
  assert (Hp : p == 2000 * (p / 2000)) by field.
  set (q := p / 2000) in *. set (n := Qfloor q) in *.
  split; [|split; lra]. split.
  - assert (Hq : - 30 <= q) by lra.
    apply Qfloor_resp_le in Hq. exact Hq.
  - rewrite Zlt_Qlt. change (inject_Z 30) with 30. lra.
Qed.

Lemma axis_cell_unique (x x' : Z) (p : Q) :
  2000 * inject_Z x <= p /\ p < 2000 * inject_Z x + 2000 ->
  2000 * inject_Z x' <= p /\ p < 2000 * inject_Z x' + 2000 ->
  x = x'.
Proof.
  intros [H1 H2] [H3 H4].
  assert (A : inject_Z x < inject_Z (x' + 1))
    by (rewrite inject_Z_plus; change (inject_Z 1) with 1; lra).
  assert (B : inject_Z x' < inject_Z (x + 1))
    by (rewrite inject_Z_plus; change (inject_Z 1) with 1; lra).
  rewrite <- Zlt_Qlt in A, B. lia.
Qed.

Lemma cellCenter_injective (i j : Z * Z) : cellCenter i = cellCenter j -> i = j.
Proof.
  destruct i as [x z], j as [x' z']. unfold cellCenter, CHUNK_SIZE. simpl.
  intros E. injection E as Ex Ez. f_equal; lia.
Qed.

(** C8, the claim as stated fails on the batches: the high-detail and the
    low-detail batch of a chunk differ in more than tessellation, the first
    casts shadows and the second does not. *)
Lemma batches_differ_in_cast_shadow :
  ~ forall (random : nat -> Q) (Math_PI : Q) (c : Chunk),
      In c (chunks random Math_PI) ->
      sameButTessellation (meshHigh c) (meshLow c).
Proof.
  intros H. specialize (H (fun _ => 0) 3.14159).
  pose proof (chunks_grid (fun _ => 0) 3.14159) as F.
  revert H F. generalize (chunks (fun _ => 0) 3.14159). intros cs H F.
  assert (Hi : In (0, 0)%Z fieldIndices) by (apply in_fieldIndices; lia).
  destruct (Forall2_in_l builtAt fieldIndices cs (0, 0)%Z F Hi) as (c & Hc & Hb).
  destruct Hb as (_ & _ & _ & _ & _ & (Hh & Hl) & _).
  destruct (H c Hc) as (_ & _ & _ & _ & _ & Hs & _).
  rewrite Hh, Hl in Hs. discriminate Hs.
Qed.

(** The facts below hold of any list of chunks built cell by cell over the
    grid indices; they are stated for a list, so that no proof step looks
    into the loops that produce it. *)
Lemma grid_facts (cs : list Chunk) :
  Forall2 builtAt fieldIndices cs ->
  Z.of_nat (List.length cs) = (TOTAL_CHUNKS_SIDE * TOTAL_CHUNKS_SIDE)%Z /\
  NoDup (map center cs) /\
  (forall px pz : Q, inWorld px pz ->
     exists c : Chunk, In c cs /\ covers c px pz /\
       forall c' : Chunk, In c' cs -> covers c' px pz -> center c' = center c) /\
  (forall (c : Chunk) (px pz : Q), In c cs -> covers c px pz -> inWorld px pz) /\
  (forall c : Chunk, In c cs ->
     Z.of_nat (count (meshHigh c)) = INSTANCES_PER_CHUNK /\
     Z.of_nat (count (meshLow c)) = INSTANCES_PER_CHUNK /\
     Z.of_nat (List.length (instanceMatrix (meshHigh c))) = INSTANCES_PER_CHUNK /\
     Z.of_nat (List.length (instanceMatrix (meshLow c))) = INSTANCES_PER_CHUNK /\
     instanceMatrix (meshHigh c) = instanceMatrix (meshLow c) /\
     sameButTessellationAndCastShadow (meshHigh c) (meshLow c) /\
     heightSegments (geometry (meshHigh c)) = 3%Z /\
     heightSegments (geometry (meshLow c)) = 1%Z /\
     castShadow (meshHigh c) = true /\ castShadow (meshLow c) = false).
Proof.
  intros F.
  assert (Hmap : map center cs = map cellCenter fieldIndices).
  { apply (Forall2_map_eq builtAt); [apply builtAt_center|exact F]. }
  split; [|split; [|split; [|split]]].
  - rewrite <- (Forall2_length F). unfold fieldIndices.
    rewrite gridIndices_length. reflexivity.
  - rewrite Hmap. apply NoDup_map_NoDup_ForallPairs.
    + intros i j _ _. apply cellCenter_injective.
    + unfold fieldIndices, gridIndices. apply NoDup_pairs; apply NoDup_zrange.
  - intros px pz (Hx0 & Hx1 & Hz0 & Hz1).
    destruct (axis_cell_exists px Hx0 Hx1) as (x & Hx & Hcx).
    destruct (axis_cell_exists pz Hz0 Hz1) as (z & Hz & Hcz).
    assert (Hi : In (x, z) fieldIndices) by (apply in_fieldIndices; split; assumption).
    destruct (Forall2_in_l builtAt fieldIndices cs (x, z) F Hi) as (c & Hc & Hb).
    exists c. split; [exact Hc|]. split.
    + apply (covers_cell (x, z) c px pz Hb). split; assumption.
    + intros c' Hc' Hcov.
      destruct (Forall2_in_r builtAt fieldIndices cs c' F Hc') as ([x' z'] & _ & Hb').
      apply (covers_cell (x', z') c' px pz Hb') in Hcov. cbn [fst snd] in Hcov.
      destruct Hcov as [Hx' Hz'].
      rewrite (builtAt_center _ _ Hb), (builtAt_center _ _ Hb').
      rewrite (axis_cell_unique x' x px Hx' Hcx), (axis_cell_unique z' z pz Hz' Hcz).
      reflexivity.
  - intros c px pz Hc Hcov.
    destruct (Forall2_in_r builtAt fieldIndices cs c F Hc) as ([x z] & Hi & Hb).
    apply in_fieldIndices in Hi. destruct Hi as [Hx Hz].
    apply (covers_cell (x, z) c px pz Hb) in Hcov. cbn [fst snd] in Hcov.
    destruct Hcov as [[A B] [C D]].
    unfold inWorld, WORLD_EXTENT. change (inject_Z 60000) with 60000.
    assert (X0 : - 30 <= inject_Z x)
      by (change (- 30) with (inject_Z (- 30)); rewrite <- Zle_Qle; lia).
    assert (X1 : inject_Z x <= 29)
      by (change 29 with (inject_Z 29); rewrite <- Zle_Qle; lia).
    assert (Z0 : - 30 <= inject_Z z)
      by (change (- 30) with (inject_Z (- 30)); rewrite <- Zle_Qle; lia).
    assert (Z1 : inject_Z z <= 29)
      by (change 29 with (inject_Z 29); rewrite <- Zle_Qle; lia).
    split; [lra|]. split; [lra|]. split; lra.
  - intros c Hc.
    destruct (Forall2_in_r builtAt fieldIndices cs c F Hc) as (i & _ & Hb).
    destruct Hb as (_ & _ & (Gh & Gl) & (Mh & Ml) & (Ch & Cl) & (Sh & Sl)
                    & (Rh & Rl) & E & L).
    assert (H5000 : Z.of_nat (Z.to_nat INSTANCES_PER_CHUNK) = INSTANCES_PER_CHUNK)
      by (apply Z2Nat.id; unfold INSTANCES_PER_CHUNK; lia).
    unfold sameButTessellationAndCastShadow.
    rewrite Ch, Cl, <- E, L, H5000, Gh, Gl, Mh, Ml, Rh, Rl, Sh, Sl.
    repeat split.
Qed.

(** C8, as the code has it.  The chunk centres do not depend on the random
    draws; there are [TOTAL_CHUNKS_SIDE] squared chunks, no two at the same
    place; every point of the world extent lies in the cell of one chunk and
    of no chunk placed elsewhere, and no cell reaches outside the extent;
    every chunk has two batches of [INSTANCES_PER_CHUNK] instances each, with
    the same matrix in every slot, the same material and size of blade and
    the same receive-shadow flag, the high one with three height segments and
    casting shadows, the low one with one segment and casting none. *)
Theorem field_grid_tiles_world (random : nat -> Q) (Math_PI : Q) :
  (forall (random' : nat -> Q) (Math_PI' : Q),
     map center (chunks random' Math_PI') = map center (chunks random Math_PI)) /\
  Z.of_nat (List.length (chunks random Math_PI))
    = (TOTAL_CHUNKS_SIDE * TOTAL_CHUNKS_SIDE)%Z /\
  NoDup (map center (chunks random Math_PI)) /\
  (forall px pz : Q, inWorld px pz ->
     exists c : Chunk, In c (chunks random Math_PI) /\ covers c px pz /\
       forall c' : Chunk, In c' (chunks random Math_PI) -> covers c' px pz ->
                          center c' = center c) /\
  (forall (c : Chunk) (px pz : Q),
     In c (chunks random Math_PI) -> covers c px pz -> inWorld px pz) /\
  (forall c : Chunk, In c (chunks random Math_PI) ->
     Z.of_nat (count (meshHigh c)) = INSTANCES_PER_CHUNK /\
     Z.of_nat (count (meshLow c)) = INSTANCES_PER_CHUNK /\
     Z.of_nat (List.length (instanceMatrix (meshHigh c))) = INSTANCES_PER_CHUNK /\
     Z.of_nat (List.length (instanceMatrix (meshLow c))) = INSTANCES_PER_CHUNK /\
     instanceMatrix (meshHigh c) = instanceMatrix (meshLow c) /\
     sameButTessellationAndCastShadow (meshHigh c) (meshLow c) /\
     heightSegments (geometry (meshHigh c)) = 3%Z /\
     heightSegments (geometry (meshLow c)) = 1%Z /\
     castShadow (meshHigh c) = true /\ castShadow (meshLow c) = false).
Proof.
  split.
  - intros r q.
    rewrite (Forall2_map_eq builtAt cellCenter center fieldIndices (chunks r q)
               builtAt_center (chunks_grid r q)).
    rewrite (Forall2_map_eq builtAt cellCenter center fieldIndices
               (chunks random Math_PI) builtAt_center (chunks_grid random Math_PI)).
    reflexivity.
  - exact (grid_facts (chunks random Math_PI) (chunks_grid random Math_PI)).
Qed.

(** The loops on a grid of 2 by 2 chunks of 2 instances each. *)
Example small_grid :
  let cs := fst (generate (fun n => inject_Z (Z.of_nat n) / 100) 3.14159 1 2000 2) in
  map center cs = [(-1000, -1000); (-1000, 1000); (1000, -1000); (1000, 1000)]%Z /\
  map (fun c => List.length (instanceMatrix (meshHigh c))) cs = [2; 2; 2; 2]%nat /\
  map (fun c => m_px (nth 1 (instanceMatrix (meshLow c)) unsetMatrix)) cs
    = [-920.000; -760.000; -600.000; -440.000].
Proof. repeat split. Qed.

End FieldTheory.

(** ** The shop during play *)

Module ShopFlowTheory.
Import App ShopFlow AppTheory.

Open Scope string_scope.


Lemma equipOne_cost (item i : StoreItem) : cost (equipOne item i) = cost i.
Proof. rewrite equipOne_spec. now destruct (ItemType_eqb _ _). Qed.

Lemma equipOne_unlocked (item i : StoreItem) : unlocked (equipOne item i) = unlocked i.
Proof. rewrite equipOne_spec. now destruct (ItemType_eqb _ _). Qed.

Lemma map_cost_equip (item : StoreItem) (l : list StoreItem) :
  map cost (handleEquipItems item l) = map cost l.
Proof.
  unfold handleEquipItems. destruct (negb _); [reflexivity|].
  rewrite map_map. apply map_ext. intros. apply equipOne_cost.
Qed.

Lemma map_cost_purchase (r : Shop) (item : StoreItem) (s : Shop) :
  map cost (storeItems (handlePurchase r item s)) = map cost (storeItems s).
Proof.
  unfold handlePurchase. destruct (_ && _); [simpl|reflexivity].
  rewrite map_map. apply map_ext. intros i. now destruct (id i =? id item).
Qed.

Lemma reachable_account (s : Shop) : reachable s -> accountInv s.
Proof.
  induction 1 as [|s Hr IH|s item Hr IH Hin|s item Hr IH Hin].
  - split; [reflexivity|]. split; [simpl; lia|].
    simpl. intros i Hi Ha.
    repeat (destruct Hi as [<-|Hi]; [simpl in *; congruence|]). contradiction.
  - destruct IH as (Hc & Hx & Ha). split; [exact Hc|]. split; [simpl; lia|exact Ha].
  - destruct IH as (Hc & Hx & Ha). split; [now rewrite map_cost_purchase|].
    unfold handlePurchase.
    destruct ((cost item <=? xp s)%Z && negb (unlocked item)) eqn:E.
    + apply andb_prop in E. destruct E as [E _]. apply Z.leb_le in E.
      split; [simpl; lia|]. simpl. intros i Hi Hact.
      apply in_map_iff in Hi. destruct Hi as (j & <- & Hj).
      destruct (id j =? id item); [reflexivity|]. now apply Ha.
    + now split.
  - destruct IH as (Hc & Hx & Ha).
    destruct (reachable_inv s Hr) as (Hid & _).
    assert (Hnd : NoDup (map id (storeItems s))) by (rewrite Hid; apply initial_ids_nodup).
    split; [simpl; now rewrite map_cost_equip|]. split; [exact Hx|].
    simpl. unfold handleEquipItems. destruct (unlocked item) eqn:Hu; [|exact Ha].
    simpl. intros i Hi Hact. apply in_map_iff in Hi. destruct Hi as (j & <- & Hj).
    rewrite equipOne_unlocked. rewrite equipOne_spec in Hact.
    destruct (ItemType_eqb (type j) (type item)); [|now apply Ha].
    simpl in Hact. apply String.eqb_eq in Hact.
    now rewrite (id_names_item (storeItems s) j item Hnd Hj Hin Hact).
Qed.

(** *** The balance is conserved *)









(** *** A purchase *)

Lemma findActive_unlock (t : ItemType) (item : StoreItem) (l : list StoreItem) :
  findActive t (map (unlockIt item) l) = option_map (unlockIt item) (findActive t l).
Proof.
  unfold findActive. induction l as [|a l IH]; [reflexivity|].
  simpl. assert (E : ItemType_eqb (type (unlockIt item a)) t && active (unlockIt item a)
                     = ItemType_eqb (type a) t && active a)
    by (unfold unlockIt; now destruct (id a =? id item)).
  rewrite E. destruct (ItemType_eqb (type a) t && active a); [reflexivity|exact IH].
Qed.

Lemma idOr_unlock (item : StoreItem) (o : option StoreItem) (fallback : string) :
  idOr (option_map (unlockIt item) o) fallback = idOr o fallback.
Proof.
  destruct o as [i|]; [|reflexivity]. simpl.
  unfold unlockIt. now destruct (id i =? id item).
Qed.

(** X3.  A purchase of an item of the store, made from the render that shows
    the store as it is, goes through exactly when the item is locked and the
    balance covers its cost: then the balance drops by the cost, this one
    item becomes unlocked, every other item stays as it is, and nothing gets
    equipped; otherwise the shop is unchanged. *)
Theorem purchase_unlocks_one_item (s : Shop) (item : StoreItem) :
  reachable s -> In item (storeItems s) ->
  (unlocked item = false -> (cost item <= xp s)%Z ->
     xp (handlePurchase s item s) = (xp s - cost item)%Z /\
     In (set_unlocked item) (storeItems (handlePurchase s item s)) /\
     (forall i, In i (storeItems s) -> i <> item ->
                In i (storeItems (handlePurchase s item s))) /\
     List.length (storeItems (handlePurchase s item s)) = List.length (storeItems s) /\
     map active (storeItems (handlePurchase s item s)) = map active (storeItems s) /\
     activeSkin (handlePurchase s item s) = activeSkin s /\
     activeCompanion (handlePurchase s item s) = activeCompanion s) /\
  (unlocked item = true \/ (xp s < cost item)%Z -> handlePurchase s item s = s).
Proof.
  intros Hr Hin. destruct (reachable_inv s Hr) as (Hid & _).
  assert (Hnd : NoDup (map id (storeItems s))) by (rewrite Hid; apply initial_ids_nodup).
  split.
  - intros Hu Hx. unfold handlePurchase.
    apply Z.leb_le in Hx. rewrite Hx, Hu. simpl.
    change (map (fun i => if id i =? id item then set_unlocked i else i)
                (storeItems s)) with (map (unlockIt item) (storeItems s)).
    split; [reflexivity|]. split; [|split; [|split; [|split; [|split]]]].
    + apply in_map_iff. exists item. split; [|exact Hin].
      unfold unlockIt. now rewrite String.eqb_refl.
    + intros i Hi Hne. apply in_map_iff. exists i. split; [|exact Hi].
      unfold unlockIt. destruct (id i =? id item) eqn:E; [|reflexivity].
      apply String.eqb_eq in E. exfalso. apply Hne.
      exact (id_names_item (storeItems s) i item Hnd Hi Hin E).
    + apply length_map.
    + rewrite map_map. apply map_ext. intros i. unfold unlockIt.
      now destruct (id i =? id item).
    + unfold activeSkin. simpl. now rewrite findActive_unlock, idOr_unlock.
    + unfold activeCompanion. simpl. now rewrite findActive_unlock, idOr_unlock.
  - intros [Hu|Hx]; unfold handlePurchase.
    + rewrite Hu. now rewrite andb_false_r.
    + apply Z.leb_gt in Hx. now rewrite Hx.
Qed.

(** The statement above for the cube, bought with the XP of one shard. *)
Lemma purchase_cube_with_one_shard :
  xp (handlePurchase (handleCollectShard initialShop)
                     (mkItem "skin_cube" "量子立方" skin 50 false false
                             "来自数字维度的几何体。")
                     (handleCollectShard initialShop)) = 0%Z /\
  activeSkin (handlePurchase (handleCollectShard initialShop)
                             (mkItem "skin_cube" "量子立方" skin 50 false false
                                     "来自数字维度的几何体。")
                             (handleCollectShard initialShop)) = "skin_default".
Proof.
  destruct (purchase_unlocks_one_item (handleCollectShard initialShop)
              (mkItem "skin_cube" "量子立方" skin 50 false false "来自数字维度的几何体。")
              (reach_collect initialShop reach_init)
              (or_intror (or_introl eq_refl))) as [H _].
  destruct (H eq_refl ltac:(simpl; lia)) as (H1 & _ & _ & _ & _ & H2 & _).
  split; [exact H1 | exact H2].
Defined.

(** *** The cards of the overlay *)

(** X4.  What a card of the shop offers is what its click does, the card
    being the one of the render that shows the store as it is.  The equip
    button (unlocked, not active) makes the item the active one of its type
    and turns the card into the check mark; the enabled purchase button
    (locked, affordable) unlocks the item, takes its cost and turns the card
    into the equip button; behind a disabled purchase button or a check mark
    the handlers would change nothing. *)
Theorem card_click_flow (s : Shop) (item : StoreItem) :
  reachable s -> In item (storeItems s) ->
  match cardControl item (xp s) with
  | EquipButton =>
      activeOf (type item) (click item s) = id item /\
      In (set_active true item) (storeItems (click item s)) /\
      cardControl (set_active true item) (xp (click item s)) = EquippedMark
  | PurchaseButton true =>
      In (set_unlocked item) (storeItems (click item s)) /\
      cardControl (set_unlocked item) (xp (click item s)) = EquipButton /\
      xp (click item s) = (xp s - cost item)%Z
  | PurchaseButton false => handlePurchase s item s = s
  | EquippedMark => handleEquip item s = s
  end.
Proof.
  intros Hr Hin. unfold click.
  destruct (reachable_account s Hr) as (_ & _ & Hau).
  destruct (cardControl item (xp s)) as [| |[|]] eqn:Hcc; unfold cardControl in Hcc.
  - destruct (unlocked item) eqn:Hu; [|discriminate].
    destruct (active item) eqn:Ha; [|discriminate].
    exact (CosmeticTheory.handleEquip_active_noop s item Hr Hin Ha).
  - destruct (unlocked item) eqn:Hu; [|discriminate].
    destruct (active item) eqn:Ha; [discriminate|].
    assert (Hr' : reachable (handleEquip item s)) by now apply reach_equip.
    destruct (reachable_inv _ Hr') as (Hid' & Hs' & Hc').
    assert (Hitem : In (set_active true item) (storeItems (handleEquip item s))).
    { simpl. unfold handleEquipItems. rewrite Hu. simpl.
      apply in_map_iff. exists item. split; [|exact Hin].
      now rewrite equipOne_spec, ItemType_eqb_refl, String.eqb_refl. }
    split; [|split; [exact Hitem|]].
    + destruct (type item) eqn:Ht; unfold activeOf.
      * destruct (selector_defined skin "skin_default" _ Hid' Hs')
          as (i & _ & Hi & Hti & Hai & Hsel).
        unfold activeSkin. rewrite Hsel.
        now rewrite (CosmeticTheory.active_unique skin _ i (set_active true item)
                       Hs' Hi Hti Hai Hitem Ht eq_refl).
      * destruct (selector_defined companion "comp_butterfly" _ Hid' Hc')
          as (i & _ & Hi & Hti & Hai & Hsel).
        unfold activeCompanion. rewrite Hsel.
        now rewrite (CosmeticTheory.active_unique companion _ i (set_active true item)
                       Hc' Hi Hti Hai Hitem Ht eq_refl).
    + unfold cardControl. simpl. now rewrite Hu.
  - destruct (unlocked item) eqn:Hu; [destruct (active item); discriminate|].
    injection Hcc as Hx.
    unfold handlePurchase. rewrite Hx, Hu. simpl.
    split; [|split; [|reflexivity]].
    + apply in_map_iff. exists item. split; [|exact Hin].
      now rewrite String.eqb_refl.
    + unfold cardControl. simpl.
      destruct (active item) eqn:Ha; [|reflexivity].
      rewrite (Hau item Hin Ha) in Hu. discriminate.
  - destruct (unlocked item) eqn:Hu; [destruct (active item); discriminate|].
    injection Hcc as Hx. unfold handlePurchase. now rewrite Hx.
Qed.

(** The statement above for the card of the cube after one shard. *)
Lemma card_of_cube_after_one_shard :
  xp (click (mkItem "skin_cube" "量子立方" skin 50 false false "来自数字维度的几何体。")
            (handleCollectShard initialShop)) = 0%Z.
Proof.
  pose proof (card_click_flow (handleCollectShard initialShop)
                (mkItem "skin_cube" "量子立方" skin 50 false false "来自数字维度的几何体。")
                (reach_collect initialShop reach_init)
                (or_intror (or_introl eq_refl))) as H.
  simpl in H. destruct H as (_ & _ & H). exact H.
Defined.

(** *** Clicks that reach the handlers of an earlier render *)





Lemma spent_nonneg_step (a : StoreItem) (l : list StoreItem) :
  (0 <= cost a)%Z -> (spent l <= spent (a :: l))%Z.
Proof. intros H. cbn [spent fold_right]. fold (spent l). destruct (unlocked a); lia. Qed.










End ShopFlowTheory.

(** ** The hand line of the overlay and the motion *)

Module HudTheory.
Import Sim Hud.

Open Scope Q_scope.

(** X11.  The hand line of the stats panel against what the player does: a
    player that moves forward is always labelled as approaching, the label
    for receding is shown exactly when the player moves backward, and the
    label for still means no depth speed; but for hand sizes above 0.13 and
    up to 0.14 the panel says approaching while the depth speed is 0. *)
Theorem hud_hand_label_and_motion (st : SystemState) :
  (speedZ st < 0 -> handLabel st = Approaching) /\
  (0 < speedZ st <-> handLabel st = Receding) /\
  (handLabel st = Still -> speedZ st == 0) /\
  (0.13 < handSize st /\ handSize st <= 0.14 ->
     handLabel st = Approaching /\ speedZ st == 0).
Proof.
  unfold handLabel, speedZ, DEPTH_GAIN, SIZE_DEADZONE, NEUTRAL_SIZE.
  set (h := handSize st).
  destruct (Qlt_bool 0.02 (Qabs (h - 0.12))) eqn:E.
  - apply Qlt_bool_true in E.
    destruct (Qlt_bool 0.13 h) eqn:E1.
    + apply Qlt_bool_true in E1.
      assert (Hh : 0.14 < h) by (revert E; apply Qabs_case; intros; lra).
      split; [reflexivity|]. split; [split; [intros; lra|discriminate]|].
      split; [discriminate|]. intros [_ H]. lra.
    + apply Qlt_bool_false in E1.
      assert (Hh : h < 0.10) by (revert E; apply Qabs_case; intros; lra).
      apply Qlt_bool_true in Hh. rewrite Hh. apply Qlt_bool_true in Hh.
      split; [intros; lra|]. split; [split; [reflexivity|intros; lra]|].
      split; [discriminate|]. intros [H _]. lra.
  - apply Qlt_bool_false in E.
    assert (Hh : 0.10 <= h /\ h <= 0.14) by (revert E; apply Qabs_case; intros; lra).
    destruct Hh as [Hlo Hhi].
    apply Qlt_bool_false in Hlo. rewrite Hlo.
    split; [intros H; lra|].
    destruct (Qlt_bool 0.13 h) eqn:E1.
    + split; [split; [intros; lra|discriminate]|].
      split; [discriminate|]. intros _. split; reflexivity.
    + apply Qlt_bool_false in E1.
      split; [split; [intros; lra|discriminate]|].
      split; [reflexivity|]. intros [H _]. lra.
Qed.

End HudTheory.

(** ** The tracking callbacks *)

Module TrackingTheory.
Import Sim Tracking SimTheory.

Open Scope Q_scope.

Lemma setHand_turn (x y size : Q) (fist : bool) (st : SystemState) :
  turn (setHand x y size fist st) = x * TURN_GAIN.
Proof. reflexivity. Qed.

(** X5.  [hands.onResults] writes the hand fields only.  Without a hand it
    writes the neutral hand; a missing hand, a hand of fewer than 21
    landmarks, or one without palm centre or wrist, is ignored; otherwise the position is the palm
    centre mirrored in x and flipped in y, inside [[-1, 1]] on both axes when
    the palm centre is inside the image, so that the turn rate the tick
    derives from it is at most the gain. *)
Theorem hand_results_write_the_hand_only
    (Math_hypot : Q -> Q -> Q) (results : list (option (list (option Landmark))))
    (st : SystemState) :
  emotion (onHandResults Math_hypot results st) = emotion st /\
  mouthCurvature (onHandResults Math_hypot results st) = mouthCurvature st /\
  soundAmplitude (onHandResults Math_hypot results st) = soundAmplitude st /\
  mouthOpenness (onHandResults Math_hypot results st) = mouthOpenness st /\
  soundFrequency (onHandResults Math_hypot results st) = soundFrequency st /\
  (results = [] ->
     onHandResults Math_hypot results st = setHand 0 0 0.12 false st) /\
  (forall rest, results = None :: rest ->
     onHandResults Math_hypot results st = st) /\
  (forall landmarks rest,
     results = Some landmarks :: rest ->
     (List.length landmarks < 21)%nat \/ nth_error landmarks 9 = Some None \/
     nth_error landmarks 0 = Some None ->
     onHandResults Math_hypot results st = st) /\
  (forall landmarks rest palmCenter wrist,
     results = Some landmarks :: rest -> (21 <= List.length landmarks)%nat ->
     nth_error landmarks 9 = Some (Some palmCenter) ->
     nth_error landmarks 0 = Some (Some wrist) ->
     v2x (handPosition (onHandResults Math_hypot results st)) == 1 - 2 * lx palmCenter /\
     v2y (handPosition (onHandResults Math_hypot results st)) == 1 - 2 * ly palmCenter /\
     handSize (onHandResults Math_hypot results st)
       = Math_hypot (lx palmCenter - lx wrist) (ly palmCenter - ly wrist) /\
     (0 <= lx palmCenter <= 1 -> 0 <= ly palmCenter <= 1 ->
        Qabs (v2x (handPosition (onHandResults Math_hypot results st))) <= 1 /\
        Qabs (v2y (handPosition (onHandResults Math_hypot results st))) <= 1 /\
        Qabs (turn (onHandResults Math_hypot results st)) <= TURN_GAIN)).
Proof.
  assert (Hkeep : emotion (onHandResults Math_hypot results st) = emotion st /\
                  mouthCurvature (onHandResults Math_hypot results st) = mouthCurvature st /\
                  soundAmplitude (onHandResults Math_hypot results st) = soundAmplitude st /\
                  mouthOpenness (onHandResults Math_hypot results st) = mouthOpenness st /\
                  soundFrequency (onHandResults Math_hypot results st)
                  = soundFrequency st).
  { unfold onHandResults.
    destruct results as [|[landmarks|] rest]; [now repeat split| |now repeat split].
    destruct (List.length landmarks <? 21)%nat; [now repeat split|].
    destruct (nth_error landmarks 9) as [[p|]|]; try (now repeat split).
    destruct (nth_error landmarks 0) as [[w|]|]; now repeat split. }
  destruct Hkeep as (K1 & K2 & K3 & K4 & K5).
  split; [exact K1|]. split; [exact K2|]. split; [exact K3|].
  split; [exact K4|]. split; [exact K5|].
  split; [intros ->; reflexivity|]. split; [intros rest ->; reflexivity|]. split.
  - intros landmarks rest -> H. unfold onHandResults.
    destruct (List.length landmarks <? 21)%nat eqn:E; [reflexivity|].
    apply Nat.ltb_ge in E. destruct H as [H|[H|H]]; [lia| |].
    + now rewrite H.
    + rewrite H. now destruct (nth_error landmarks 9) as [[p|]|].
  - intros landmarks rest palmCenter wrist -> Hlen H9 H0.
    unfold onHandResults. apply Nat.ltb_ge in Hlen. rewrite Hlen, H9, H0.
    cbn [setHand handPosition handSize v2x v2y].
    split; [ring|]. split; [ring|]. split; [reflexivity|].
    intros Hx Hy. rewrite setHand_turn.
    assert (Ax : Qabs ((1 - lx palmCenter) * 2 - 1) <= 1)
      by (apply Qabs_Qle_condition; split; lra).
    split; [exact Ax|]. split; [apply Qabs_Qle_condition; split; lra|].
    rewrite Qabs_Qmult. unfold TURN_GAIN. rewrite (Qabs_pos 2.5) by lra. lra.
Qed.

(** *** A lost hand *)

Lemma idle_targets (Math_hypot : Q -> Q -> Q) (st : SystemState) :
  turn (onHandResults Math_hypot [] st) == 0 /\
  speedZ (onHandResults Math_hypot [] st) == 0.
Proof. split; reflexivity. Qed.

Lemma updateVelocity_y (state : SystemState) (v : Vector2) :
  v2y (updateVelocity state v) == lerp1 (v2y v) (speedZ state) 0.1.
Proof. unfold updateVelocity, lerp1. simpl. lra. Qed.

Lemma moveAfter_velocity (n : nat) (state : SystemState) (v : Vector2) (p : Vector3) :
  fst (moveAfter n state v p) = velocityAfter n state v.
Proof.
  induction n as [|n IH]; [reflexivity|].
  cbn [moveAfter velocityAfter]. destruct (moveAfter n state v p) as [v1 p1].
  simpl in *. now rewrite IH.
Qed.

(** With both targets at 0 a tick scales the velocity by 0.9. *)
Lemma idle_velocity_step (state : SystemState) (v : Vector2) :
  turn state == 0 -> speedZ state == 0 ->
  v2x (updateVelocity state v) == 0.9 * v2x v /\
  v2y (updateVelocity state v) == 0.9 * v2y v.
Proof.
  intros Ht Hs. unfold updateVelocity. cbn [v2x v2y]. rewrite Ht, Hs. split; ring.
Qed.

(** The velocity keeps its sign and shrinks, and the way made is 5.4 times
    the velocity lost. *)
Lemma idle_coast (n : nat) (state : SystemState) (v : Vector2) (p : Vector3) :
  turn state == 0 -> speedZ state == 0 ->
  let v' := fst (moveAfter n state v p) in
  let p' := snd (moveAfter n state v p) in
  Qabs (v2x v') <= Qabs (v2x v) /\ Qabs (v2y v') <= Qabs (v2y v) /\
  0 <= v2x v * v2x v' /\ 0 <= v2y v * v2y v' /\
  v3x p' - v3x p == 5.4 * (v2x v - v2x v') /\
  v3z p' - v3z p == 5.4 * (v2y v - v2y v') /\
  v3y p' = v3y p.
Proof.
  intros Ht Hs. induction n as [|n IH].
  - cbn [moveAfter fst snd]. repeat split; try apply Qle_refl; try ring; nra.
  - cbn [moveAfter]. destruct (moveAfter n state v p) as [v1 p1].
    cbn [fst snd] in *. destruct IH as (A1 & A2 & S1 & S2 & X & Z & Y).
    destruct (idle_velocity_step state v1 Ht Hs) as [E1 E2].
    unfold updatePosition, moveSpeed. cbn [v3x v3y v3z].
    set (w := updateVelocity state v1) in *.
    split; [|split; [|split; [|split; [|split; [|split]]]]].
    + rewrite E1, Qabs_Qmult, (Qabs_pos 0.9) by lra.
      pose proof (Qabs_nonneg (v2x v1)). lra.
    + rewrite E2, Qabs_Qmult, (Qabs_pos 0.9) by lra.
      pose proof (Qabs_nonneg (v2y v1)). lra.
    + rewrite E1. nra.
    + rewrite E2. nra.
    + rewrite E1. lra.
    + rewrite E2. lra.
    + exact Y.
Qed.

Lemma abs_lost (a b : Q) : Qabs b <= Qabs a -> 0 <= a * b -> Qabs (a - b) <= Qabs a.
Proof.
  intros H S. revert H. apply (Qabs_case a); intros Ha;
    apply (Qabs_case b); intros Hb H; apply Qabs_Qle_condition; split; nra.
Qed.

Lemma velocityAfter_shift (n : nat) (state : SystemState) (v : Vector2) :
  velocityAfter (S n) state v = velocityAfter n state (updateVelocity state v).
Proof.
  induction n as [|n IH]; [reflexivity|].
  cbn [velocityAfter] in *. now rewrite IH.
Qed.

Lemma moveAfter_shift (n : nat) (state : SystemState) (v : Vector2) (p : Vector3) :
  moveAfter (S n) state v p
  = moveAfter n state (updateVelocity state v)
              (updatePosition (updateVelocity state v) p).
Proof.
  induction n as [|n IH]; [reflexivity|].
  change (moveAfter (S (S n)) state v p)
    with (let '(v1, p1) := moveAfter (S n) state v p in
          let v2 := updateVelocity state v1 in (v2, updatePosition v2 p1)).
  rewrite IH. reflexivity.
Qed.

(** The movement of the frame loop under one input that is not paused: as
    long as the player is in bounds, velocity and position are the ones of
    [velocityAfter] and [moveAfter]. *)
Lemma run_moves (Math_sin Math_cos : Q -> Q) (random : nat -> Q)
    (f : Frame) (n : nat) (w : World) :
  isPaused f = false ->
  outOfBounds (playerPosition (fst (Sim.run Math_sin Math_cos random (repeat f n) w)))
    = false ->
  playerVelocity (fst (Sim.run Math_sin Math_cos random (repeat f n) w))
    = velocityAfter n (state f) (playerVelocity w) /\
  playerPosition (fst (Sim.run Math_sin Math_cos random (repeat f n) w))
    = snd (moveAfter n (state f) (playerVelocity w) (playerPosition w)).
Proof.
  intros Hp. revert w. induction n as [|n IH]; intros w Hin; [now split|].
  cbn [repeat Sim.run] in *.
  destruct (outOfBounds (playerPosition w)) eqn:Ho.
  - exfalso. rewrite (SimTheory.animate_out Math_sin Math_cos random f w Hp Ho) in Hin.
    destruct (SimTheory.run_out_of_bounds Math_sin Math_cos random (repeat f n)
                (tickClock w) Ho) as (P & _).
    destruct (Sim.run Math_sin Math_cos random (repeat f n) (tickClock w)) as [w2 ev2].
    cbn [fst] in *. rewrite P in Hin. cbn [tickClock playerPosition] in Hin. congruence.
  - rewrite (SimTheory.animate_running Math_sin Math_cos random f w Hp Ho) in *.
    assert (A : playerVelocity (fst (Sim.advance Math_sin Math_cos random f
                                       (timeRef w + 0.01) w))
                = updateVelocity (state f) (playerVelocity w) /\
                playerPosition (fst (Sim.advance Math_sin Math_cos random f
                                       (timeRef w + 0.01) w))
                = updatePosition (updateVelocity (state f) (playerVelocity w))
                                 (playerPosition w)).
    { unfold Sim.advance. destruct (Sim.shardLoop _ _ _ _ _ _ _) as [[l k] ev].
      split; reflexivity. }
    destruct (Sim.advance Math_sin Math_cos random f (timeRef w + 0.01) w) as [w1 ev1].
    cbn [fst] in A. destruct A as [Av Ap].
    specialize (IH w1).
    destruct (Sim.run Math_sin Math_cos random (repeat f n) w1) as [w2 ev2].
    cbn [fst] in *. destruct (IH Hin) as [Iv Ip].
    rewrite velocityAfter_shift, moveAfter_shift, <- Ap, <- Av. now split.
Qed.

(** X6.  When the hand is lost the tracker writes the neutral hand, for
    which both the turn rate and the depth speed are 0.  From then on every
    tick scales both velocity components by 0.9: they shrink, fall below any
    positive bound, and the player coasts no farther than 5.4 times the
    velocity it had, on either axis.  The velocity and the position meant are
    the ones of the frame loop: under frames that read the neutral hand and
    are not paused, the player of the loop has them for as long as it is in
    bounds. *)
Theorem lost_hand_brings_player_to_rest
    (Math_hypot : Q -> Q -> Q) (Math_sin Math_cos : Q -> Q) (random : nat -> Q)
    (st : SystemState) (v : Vector2) (p : Vector3) :
  let idle := onHandResults Math_hypot [] st in
  turn idle == 0 /\ speedZ idle == 0 /\
  (forall u : Vector2,
     v2x (updateVelocity idle u) == 0.9 * v2x u /\
     v2y (updateVelocity idle u) == 0.9 * v2y u) /\
  (forall n : nat,
     v2x (velocityAfter (S n) idle v) == 0.9 * v2x (velocityAfter n idle v) /\
     v2y (velocityAfter (S n) idle v) == 0.9 * v2y (velocityAfter n idle v)) /\
  (forall n : nat,
     Qabs (v2x (velocityAfter (S n) idle v)) <= Qabs (v2x (velocityAfter n idle v)) /\
     Qabs (v2y (velocityAfter (S n) idle v)) <= Qabs (v2y (velocityAfter n idle v))) /\
  (forall eps : Q, 0 < eps ->
     exists N : nat, forall m : nat, (N <= m)%nat ->
       Qabs (v2x (velocityAfter m idle v)) < eps /\
       Qabs (v2y (velocityAfter m idle v)) < eps) /\
  (forall n : nat,
     Qabs (v3x (snd (moveAfter n idle v p)) - v3x p) <= 5.4 * Qabs (v2x v) /\
     Qabs (v3z (snd (moveAfter n idle v p)) - v3z p) <= 5.4 * Qabs (v2y v)) /\
  (forall (f : Frame) (n : nat) (w : World),
     isPaused f = false -> state f = idle ->
     outOfBounds (playerPosition (fst (Sim.run Math_sin Math_cos random (repeat f n) w)))
       = false ->
     playerVelocity (fst (Sim.run Math_sin Math_cos random (repeat f n) w))
       = velocityAfter n idle (playerVelocity w) /\
     playerPosition (fst (Sim.run Math_sin Math_cos random (repeat f n) w))
       = snd (moveAfter n idle (playerVelocity w) (playerPosition w))).
Proof.
  intros idle. destruct (idle_targets Math_hypot st) as [Ht Hs]. fold idle in Ht, Hs.
  split; [exact Ht|]. split; [exact Hs|].
  split; [|split; [|split; [|split; [|split]]]].
  - intros u. now apply idle_velocity_step.
  - intros n. cbn [velocityAfter]. now apply idle_velocity_step.
  - intros n. cbn [velocityAfter].
    destruct (idle_velocity_step idle (velocityAfter n idle v) Ht Hs) as [E1 E2].
    rewrite E1, E2, !Qabs_Qmult, (Qabs_pos 0.9) by lra.
    pose proof (Qabs_nonneg (v2x (velocityAfter n idle v))).
    pose proof (Qabs_nonneg (v2y (velocityAfter n idle v))). split; lra.
  - intros eps He.
    destruct (lerpAfter_converges (v2x v) 0 0.1 eps) as [N1 H1]; try lra.
    destruct (lerpAfter_converges (v2y v) 0 0.1 eps) as [N2 H2]; try lra.
    exists (Nat.max N1 N2). intros m Hm. split.
    + assert (Ex : v2x (velocityAfter m idle v) == lerpAfter m (v2x v) 0 0.1).
      { clear Hm. induction m as [|m IH]; [reflexivity|].
        cbn [velocityAfter lerpAfter]. rewrite updateVelocity_x.
        unfold lerp1. rewrite IH, Ht. reflexivity. }
      rewrite Ex, <- Qabs_opp.
      assert (E : - lerpAfter m (v2x v) 0 0.1 == 0 - lerpAfter m (v2x v) 0 0.1) by ring.
      rewrite E. apply H1. lia.
    + assert (Ey : v2y (velocityAfter m idle v) == lerpAfter m (v2y v) 0 0.1).
      { clear Hm. induction m as [|m IH]; [reflexivity|].
        cbn [velocityAfter lerpAfter]. rewrite updateVelocity_y.
        unfold lerp1. rewrite IH, Hs. reflexivity. }
      rewrite Ey, <- Qabs_opp.
      assert (E : - lerpAfter m (v2y v) 0 0.1 == 0 - lerpAfter m (v2y v) 0 0.1) by ring.
      rewrite E. apply H2. lia.
  - intros n.
    destruct (idle_coast n idle v p Ht Hs) as (A1 & A2 & S1 & S2 & X & Z & _).
    rewrite X, Z, !Qabs_Qmult, (Qabs_pos 5.4) by lra.
    pose proof (abs_lost _ _ A1 S1). pose proof (abs_lost _ _ A2 S2). split; lra.
  - intros f n w Hp Hf Hin. rewrite <- Hf. now apply run_moves.
Qed.

(** *** The face *)

Lemma faceStep_finite (c raw : Q) (st : SystemState) :
  mouthCurvature st = Js.Finite c ->
  mouthCurvature (faceStep (Js.Finite raw) st) = Js.Finite (c * 0.9 + raw * 0.1).
Proof. intros H. unfold faceStep. cbn [setFace mouthCurvature]. now rewrite H. Qed.

Lemma faceAfter_curvature (n : nat) (c raw : Q) (st : SystemState) :
  mouthCurvature st = Js.Finite c ->
  exists q : Q,
    mouthCurvature (faceAfter n (Js.Finite raw) st) = Js.Finite q /\
    q == lerpAfter n c raw 0.1.
Proof.
  intros H. induction n as [|n (q & Hq & Eq)].
  - exists c. split; [exact H|reflexivity].
  - exists (q * 0.9 + raw * 0.1). cbn [faceAfter lerpAfter].
    split; [now apply faceStep_finite|]. unfold lerp1. rewrite Eq. lra.
Qed.

Lemma faceStep_emotion (raw : Js.number) (st : SystemState) :
  emotion (faceStep raw st) = classify (mouthCurvature (faceStep raw st)).
Proof. reflexivity. Qed.

Lemma classify_happy (c : Q) : 0.04 < c -> classify (Js.Finite c) = HAPPY.
Proof.
  intros H. unfold classify. cbn [Js.gt]. apply Qlt_bool_true in H. now rewrite H.
Qed.

Lemma classify_sad (c : Q) : c < - 0.03 -> classify (Js.Finite c) = SAD.
Proof.
  intros H. unfold classify, Js.lt. cbn [Js.gt].
  assert (H1 : Qlt_bool 0.04 c = false) by (apply Qlt_bool_false; lra).
  apply Qlt_bool_true in H. now rewrite H1, H.
Qed.

Lemma classify_calm (c : Q) : - 0.03 <= c -> c <= 0.04 -> classify (Js.Finite c) = CALM.
Proof.
  intros H1 H2. unfold classify, Js.lt. cbn [Js.gt].
  apply Qlt_bool_false in H1, H2. now rewrite H2, H1.
Qed.

(** After enough frames the curvature is as close to the raw value as
    wanted. *)
Lemma curvature_settles (c raw eps : Q) (st : SystemState) :
  mouthCurvature st = Js.Finite c -> 0 < eps ->
  exists N : nat, forall n : nat, (N <= n)%nat ->
    exists (m : nat) (q : Q), n = S m /\
    mouthCurvature (faceAfter n (Js.Finite raw) st) = Js.Finite q /\
    raw - eps < q /\ q < raw + eps.
Proof.
  intros Hc He.
  destruct (lerpAfter_converges c raw 0.1 eps) as [N HN]; try lra.
  exists (S N). intros n Hn. destruct n as [|m]; [lia|].
  destruct (faceAfter_curvature (S m) c raw st Hc) as (q & Hq & Eq).
  exists m, q. split; [reflexivity|]. split; [exact Hq|].
  assert (Hm : (N <= S m)%nat) by lia. specialize (HN (S m) Hm).
  rewrite <- Eq in HN.
  apply Qabs_Qlt_condition in HN. split; lra.
Qed.

(** The curvature after a frame, by the kind of the curvature before it and
    of the raw value. *)
Lemma faceStep_nan (raw : Js.number) (st : SystemState) :
  mouthCurvature st = Js.NaN ->
  mouthCurvature (faceStep raw st) = Js.NaN /\ emotion (faceStep raw st) = CALM.
Proof.
  intros H. unfold faceStep. cbn [setFace mouthCurvature emotion]. rewrite H.
  cbn [Js.mul Js.add]. split; reflexivity.
Qed.

Lemma faceStep_raw_nan (st : SystemState) :
  mouthCurvature (faceStep Js.NaN st) = Js.NaN /\ emotion (faceStep Js.NaN st) = CALM.
Proof.
  unfold faceStep. cbn [setFace mouthCurvature emotion].
  cbn [Js.mul].
  destruct (Js.mul (mouthCurvature st) (Js.Finite 0.9)); split; reflexivity.
Qed.

Lemma faceFrames_nan (raws : list Js.number) (st : SystemState) :
  mouthCurvature st = Js.NaN ->
  mouthCurvature (faceFrames raws st) = Js.NaN /\
  (raws <> [] -> emotion (faceFrames raws st) = CALM).
Proof.
  revert st. induction raws as [|raw raws IH]; intros st H.
  - split; [exact H|]. intros C. now contradiction C.
  - unfold faceFrames. cbn [fold_left]. fold (faceFrames raws (faceStep raw st)).
    destruct (faceStep_nan raw st H) as [H1 H2].
    destruct (IH (faceStep raw st) H1) as [I1 I2]. split; [exact I1|]. intros _.
    destruct raws as [|r raws]; [exact H2|]. apply I2. discriminate.
Qed.

Lemma faceAfter_infinity (n : nat) (raw : Q) (st : SystemState) :
  mouthCurvature st = Js.Infinity ->
  mouthCurvature (faceAfter n (Js.Finite raw) st) = Js.Infinity /\
  emotion (faceAfter (S n) (Js.Finite raw) st) = HAPPY.
Proof.
  intros H.
  assert (A : forall k, mouthCurvature (faceAfter k (Js.Finite raw) st) = Js.Infinity).
  { induction k as [|k IH]; [exact H|].
    cbn [faceAfter]. unfold faceStep. cbn [setFace mouthCurvature]. now rewrite IH. }
  split; [apply A|].
  cbn [faceAfter]. unfold faceStep. cbn [setFace emotion]. now rewrite A.
Qed.

Lemma faceAfter_neg_infinity (n : nat) (raw : Q) (st : SystemState) :
  mouthCurvature st = Js.NegInfinity ->
  mouthCurvature (faceAfter n (Js.Finite raw) st) = Js.NegInfinity /\
  emotion (faceAfter (S n) (Js.Finite raw) st) = SAD.
Proof.
  intros H.
  assert (A : forall k, mouthCurvature (faceAfter k (Js.Finite raw) st) = Js.NegInfinity).
  { induction k as [|k IH]; [exact H|].
    cbn [faceAfter]. unfold faceStep. cbn [setFace mouthCurvature]. now rewrite IH. }
  split; [apply A|].
  cbn [faceAfter]. unfold faceStep. cbn [setFace emotion]. now rewrite A.
Qed.

(** The raw curvature of a mouth, by its width. *)
Lemma rawCurvature_spec (Math_hypot : Q -> Q -> Q) (a b c d : Landmark) :
  let width := Math_hypot (lx b - lx a) (ly b - ly a) in
  let lift := (ly c + ly d) / 2 - (ly a + ly b) / 2 in
  (~ width == 0 -> rawCurvature Math_hypot a b c d = Js.Finite (lift / width)) /\
  (width == 0 -> lift == 0 -> rawCurvature Math_hypot a b c d = Js.NaN) /\
  (width == 0 -> 0 < lift -> rawCurvature Math_hypot a b c d = Js.Infinity) /\
  (width == 0 -> lift < 0 -> rawCurvature Math_hypot a b c d = Js.NegInfinity).
Proof.
  cbn zeta. unfold rawCurvature, Js.div.
  set (width := Math_hypot (lx b - lx a) (ly b - ly a)).
  set (lift := (ly c + ly d) / 2 - (ly a + ly b) / 2).
  destruct (Qeq_bool width 0) eqn:Ew.
  - apply Qeq_bool_iff in Ew. split; [intros C; now contradiction C|].
    destruct (Qeq_bool lift 0) eqn:El.
    + apply Qeq_bool_iff in El. split; [reflexivity|]. split; intros _ H; lra.
    + apply Qeq_bool_neq in El. split; [intros _ H; now contradiction El|].
      destruct (Qlt_bool 0 lift) eqn:Ep.
      * apply Qlt_bool_true in Ep. split; [reflexivity|]. intros _ H. lra.
      * apply Qlt_bool_false in Ep. split; [intros _ H; lra|reflexivity].
  - apply Qeq_bool_neq in Ew. split; [reflexivity|].
    split; [|split]; intros C; now contradiction C.
Qed.

(** X7.  An expression that is held is recognised and stays recognised as
    long as the smoothed curvature is a finite number: with the raw curvature
    constant above 0.04 the emotion is HAPPY from some frame on, with it
    constant below -0.03 it is SAD from some frame on, and with it constant
    strictly in between it is CALM from some frame on, whatever finite
    curvature the tracker starts from.  The raw curvature is finite exactly
    when the mouth has a width other than 0; a mouth of width 0 makes it NaN
    or an infinity.  Once the smoothed curvature is NaN it stays NaN and the
    emotion CALM, whatever faces follow; once it is an infinity it stays that
    infinity under finite raw values, and the emotion HAPPY or SAD by its
    sign: no expression held afterwards is recognised. *)
Theorem held_expression_is_recognised
    (Math_hypot : Q -> Q -> Q) (raw : Q) (st : SystemState) :
  (forall c : Q, mouthCurvature st = Js.Finite c ->
     (0.04 < raw ->
        exists N : nat, forall n : nat, (N <= n)%nat ->
          emotion (faceAfter n (Js.Finite raw) st) = HAPPY) /\
     (raw < - 0.03 ->
        exists N : nat, forall n : nat, (N <= n)%nat ->
          emotion (faceAfter n (Js.Finite raw) st) = SAD) /\
     (- 0.03 < raw /\ raw < 0.04 ->
        exists N : nat, forall n : nat, (N <= n)%nat ->
          emotion (faceAfter n (Js.Finite raw) st) = CALM)) /\
  (forall leftCorner rightCorner upperLip lowerLip : Landmark,
     let width := Math_hypot (lx rightCorner - lx leftCorner)
                             (ly rightCorner - ly leftCorner) in
     let lift := (ly upperLip + ly lowerLip) / 2 - (ly leftCorner + ly rightCorner) / 2 in
     let r := rawCurvature Math_hypot leftCorner rightCorner upperLip lowerLip in
     (~ width == 0 -> r = Js.Finite (lift / width)) /\
     (width == 0 -> lift == 0 -> r = Js.NaN) /\
     (width == 0 -> 0 < lift -> r = Js.Infinity) /\
     (width == 0 -> lift < 0 -> r = Js.NegInfinity)) /\
  (mouthCurvature (faceStep Js.NaN st) = Js.NaN /\
   forall c : Q, mouthCurvature st = Js.Finite c ->
     mouthCurvature (faceStep Js.Infinity st) = Js.Infinity /\
     mouthCurvature (faceStep Js.NegInfinity st) = Js.NegInfinity) /\
  (mouthCurvature st = Js.NaN ->
     forall raws : list Js.number,
       mouthCurvature (faceFrames raws st) = Js.NaN /\
       (raws <> [] -> emotion (faceFrames raws st) = CALM)) /\
  (mouthCurvature st = Js.Infinity ->
     forall n : nat,
       mouthCurvature (faceAfter n (Js.Finite raw) st) = Js.Infinity /\
       emotion (faceAfter (S n) (Js.Finite raw) st) = HAPPY) /\
  (mouthCurvature st = Js.NegInfinity ->
     forall n : nat,
       mouthCurvature (faceAfter n (Js.Finite raw) st) = Js.NegInfinity /\
       emotion (faceAfter (S n) (Js.Finite raw) st) = SAD).
Proof.
  split; [|split; [|split; [|split; [|split]]]].
  - intros c Hc. split; [|split].
    + intros H. destruct (curvature_settles c raw (raw - 0.04) st Hc) as [N HN]; [lra|].
      exists N. intros n Hn. destruct (HN n Hn) as (m & q & -> & Hq & Hlo & _).
      cbn [faceAfter] in *. rewrite faceStep_emotion, Hq. apply classify_happy. lra.
    + intros H. destruct (curvature_settles c raw (- 0.03 - raw) st Hc) as [N HN]; [lra|].
      exists N. intros n Hn. destruct (HN n Hn) as (m & q & -> & Hq & _ & Hhi).
      cbn [faceAfter] in *. rewrite faceStep_emotion, Hq. apply classify_sad. lra.
    + intros [H1 H2].
      destruct (curvature_settles c raw (raw + 0.03) st Hc) as [N1 HN1]; [lra|].
      destruct (curvature_settles c raw (0.04 - raw) st Hc) as [N2 HN2]; [lra|].
      exists (Nat.max N1 N2). intros n Hn.
      destruct (HN1 n ltac:(lia)) as (m & q & -> & Hq & Hlo & _).
      destruct (HN2 (S m) ltac:(lia)) as (m' & q' & _ & Hq' & _ & Hhi).
      rewrite Hq in Hq'. injection Hq' as <-.
      cbn [faceAfter] in *. rewrite faceStep_emotion, Hq. apply classify_calm; lra.
  - intros a b c d. apply rawCurvature_spec.
  - split; [apply faceStep_raw_nan|]. intros c Hc.
    unfold faceStep. cbn [setFace mouthCurvature]. rewrite Hc. split; reflexivity.
  - intros H raws. now apply faceFrames_nan.
  - intros H n. now apply faceAfter_infinity.
  - intros H n. now apply faceAfter_neg_infinity.
Qed.

(** X8.  The callbacks of the two models write disjoint fields: it does not
    matter in which order the results of a hand frame and of a face frame
    arrive, a lost face leaves the last emotion and curvature in place, and
    the emotion after a face frame of finite raw curvature on a finite
    curvature is HAPPY exactly when the raw curvature exceeds
    [0.4 - 9 * previous], SAD exactly when it is below
    [-0.3 - 9 * previous]; so from a curvature of at most 0.04 one frame of
    raw curvature up to 0.04 cannot produce HAPPY.  On a curvature that is
    NaN the emotion after a face frame is CALM. *)
Theorem tracking_callbacks_are_independent
    (Math_hypot : Q -> Q -> Q)
    (hands faces : list (option (list (option Landmark)))) (raw : Q)
    (st : SystemState) :
  onHandResults Math_hypot hands (onFaceResults Math_hypot faces st)
    = onFaceResults Math_hypot faces (onHandResults Math_hypot hands st) /\
  onFaceResults Math_hypot [] st = st /\
  (forall previous : Q, mouthCurvature st = Js.Finite previous ->
     (emotion (faceStep (Js.Finite raw) st) = HAPPY <-> 0.4 - 9 * previous < raw) /\
     (emotion (faceStep (Js.Finite raw) st) = SAD <-> raw < - 0.3 - 9 * previous) /\
     (previous <= 0.04 /\ raw <= 0.04 -> emotion (faceStep (Js.Finite raw) st) <> HAPPY)) /\
  (mouthCurvature st = Js.NaN ->
     forall r : Js.number, emotion (faceStep r st) = CALM).
Proof.
  split; [|split; [reflexivity|split]].
  - unfold onFaceResults, onHandResults.
    destruct faces as [|[fl|] frest]; destruct hands as [|[hl|] hrest];
      try reflexivity.
    + destruct (nth_error fl 61) as [[a|]|]; try reflexivity.
      destruct (nth_error fl 291) as [[b|]|]; try reflexivity.
      destruct (nth_error fl 13) as [[c|]|]; try reflexivity.
      destruct (nth_error fl 14) as [[d|]|]; reflexivity.
    + destruct (nth_error fl 61) as [[a|]|];
        [destruct (nth_error fl 291) as [[b|]|];
         [destruct (nth_error fl 13) as [[c|]|];
          [destruct (nth_error fl 14) as [[d|]|]| |]| |]| |];
      destruct (List.length hl <? 21)%nat; try reflexivity;
      destruct (nth_error hl 9) as [[p|]|]; try reflexivity;
      destruct (nth_error hl 0) as [[w|]|]; reflexivity.
  - intros previous Hp. rewrite faceStep_emotion, (faceStep_finite previous raw st Hp).
    unfold classify, Js.lt. cbn [Js.gt].
    set (c := previous * 0.9 + raw * 0.1).
    assert (Hc : c == previous * 0.9 + raw * 0.1) by reflexivity.
    destruct (Qlt_bool 0.04 c) eqn:E1.
    + apply Qlt_bool_true in E1.
      split; [split; [intros _; lra|reflexivity]|].
      split; [split; [discriminate|intros; lra]|]. intros [? ?]. lra.
    + apply Qlt_bool_false in E1. destruct (Qlt_bool c (- 0.03)) eqn:E2.
      * apply Qlt_bool_true in E2.
        split; [split; [discriminate|intros; lra]|].
        split; [split; [intros _; lra|reflexivity]|]. discriminate.
      * apply Qlt_bool_false in E2.
        split; [split; [discriminate|intros; lra]|].
        split; [split; [discriminate|intros; lra]|]. discriminate.
  - intros H r. now destruct (faceStep_nan r st H).
Qed.

End TrackingTheory.

(** ** The audio loop *)

Module AudioTheory.
Import Sim Audio.

Open Scope Q_scope.

Lemma byteSum_range (dataArray : list Byte.byte) (acc : Z) :
  (acc <= fold_left (fun sum b => sum + Z.of_N (Byte.to_N b)) dataArray acc
       <= acc + 255 * Z.of_nat (List.length dataArray))%Z.
Proof.
  revert acc. induction dataArray as [|b l IH]; intros acc; simpl fold_left.
  - simpl. lia.
  - specialize (IH (acc + Z.of_N (Byte.to_N b))%Z).
    pose proof (Byte.to_N_bounded b). cbn [List.length]. lia.
Qed.

(** The mean of the bytes, scaled by 255, lies in the unit interval. *)
Lemma amplitude_range (dataArray : list Byte.byte) :
  dataArray <> [] -> 0 <= amplitude dataArray /\ amplitude dataArray <= 1.
Proof.
  intros Hne. unfold amplitude, byteSum.
  pose proof (byteSum_range dataArray 0) as [Hlo Hhi].
  set (sum := fold_left _ dataArray 0%Z) in *.
  assert (Hn : (0 < Z.of_nat (List.length dataArray))%Z)
    by (destruct dataArray; [congruence|simpl; lia]).
  set (n := Z.of_nat (List.length dataArray)) in *.
  assert (Hd : 0 < inject_Z n * 255).
  { rewrite Zlt_Qlt in Hn. change (inject_Z 0) with 0 in Hn. lra. }
  assert (Hs0 : 0 <= inject_Z sum) by (change 0 with (inject_Z 0); now rewrite <- Zle_Qle).
  assert (Hs1 : inject_Z sum <= inject_Z n * 255).
  { change 255 with (inject_Z 255). rewrite <- inject_Z_mult, <- Zle_Qle. lia. }
  split.
  - apply Qle_shift_div_l; [exact Hd|]. lra.
  - apply Qle_shift_div_r; [exact Hd|]. lra.
Qed.

Section Oracles.

Variable Math_sin : Q -> Q.
Variable Math_cos : Q -> Q.
Variable random : nat -> Q.

Local Abbreviation audioTick := (Audio.audioTick Math_sin Math_cos random).
Local Abbreviation audioRun := (Audio.audioRun Math_sin Math_cos random).

Lemma audioTick_amplitude (hasWind : bool) (dataArray : list Byte.byte)
      (loop : AudioLoop) (st : SystemState) :
  soundAmplitude (snd (audioTick true hasWind dataArray loop st))
  = soundAmplitude st * 0.9 + amplitude dataArray * 0.1.
Proof.
  unfold Audio.audioTick. cbn [negb].
  destruct hasWind; [|reflexivity].
  destruct (isFist (setSoundAmplitude _ st)); reflexivity.
Qed.

(** X9.  The analysed level is the mean of the bytes over 255, a number of
    the unit interval; the smoothed sound amplitude therefore stays in the
    unit interval through any number of buffers, and the wind strength the
    blender derives from it stays between 0.5 and 5.5. *)
Theorem sound_amplitude_stays_in_unit_interval
    (hasWind : bool) (buffers : list (list Byte.byte)) (loop : AudioLoop)
    (st : SystemState) (env : Environment) :
  (forall dataArray, In dataArray buffers -> dataArray <> []) ->
  0 <= soundAmplitude st /\ soundAmplitude st <= 1 ->
  (forall dataArray, In dataArray buffers ->
     0 <= amplitude dataArray /\ amplitude dataArray <= 1) /\
  0 <= soundAmplitude (snd (audioRun hasWind buffers loop st)) /\
  soundAmplitude (snd (audioRun hasWind buffers loop st)) <= 1 /\
  0.5 <= uWindStrength (blend (snd (audioRun hasWind buffers loop st)) env) /\
  uWindStrength (blend (snd (audioRun hasWind buffers loop st)) env) <= 5.5.
Proof.
  intros Hne Hst.
  split; [intros d Hd; apply amplitude_range; now apply Hne|].
  assert (Hrun : 0 <= soundAmplitude (snd (audioRun hasWind buffers loop st)) /\
                 soundAmplitude (snd (audioRun hasWind buffers loop st)) <= 1).
  { revert loop st Hst. induction buffers as [|d rest IH]; intros loop st Hst.
    - exact Hst.
    - cbn [Audio.audioRun].
      pose proof (audioTick_amplitude hasWind d loop st) as Ha.
      destruct (audioTick true hasWind d loop st) as [loop1 st1]. cbn [snd] in Ha.
      apply IH.
      + intros d' Hd'. apply Hne. now right.
      + destruct (amplitude_range d (Hne d (or_introl eq_refl))) as [A0 A1].
        rewrite Ha. destruct Hst. split; lra. }
  destruct Hrun as [R0 R1]. split; [exact R0|]. split; [exact R1|].
  unfold blend. cbn [uWindStrength]. split; lra.
Qed.

(** X10.  The targets the loop hands to the wind filter and gain: with a fist
    the frequency target is in [[800, 1400)] and the gain target in
    [[0.8, 1.1)]; without, the frequency target is in [[100, 700]] and the gain
    target in [[0.3, 0.5]]; the frequency target is thus never below 100.  A
    tick without audio context changes nothing, not even the clock; a tick
    without wind nodes advances the clock and leaves the targets alone. *)
Theorem wind_targets_stay_in_range
    (dataArray : list Byte.byte) (loop : AudioLoop) (st : SystemState) :
  (forall x : Q, - 1 <= Math_sin x /\ Math_sin x <= 1) ->
  (forall x : Q, - 1 <= Math_cos x /\ Math_cos x <= 1) ->
  (forall n : nat, 0 <= random n /\ random n < 1) ->
  (forall hasWind, audioTick false hasWind dataArray loop st = (loop, st)) /\
  (forall hasWind,
     time (fst (audioTick true hasWind dataArray loop st)) == time loop + 0.05 /\
     isFist (snd (audioTick true hasWind dataArray loop st)) = isFist st) /\
  targetFreq (fst (audioTick true false dataArray loop st)) = targetFreq loop /\
  targetGain (fst (audioTick true false dataArray loop st)) = targetGain loop /\
  (isFist st = true ->
     800 <= targetFreq (fst (audioTick true true dataArray loop st)) /\
     targetFreq (fst (audioTick true true dataArray loop st)) < 1400 /\
     0.8 <= targetGain (fst (audioTick true true dataArray loop st)) /\
     targetGain (fst (audioTick true true dataArray loop st)) < 1.1) /\
  (isFist st = false ->
     100 <= targetFreq (fst (audioTick true true dataArray loop st)) /\
     targetFreq (fst (audioTick true true dataArray loop st)) <= 700 /\
     0.3 <= targetGain (fst (audioTick true true dataArray loop st)) /\
     targetGain (fst (audioTick true true dataArray loop st)) <= 0.5).
Proof.
  intros Hsin Hcos Hrnd. split; [reflexivity|].
  unfold Audio.audioTick. cbn [negb].
  change (isFist (setSoundAmplitude
                    (soundAmplitude st * 0.9 + amplitude dataArray * 0.1) st))
    with (isFist st).
  split.
  { intros [|]; [|split; reflexivity].
    destruct (isFist st) eqn:Hf; cbn [fst snd time]; split; reflexivity || exact Hf. }
  split; [reflexivity|]. split; [reflexivity|].
  destruct (isFist st) eqn:Hf; cbn [fst snd time targetFreq targetGain].
  - split; [|discriminate]. intros _.
    destruct (Hrnd (audioDraws loop)) as [? ?].
    destruct (Hrnd (audioDraws loop + 1)%nat) as [? ?]. repeat split; lra.
  - split; [discriminate|]. intros _.
    destruct (Hsin ((time loop + 0.05) * 0.5)) as [? ?].
    destruct (Hsin ((time loop + 0.05) * 0.2)) as [? ?].
    destruct (Hcos ((time loop + 0.05) * 1.3)) as [? ?]. repeat split; lra.
Qed.

End Oracles.

(** X9 at one buffer of two bytes. *)
Lemma sound_amplitude_of_two_bytes :
  0 <= soundAmplitude
         (snd (Audio.audioRun (constantly 0) (constantly 0) (alwaysDraw 0.25) true
                 [[Byte.xff; Byte.x00]] (mkAudioLoop 0 400 0.8 0) (handState 0 0.12))) /\
  soundAmplitude
    (snd (Audio.audioRun (constantly 0) (constantly 0) (alwaysDraw 0.25) true
            [[Byte.xff; Byte.x00]] (mkAudioLoop 0 400 0.8 0) (handState 0 0.12))) <= 1.
Proof.
  destruct (sound_amplitude_stays_in_unit_interval
              (constantly 0) (constantly 0) (alwaysDraw 0.25) true
              [[Byte.xff; Byte.x00]] (mkAudioLoop 0 400 0.8 0) (handState 0 0.12)
              initialEnvironment) as (_ & H0 & H1 & _).
  - intros d [<-|[]]. discriminate.
  - simpl. split; lra.
  - split; [exact H0 | exact H1].
Defined.

(** X10 with oracles that are constant. *)
Lemma wind_targets_of_a_fist :
  800 <= targetFreq
           (fst (Audio.audioTick (constantly 0) (constantly 0) (alwaysDraw 0.25) true true
                   [Byte.xff] (mkAudioLoop 0 400 0.8 0)
                   (mkSystemState CALM 0 (Js.Finite 0) 0 0 (mkV2 0 0) 0.05 true))).
Proof.
  destruct (wind_targets_stay_in_range (constantly 0) (constantly 0) (alwaysDraw 0.25)
              [Byte.xff] (mkAudioLoop 0 400 0.8 0)
              (mkSystemState CALM 0 (Js.Finite 0) 0 0 (mkV2 0 0) 0.05 true))
    as (_ & _ & _ & _ & H & _).
  - intros x. unfold constantly. split; lra.
  - intros x. unfold constantly. split; lra.
  - intros n. unfold alwaysDraw. split; lra.
  - destruct (H eq_refl) as (H1 & _). exact H1.
Defined.

End AudioTheory.

(** ** The shards of a canvas *)

Module CanvasTheory.
Import Sim SimTheory.

Open Scope Q_scope.

Section Oracles.

Variable Math_sin : Q -> Q.
Variable Math_cos : Q -> Q.
Variable random : nat -> Q.

Local Abbreviation initialShards := (Sim.initialShards random).
Local Abbreviation initialWorld := (Sim.initialWorld random).
Local Abbreviation shardBody := (Sim.shardBody Math_sin random).
Local Abbreviation shardLoop := (Sim.shardLoop Math_sin random).
Local Abbreviation animate := (Sim.animate Math_sin Math_cos random).
Local Abbreviation run := (Sim.run Math_sin Math_cos random).

Lemma shard_loop_count (body : nat -> list Shard * nat -> list Shard * nat) (n : nat) :
  (forall j l k, List.length (fst (body j (l, k))) = Datatypes.S (List.length l) /\
                 snd (body j (l, k)) = (k + 3)%nat) ->
  forall from l k,
    List.length (fst (forLoop from n body (l, k))) = (List.length l + n)%nat /\
    snd (forLoop from n body (l, k)) = (k + 3 * n)%nat.
Proof.
  intros Hb. induction n as [|n IH]; intros from l k.
  - cbn [forLoop fst snd]. split; lia.
  - cbn [forLoop]. destruct (Hb from l k) as [H1 H2].
    destruct (body from (l, k)) as [l1 k1]. cbn [fst snd] in H1, H2.
    destruct (IH (Datatypes.S from) l1 k1) as [I1 I2]. rewrite I1, I2. split; lia.
Qed.

Lemma initialShards_count (k : nat) :
  List.length (fst (initialShards k)) = 150%nat /\ snd (initialShards k) = (k + 450)%nat.
Proof.
  unfold Sim.initialShards.
  match goal with
  | |- context [forLoop 0 150 ?b _] =>
      destruct (shard_loop_count b 150) with (from := 0%nat) (l := @nil Shard) (k := k)
        as [H1 H2]
  end.
  - intros j l k0. cbn [fst snd]. rewrite length_app. cbn [List.length]. split; lia.
  - rewrite H1, H2. split; reflexivity.
Qed.

Lemma initialShards_fresh (k : nat) :
  (forall n : nat, 0 <= random n /\ random n < 1) ->
  Forall fresh (fst (initialShards k)).
Proof.
  intros Hr. unfold Sim.initialShards.
  apply (FieldTheory.forLoop_invariant (fun st : list Shard * nat => Forall fresh (fst st))).
  - constructor.
  - intros j [l k0] Hl. cbn [fst] in *. apply Forall_app. split; [exact Hl|].
    constructor; [|constructor].
    destruct (Hr k0) as [? ?]. destruct (Hr (k0 + 1)%nat) as [? ?].
    destruct (Hr (k0 + 2)%nat) as [? ?].
    unfold fresh. cbn [visible rotationX rotationY position v3x v3y v3z].
    repeat split; try reflexivity; try (apply Qabs_Qle_condition; split); lra.
Qed.

(** *** The pool during play *)

Lemma shardBody_visible (time : Q) (player : Vector3) (i : nat) (s : Shard) (k : nat) :
  visible s = true -> visible (fst (fst (shardBody time player i s k))) = true.
Proof.
  intros Hv. unfold Sim.shardBody.
  destruct (Qlt_bool _ _); [reflexivity|]. destruct (Qlt_bool _ _); exact Hv.
Qed.

Lemma shardLoop_visible (l : list Shard) (time : Q) (player : Vector3) (i k : nat) :
  Forall (fun s => visible s = true) l ->
  Forall (fun s => visible s = true) (fst (fst (shardLoop time player i l k))).
Proof.
  revert i. induction l as [|s l IH]; intros i Hl; [constructor|].
  inversion Hl as [|? ? Hs Hl']; subst. cbn [Sim.shardLoop].
  specialize (IH (Datatypes.S i) Hl').
  destruct (shardLoop time player (Datatypes.S i) l k) as [[rest' k1] ev1].
  pose proof (shardBody_visible time player i s k1 Hs) as Hb.
  destruct (shardBody time player i s k1) as [[s' k2] ev2].
  cbn [fst] in *. constructor; assumption.
Qed.

Lemma animate_visible (f : Frame) (w : World) :
  Forall (fun s => visible s = true) (shards w) ->
  Forall (fun s => visible s = true) (shards (fst (animate f w))).
Proof.
  intros Hv. unfold Sim.animate. destruct (isPaused f); [exact Hv|].
  destruct (outOfBounds (playerPosition w)); [exact Hv|].
  unfold Sim.advance.
  pose proof (shardLoop_visible (shards w) (timeRef w + 0.01)
                (updatePosition (updateVelocity (state f) (playerVelocity w))
                                (playerPosition w)) 0 (draws w) Hv) as H.
  destruct (shardLoop _ _ 0 (shards w) (draws w)) as [[l k] ev]. exact H.
Qed.

Lemma run_visible (frames : list Frame) (w : World) :
  Forall (fun s => visible s = true) (shards w) ->
  Forall (fun s => visible s = true) (shards (fst (run frames w))).
Proof.
  revert w. induction frames as [|f frames IH]; intros w Hv; [exact Hv|].
  cbn [Sim.run]. pose proof (animate_visible f w Hv) as Ha.
  destruct (animate f w) as [w1 ev1]. specialize (IH w1 Ha).
  destruct (run frames w1) as [w2 ev2]. exact IH.
Qed.

Lemma initialWorld_shards (k : nat) :
  shards (initialWorld k) = fst (initialShards k) /\
  draws (initialWorld k) = snd (initialShards k) /\
  playerVelocity (initialWorld k) = mkV2 0 0 /\
  timeRef (initialWorld k) = 0 /\
  environment (initialWorld k) = initialEnvironment.
Proof.
  unfold Sim.initialWorld. destruct (initialShards k) as [l k']. now repeat split.
Qed.

Lemma fresh_visible (l : list Shard) :
  Forall fresh l -> Forall (fun s => visible s = true) l.
Proof. apply Forall_impl. intros s H. apply H. Qed.

(** X12.  A canvas is mounted with 150 shards, for which it draws 450 random
    numbers.  Each shard is visible and unrotated, at most 3000 from the
    origin along either ground axis, hence closer to the start of the
    player than the distance at which a shard is moved, and between 5 and 10
    high.  Whatever frames follow, the pool keeps its 150 shards and all of
    them stay visible. *)
Theorem canvas_starts_with_150_shards_in_reach (k : nat) (frames : list Frame) :
  (forall n : nat, 0 <= random n /\ random n < 1) ->
  List.length (shards (initialWorld k)) = 150%nat /\
  draws (initialWorld k) = (k + 450)%nat /\
  Forall fresh (shards (initialWorld k)) /\
  Forall (fun s => planarDistSq s (playerPosition (initialWorld k)) < sq DESPAWN_RADIUS)
         (shards (initialWorld k)) /\
  List.length (shards (fst (run frames (initialWorld k)))) = 150%nat /\
  Forall (fun s => visible s = true) (shards (fst (run frames (initialWorld k)))).
Proof.
  intros Hr.
  destruct (initialWorld_shards k) as (Hs & Hd & _).
  destruct (initialShards_count k) as [Hn Hk].
  pose proof (initialShards_fresh k Hr) as Hf. rewrite <- Hs in Hf, Hn.
  split; [exact Hn|]. split; [now rewrite Hd|]. split; [exact Hf|]. split; [|split].
  - rewrite (SimTheory.initialWorld_position random k).
    revert Hf. apply Forall_impl. intros s (_ & _ & _ & Hx & Hz & _).
    unfold planarDistSq, sq, DESPAWN_RADIUS. cbn [v3x v3z].
    apply Qabs_Qle_condition in Hx, Hz. nra.
  - rewrite (SimTheory.run_shards_length Math_sin Math_cos random). exact Hn.
  - apply run_visible, fresh_visible, Hf.
Qed.

End Oracles.

(** X12 for draws that are all 0.25. *)
Lemma canvas_of_constant_draws :
  List.length (shards (Sim.initialWorld (alwaysDraw 0.25) 0)) = 150%nat /\
  draws (Sim.initialWorld (alwaysDraw 0.25) 0) = 450%nat.
Proof.
  destruct (canvas_starts_with_150_shards_in_reach
              (constantly 0) (constantly 0) (alwaysDraw 0.25) 0 [])
    as (H1 & H2 & _).
  - intros n. unfold alwaysDraw. split; lra.
  - split; [exact H1 | exact H2].
Defined.

End CanvasTheory.

(** ** The session *)

Module SessionTheory.
Import App Sim ShopFlow Session AppTheory ShopFlowTheory SimTheory.

Open Scope Q_scope.

Lemma signals_spec (events : list Event) (s : AppState) :
  status (fold_left signal events s) = (if ended events then GAME_OVER else status s) /\
  gameKey (fold_left signal events s) = gameKey s /\
  isShopOpen (fold_left signal events s) = isShopOpen s /\
  canvas (fold_left signal events s) = canvas s /\
  starting (fold_left signal events s) = starting s /\
  storeItems (shop (fold_left signal events s)) = storeItems (shop s) /\
  xp (shop (fold_left signal events s)) = (xp (shop s) + 50 * pickups events)%Z /\
  hasAudio (fold_left signal events s) = hasAudio s /\
  toggling (fold_left signal events s) = toggling s.
Proof.
  revert s. induction events as [|e events IH]; intros s.
  - unfold pickups. cbn. repeat split; lia.
  - cbn [fold_left].
    destruct (IH (signal s e)) as (H1 & H2 & H3 & H4 & H5 & H6 & H7 & H8 & H9).
    rewrite H1, H2, H3, H4, H5, H6, H7, H8, H9. unfold pickups, ended in *.
    destruct e as [|i]; cbn [signal isPickup filter existsb negb orb List.length].
    + cbn. destruct (existsb _ events); repeat split; lia.
    + cbn [handleGameOver setShop setStatus status gameKey isShopOpen canvas starting shop
             handleCollectShard storeItems xp hasAudio toggling].
      repeat split; lia.
Qed.

Lemma pickups_app (a b : list Event) : pickups (a ++ b) = (pickups a + pickups b)%Z.
Proof. unfold pickups. rewrite filter_app, length_app. lia. Qed.

Lemma ended_app (a b : list Event) : ended (a ++ b) = ended a || ended b.
Proof. unfold ended. apply existsb_app. Qed.

Section Oracles.

Variable Math_sin : Q -> Q.
Variable Math_cos : Q -> Q.
Variable random : nat -> Q.
Variable mountDraws : nat -> nat.

Local Abbreviation animate := (Sim.animate Math_sin Math_cos random).
Local Abbreviation run := (Sim.run Math_sin Math_cos random).
Local Abbreviation frame := (Session.frame Math_sin Math_cos random).
Local Abbreviation press := (Session.press random mountDraws).
Local Abbreviation step := (Session.step Math_sin Math_cos random mountDraws).
Local Abbreviation steps := (Session.steps Math_sin Math_cos random mountDraws).
Local Abbreviation handleStart := (Session.handleStart random mountDraws).

Lemma setCanvas_same (s : AppState) : setCanvas (canvas s) s = s.
Proof. now destruct s. Qed.

Lemma frame_paused (state : SystemState) (s : AppState) :
  status s = PAUSED -> frame state s = s.
Proof.
  intros Hp. unfold Session.frame.
  rewrite (SimTheory.animate_paused Math_sin Math_cos random)
    by (unfold frameOf; cbn [isPaused]; now rewrite Hp).
  cbn [fold_left]. apply setCanvas_same.
Qed.

(** A frame seen from [App]. *)
Lemma frame_spec (state : SystemState) (s : AppState) :
  let r := animate (frameOf state s) (canvas s) in
  canvas (frame state s) = fst r /\
  status (frame state s) = (if ended (snd r) then GAME_OVER else status s) /\
  gameKey (frame state s) = gameKey s /\
  isShopOpen (frame state s) = isShopOpen s /\
  starting (frame state s) = starting s /\
  storeItems (shop (frame state s)) = storeItems (shop s) /\
  xp (shop (frame state s)) = (xp (shop s) + 50 * pickups (snd r))%Z /\
  hasAudio (frame state s) = hasAudio s /\
  toggling (frame state s) = toggling s.
Proof.
  unfold Session.frame. destruct (animate (frameOf state s) (canvas s)) as [w ev].
  cbn [fst snd].
  destruct (signals_spec ev (setCanvas w s)) as (H1 & H2 & H3 & H4 & H5 & H6 & H7 & H8 & H9).
  now repeat split.
Qed.

Lemma frameOf_ext (state : SystemState) (s s' : AppState) :
  AppStatus_eqb (status s') PAUSED = AppStatus_eqb (status s) PAUSED ->
  storeItems (shop s') = storeItems (shop s) ->
  frameOf state s' = frameOf state s.
Proof.
  intros H1 H2. unfold frameOf, App.activeCompanion. now rewrite H1, H2.
Qed.

Lemma frame_keeps_pausedness (state : SystemState) (s : AppState) :
  AppStatus_eqb (status (frame state s)) PAUSED = AppStatus_eqb (status s) PAUSED.
Proof.
  destruct (AppStatus_eqb (status s) PAUSED) eqn:E.
  - assert (Hp : status s = PAUSED) by (now destruct (status s)).
    now rewrite (frame_paused state s Hp), Hp.
  - destruct (frame_spec state s) as (_ & H & _). rewrite H.
    destruct (ended _); [reflexivity|exact E].
Qed.

(** X13.  Animation frames reach [App] through the two callbacks only.  A
    run of frames leaves the canvas as the frame loop leaves it under the
    pause flag and the companion of the beginning, adds 50 points per pickup,
    changes nothing else of the store, and changes the status, to the game
    over, exactly when one of the frames signalled it. *)
Theorem frames_reach_the_app_through_callbacks
    (states : list SystemState) (s : AppState) :
  let frames := map (fun state => frameOf state s) states in
  let s' := steps (map AnimationFrame states) s in
  canvas s' = fst (run frames (canvas s)) /\
  status s' = (if ended (snd (run frames (canvas s))) then GAME_OVER else status s) /\
  xp (shop s') = (xp (shop s) + 50 * pickups (snd (run frames (canvas s))))%Z /\
  storeItems (shop s') = storeItems (shop s) /\
  gameKey s' = gameKey s /\ isShopOpen s' = isShopOpen s /\ starting s' = starting s /\
  hasAudio s' = hasAudio s /\ toggling s' = toggling s.
Proof.
  revert s. induction states as [|state states IH]; intros s.
  - cbn. unfold pickups. cbn. repeat split; lia.
  - cbn [map]. unfold Session.steps. cbn [fold_left Session.step Sim.run].
    fold (steps (map AnimationFrame states) (frame state s)).
    destruct (frame_spec state s) as (F1 & F2 & F3 & F4 & F5 & F6 & F7 & F8 & F9).
    specialize (IH (frame state s)). cbn zeta in IH.
    assert (E : map (fun st => frameOf st (frame state s)) states
                = map (fun st => frameOf st s) states).
    { apply map_ext. intros st. apply frameOf_ext; [apply frame_keeps_pausedness|exact F6]. }
    rewrite E, F1 in IH. clear E.
    destruct IH as (I1 & I2 & I3 & I4 & I5 & I6 & I7 & I8 & I9).
    cbn zeta in F2, F7.
    destruct (animate (frameOf state s) (canvas s)) as [w1 ev1]. cbn [fst snd] in *.
    destruct (run (map (fun st => frameOf st s) states) w1) as [w2 ev2]. cbn [fst snd] in *.
    rewrite pickups_app, ended_app.
    split; [exact I1|]. split.
    { rewrite I2, F2. destruct (ended ev1), (ended ev2); reflexivity. }
    split; [rewrite I3, F7; lia|].
    split; [now rewrite I4|]. split; [now rewrite I5|]. split; [now rewrite I6|].
    split; [now rewrite I7|]. split; [now rewrite I8|now rewrite I9].
Qed.

(** *** The shop from the session *)

Lemma click_reachable (item : StoreItem) (sh : Shop) :
  reachable sh -> In item (storeItems sh) -> reachable (click item sh).
Proof.
  intros Hr Hin. unfold click. destruct (cardControl item (xp sh)) as [| |[|]].
  - exact Hr.
  - now apply reach_equip.
  - now apply reach_purchase.
  - exact Hr.
Qed.


(** *** The pause *)

Lemma toggled_idle (n : nat) (s : AppState) : toggling s = [] -> toggled n s = s.
Proof. intros H. unfold toggled. rewrite H. now destruct n. Qed.





(** *** Game over and restart *)

Lemma over_step (s0 s : AppState) (i : Input) :
  outOfBounds (playerPosition (canvas s0)) = true ->
  overLike s0 s -> isPress StartButton i = false -> overLike s0 (step s i).
Proof.
  intros Hout (Hg & Hs & Ht & Hsh & Hk & Ho & Hp & Hl) Hi. destruct i as [state|c|ok|n].
  - cbn [Session.step]. unfold Session.frame.
    rewrite (SimTheory.animate_out Math_sin Math_cos random);
      [|unfold frameOf; cbn [isPaused]; now rewrite Hg|now rewrite Hp].
    cbn [fold_left signal handleGameOver setStatus setCanvas].
    unfold overLike. cbn [status starting shop gameKey isShopOpen canvas tickClock
                          playerPosition shards toggling].
    now repeat split.
  - cbn [Session.step]. unfold Session.press, screen. rewrite Hg.
    destruct c; cbn [offers]; now repeat split.
  - cbn [Session.step]. unfold settle. rewrite Hs. now repeat split.
  - cbn [Session.step]. rewrite (toggled_idle n s Ht). now repeat split.
Qed.

Lemma over_steps (inputs : list Input) (s0 s : AppState) :
  outOfBounds (playerPosition (canvas s0)) = true ->
  overLike s0 s -> forallb (fun i => negb (isPress StartButton i)) inputs = true ->
  overLike s0 (steps inputs s).
Proof.
  intros Hout. revert s. induction inputs as [|i inputs IH]; intros s Hs Hall; [exact Hs|].
  cbn [forallb] in Hall. apply andb_prop in Hall. destruct Hall as [Hi Hall].
  apply negb_true_iff in Hi. unfold Session.steps. cbn [fold_left].
  apply IH; [now apply over_step|exact Hall].
Qed.

(** X15.  A frame that finds the player out of bounds ends the game, unless
    the session is paused.  When no call of [togglePause] is waiting, the
    game over then lasts: frames only advance the clock, and no control but
    the restart button does anything.  The restart mounts a canvas under the
    next key, with the player back at the start, at rest and in bounds, among
    150 fresh shards; points and store are carried over, and the session runs
    again once the start has settled.  A call of [togglePause] that is still
    waiting when the game ends writes its status over the game over: after a
    click on the pause button just before the last frame the session ends up
    paused, not over. *)
Theorem game_over_lasts_until_restart (s : AppState) (state : SystemState) :
  status s <> PAUSED -> starting s = 0%nat ->
  outOfBounds (playerPosition (canvas s)) = true ->
  status (frame state s) = GAME_OVER /\
  (toggling s = [] ->
   forall inputs : list Input,
     forallb (fun i => negb (isPress StartButton i)) inputs = true ->
     let s' := steps inputs (frame state s) in
     status s' = GAME_OVER /\ shop s' = shop s /\ gameKey s' = gameKey s /\
     playerPosition (canvas s') = playerPosition (canvas s) /\
     shards (canvas s') = shards (canvas s) /\
     let r := press StartButton s' in
     status r = LOADING /\ gameKey r = Datatypes.S (gameKey s) /\ shop r = shop s /\
     playerPosition (canvas r) = mkV3 0 6 0 /\
     playerVelocity (canvas r) = mkV2 0 0 /\
     outOfBounds (playerPosition (canvas r)) = false /\
     List.length (shards (canvas r)) = 150%nat /\
     status (Session.settle true r) = RUNNING /\
     canvas (Session.settle true r) = canvas r) /\
  (forall (st : AppStatus) (rest : list AppStatus),
     toggling s = st :: rest ->
     status (step (frame state s) (Toggled 0)) = st) /\
  (status s = RUNNING -> isShopOpen s = false -> hasAudio s = true -> toggling s = [] ->
   status (steps [Press PauseButton; AnimationFrame state; Toggled 0] s) = PAUSED).
Proof.
  intros Hnp Hst Hout.
  assert (Hf : forall x : AppState,
            status x <> PAUSED -> canvas x = canvas s ->
            frame state x = setStatus GAME_OVER (setCanvas (tickClock (canvas s)) x)).
  { intros x Hx Hc. unfold Session.frame.
    rewrite (SimTheory.animate_out Math_sin Math_cos random);
      [now rewrite Hc| |now rewrite Hc].
    unfold frameOf. cbn [isPaused]. now destruct (status x). }
  rewrite (Hf s Hnp eq_refl). split; [reflexivity|]. split; [|split].
  - intros Ht inputs Hall.
    set (g := setStatus GAME_OVER (setCanvas (tickClock (canvas s)) s)).
    assert (Hg : outOfBounds (playerPosition (canvas g)) = true) by exact Hout.
    assert (H0 : overLike g g) by (now repeat split).
    destruct (over_steps inputs g g Hg H0 Hall) as (H1 & H2 & _ & H3 & H4 & H5 & H6 & H7).
    cbn zeta. split; [exact H1|]. split; [exact H3|]. split; [exact H4|].
    split; [exact H6|]. split; [exact H7|].
    set (s' := steps inputs g) in *.
    assert (Er : press StartButton s' = handleStart s').
    { unfold Session.press, screen. now rewrite H1. }
    rewrite Er. unfold Session.handleStart. rewrite H1. cbn [AppStatus_eqb].
    cbn [status gameKey shop canvas Session.settle starting].
    rewrite (SimTheory.initialWorld_position random).
    destruct (CanvasTheory.initialWorld_shards random (mountDraws (Datatypes.S (gameKey s'))))
      as (Es & _ & Ev & _).
    destruct (CanvasTheory.initialShards_count random (mountDraws (Datatypes.S (gameKey s'))))
      as [En _].
    rewrite Es, Ev, En.
    split; [reflexivity|]. split; [now rewrite H4|]. split; [exact H3|].
    now repeat split.
  - intros st rest Ht. cbn [Session.step]. unfold toggled.
    cbn [setStatus setCanvas toggling]. rewrite Ht. reflexivity.
  - intros Hrun Hclosed Ha Ht. unfold Session.steps. cbn [fold_left Session.step].
    assert (Eq : press PauseButton s = setToggling [PAUSED] s).
    { unfold Session.press, screen, togglePause. rewrite Hrun, Hclosed.
      cbn [AppStatus_eqb offers]. now rewrite Ha, Ht. }
    rewrite Eq. rewrite (Hf (setToggling [PAUSED] s)); [reflexivity| |reflexivity].
    cbn [setToggling status]. exact Hnp.
Qed.

End Oracles.


(** X15 with the player at 9000 on the x axis. *)
Lemma game_over_at_9000_then_restart :
  status (Session.frame (constantly 0) (constantly 0) (alwaysDraw 0.25)
            (handState 0 0.12) (runningAt (mkV3 9000 6 0))) = GAME_OVER.
Proof.
  destruct (game_over_lasts_until_restart (constantly 0) (constantly 0) (alwaysDraw 0.25)
              (fun _ => 0%nat) (runningAt (mkV3 9000 6 0)) (handState 0 0.12))
    as (H & _).
  - discriminate.
  - reflexivity.
  - reflexivity.
  - exact H.
Defined.

End SessionTheory.

(** ** The shaders, remaining parts *)

Module FxTheory.
Import Shader Sim Fx ShaderTheory.

Open Scope Q_scope.

(** *** The built-ins *)

Lemma fract_range (x : Q) : 0 <= fract x /\ fract x < 1.
Proof.
  unfold fract, glsl_floor.
  pose proof (Qfloor_le x) as Hlo. pose proof (Qlt_floor x) as Hhi.
  rewrite inject_Z_plus in Hhi. change (inject_Z 1) with 1 in Hhi. split; lra.
Qed.

Lemma glsl_max_spec (x y : Q) :
  (x < y /\ glsl_max x y = y) \/ (y <= x /\ glsl_max x y = x).
Proof.
  unfold glsl_max. destruct (Qlt_bool x y) eqn:E.
  - left. split; [now apply Qlt_bool_true|reflexivity].
  - right. split; [now apply Qlt_bool_false|reflexivity].
Qed.

Lemma glsl_min_spec (x y : Q) :
  (y < x /\ glsl_min x y = y) \/ (x <= y /\ glsl_min x y = x).
Proof.
  unfold glsl_min. destruct (Qlt_bool y x) eqn:E.
  - left. split; [now apply Qlt_bool_true|reflexivity].
  - right. split; [now apply Qlt_bool_false|reflexivity].
Qed.

Lemma clamp_unit (x : Q) :
  0 <= clamp x 0 1 /\ clamp x 0 1 <= 1 /\
  (x <= 0 -> clamp x 0 1 == 0) /\ (1 <= x -> clamp x 0 1 == 1) /\
  (0 <= x -> x <= 1 -> clamp x 0 1 == x).
Proof.
  unfold clamp.
  destruct (glsl_max_spec x 0) as [[H1 ->]|[H1 ->]];
    [destruct (glsl_min_spec 0 1) as [[H2 ->]|[H2 ->]]
    |destruct (glsl_min_spec x 1) as [[H2 ->]|[H2 ->]]];
    repeat split; intros; lra.
Qed.

Lemma hermite_unit (t : Q) :
  0 <= t -> t <= 1 -> 0 <= t * t * (3 - 2 * t) /\ t * t * (3 - 2 * t) <= 1.
Proof.
  intros H0 H1. split; [nra|].
  assert (E : 1 - t * t * (3 - 2 * t) == (1 - t) * (1 - t) * (1 + 2 * t)) by ring.
  assert (0 <= (1 - t) * (1 - t) * (1 + 2 * t)).
  { apply Qmult_le_0_compat; [apply Qmult_le_0_compat|]; lra. }
  lra.
Qed.

Lemma smoothstep_unit (e0 e1 x : Q) :
  0 <= smoothstep e0 e1 x /\ smoothstep e0 e1 x <= 1.
Proof.
  unfold smoothstep. cbn zeta.
  destruct (clamp_unit ((x - e0) / (e1 - e0))) as (H0 & H1 & _).
  now apply hermite_unit.
Qed.

Lemma smoothstep_of_ratio (e0 e1 x : Q) :
  ((x - e0) / (e1 - e0) <= 0 -> smoothstep e0 e1 x == 0) /\
  (1 <= (x - e0) / (e1 - e0) -> smoothstep e0 e1 x == 1).
Proof.
  unfold smoothstep. cbn zeta.
  destruct (clamp_unit ((x - e0) / (e1 - e0))) as (_ & _ & H0 & H1 & _).
  split; intros H.
  - rewrite (H0 H). ring.
  - rewrite (H1 H). ring.
Qed.

(** Rising edges. *)
Lemma smoothstep_up (e0 e1 x : Q) :
  e0 < e1 ->
  (x <= e0 -> smoothstep e0 e1 x == 0) /\ (e1 <= x -> smoothstep e0 e1 x == 1).
Proof.
  intros He. destruct (smoothstep_of_ratio e0 e1 x) as [H0 H1]. split; intros H.
  - apply H0. apply Qle_shift_div_r; lra.
  - apply H1. apply Qle_shift_div_l; lra.
Qed.

(** Falling edges, as in [smoothstep(0.52, 0.5, dist)]. *)
Lemma smoothstep_down (e0 e1 x : Q) :
  e1 < e0 ->
  (e0 <= x -> smoothstep e0 e1 x == 0) /\ (x <= e1 -> smoothstep e0 e1 x == 1).
Proof.
  intros He. destruct (smoothstep_of_ratio e0 e1 x) as [H0 H1].
  assert (E : (x - e0) / (e1 - e0) == (e0 - x) / (e0 - e1)) by (field; lra).
  split; intros H.
  - apply H0. rewrite E. apply Qle_shift_div_r; lra.
  - apply H1. rewrite E. apply Qle_shift_div_l; lra.
Qed.

Lemma mix_unit (a b t : Q) :
  0 <= a -> a < 1 -> 0 <= b -> b < 1 -> 0 <= t -> t <= 1 ->
  0 <= mix a b t /\ mix a b t < 1.
Proof.
  intros Ha0 Ha1 Hb0 Hb1 Ht0 Ht1. unfold mix. split; [nra|].
  assert (E : 1 - (a * (1 - t) + b * t) == (1 - a) * (1 - t) + (1 - b) * t) by ring.
  assert (0 < (1 - a) * (1 - t) + (1 - b) * t).
  { destruct (Qlt_le_dec t (1 # 2)); nra. }
  lra.
Qed.

Section Gpu.

Variable sin : Q -> Q.
Variable cos : Q -> Q.

Local Abbreviation noise := (Fx.noise sin).
Local Abbreviation smoothNoise := (Fx.smoothNoise sin).
Local Abbreviation totalWind := (Fx.totalWind sin).
Local Abbreviation windDisplace := (Fx.windDisplace sin).
Local Abbreviation grassVertex := (Fx.grassVertex sin).
Local Abbreviation grassColor := (Fx.grassColor sin).
Local Abbreviation weatherVertex := (Fx.weatherVertex sin cos).
Local Abbreviation boundaryAlpha := (Fx.boundaryAlpha sin).

Lemma noise_range (x y : Q) : 0 <= noise x y /\ noise x y < 1.
Proof. apply fract_range. Qed.

Lemma smoothNoise_range (px py : Q) : 0 <= smoothNoise px py /\ smoothNoise px py < 1.
Proof.
  unfold Fx.smoothNoise. cbn zeta.
  destruct (fract_range px) as [X0 X1]. destruct (fract_range py) as [Y0 Y1].
  destruct (hermite_unit (fract px)) as [HX0 HX1]; [lra|lra|].
  destruct (hermite_unit (fract py)) as [HY0 HY1]; [lra|lra|].
  assert (EX : fract px * fract px * (3.0 - 2.0 * fract px)
               == fract px * fract px * (3 - 2 * fract px)) by ring.
  assert (EY : fract py * fract py * (3.0 - 2.0 * fract py)
               == fract py * fract py * (3 - 2 * fract py)) by ring.
  rewrite <- EX in HX0, HX1. rewrite <- EY in HY0, HY1.
  set (fx := fract px * fract px * (3.0 - 2.0 * fract px)) in *.
  set (fy := fract py * fract py * (3.0 - 2.0 * fract py)) in *.
  destruct (noise_range (glsl_floor px) (glsl_floor py)).
  destruct (noise_range (glsl_floor px + 1.0) (glsl_floor py + 0.0)).
  destruct (noise_range (glsl_floor px + 0.0) (glsl_floor py + 1.0)).
  destruct (noise_range (glsl_floor px + 1.0) (glsl_floor py + 1.0)).
  apply mix_unit; try assumption; apply mix_unit; assumption.
Qed.

Lemma totalWind_range (worldPos : Vector3) (uTime uWindStrength hp : Q) :
  0 <= uWindStrength -> 0 <= hp ->
  0 <= totalWind worldPos uTime uWindStrength hp /\
  totalWind worldPos uTime uWindStrength hp <= uWindStrength * hp.
Proof.
  intros HW Hh. unfold Fx.totalWind. cbn zeta.
  destruct (smoothNoise_range (v3x worldPos * 0.05 + uTime * 0.5)
                              (v3z worldPos * 0.05 + uTime * 0.5)) as [A0 A1].
  destruct (smoothNoise_range (v3x worldPos * 0.2 + uTime * 2.0)
                              (v3z worldPos * 0.2 + uTime * 2.0)) as [B0 B1].
  set (a := smoothNoise _ _) in *. set (b := Fx.smoothNoise sin (_ * 0.2 + _) _) in *.
  assert (0 <= uWindStrength * hp) by nra.
  assert (0 <= a * 0.7 + b * 0.3) by lra.
  assert (a * 0.7 + b * 0.3 <= 1) by lra.
  split; nra.
Qed.

(** X16.  The wind of the grass shader blows one way.  It moves a vertex
    towards positive x and positive z only, twice as far along x as along z,
    along z by no more than the wind strength times the height of the vertex
    on its blade, and leaves its height alone; the foot of a blade, at height 0,
    stays where the instance matrix puts it, however close the player is. *)
Theorem grass_wind_is_one_sided_and_roots_hold
    (worldPos : Vector3) (uTime uWindStrength posY : Q)
    (dist : Vector3 -> Q) (pushDir : Vector3 -> Vector3) :
  0 <= uWindStrength -> 0 <= posY ->
  let hp := heightPercent posY in
  let blown := windDisplace worldPos uTime uWindStrength hp in
  0 <= v3x blown - v3x worldPos /\
  v3x blown - v3x worldPos <= 2 * uWindStrength * hp /\
  v3x blown - v3x worldPos == 2 * (v3z blown - v3z worldPos) /\
  v3y blown = v3y worldPos /\
  (posY == 0 ->
     v3x (grassVertex posY worldPos uTime uWindStrength dist pushDir) == v3x worldPos /\
     v3y (grassVertex posY worldPos uTime uWindStrength dist pushDir) == v3y worldPos /\
     v3z (grassVertex posY worldPos uTime uWindStrength dist pushDir) == v3z worldPos).
Proof.
  intros HW Hy hp blown.
  assert (Hhp : 0 <= hp).
  { unfold hp, heightPercent. apply Qle_shift_div_l; lra. }
  destruct (totalWind_range worldPos uTime uWindStrength hp HW Hhp) as [T0 T1].
  unfold blown, Fx.windDisplace. cbn [v3x v3y v3z].
  set (tw := totalWind worldPos uTime uWindStrength hp) in *.
  split; [lra|]. split; [lra|]. split; [lra|]. split; [reflexivity|].
  intros H0.
  assert (Ehp : hp == 0) by (unfold hp, heightPercent; rewrite H0; reflexivity).
  assert (Etw : tw == 0) by (rewrite Ehp in T1; lra).
  unfold Fx.grassVertex, interactivePush. cbn zeta. fold hp.
  set (bl := windDisplace worldPos uTime uWindStrength hp).
  assert (Ex : v3x bl == v3x worldPos)
    by (unfold bl, Fx.windDisplace; cbn [v3x]; fold tw; lra).
  assert (Ez : v3z bl == v3z worldPos)
    by (unfold bl, Fx.windDisplace; cbn [v3z]; fold tw; lra).
  assert (Ey : v3y bl == v3y worldPos) by reflexivity.
  clearbody bl. generalize (dist bl) (pushDir bl). intros d pd.
  destruct (Qlt_bool d interactRadius) eqn:Ed; cbn [v3x v3y v3z];
    [|split; [exact Ex|split; [exact Ey|exact Ez]]].
  unfold pushFactor. rewrite Ed. set (q := sq (1 - d / interactRadius)).
  assert (Z : q * 12 * hp == 0) by (rewrite Ehp; ring).
  assert (Zx : v3x pd * (q * 12 * hp) == 0) by (rewrite Z; ring).
  assert (Zz : v3z pd * (q * 12 * hp) == 0) by (rewrite Z; ring).
  repeat split; lra.
Qed.

(** *** The boundary ring *)

Lemma ring_unit (d : Q) : 0 <= ring d /\ ring d <= 1.
Proof.
  unfold ring. destruct (smoothstep_unit 0.48 0.5 d), (smoothstep_unit 0.52 0.5 d).
  split; nra.
Qed.

(** X17.  The red ring on the ground marks the radius of the game over.  At
    planar distance [r] from the centre it has its full strength exactly at
    8000, the distance beyond which the game is over, and none up to 7680 and
    from 8320 on; its alpha pulses between 0 and half the ring strength. *)
Theorem boundary_ring_marks_the_game_over_radius (r uTime : Q) :
  (forall x : Q, - 1 <= sin x /\ sin x <= 1) ->
  ring (uvDistance GAME_OVER_RADIUS) == 1 /\
  (r <= 7680 -> ring (uvDistance r) == 0) /\
  (8320 <= r -> ring (uvDistance r) == 0) /\
  0 <= ring (uvDistance r) /\ ring (uvDistance r) <= 1 /\
  0 <= boundaryAlpha (uvDistance r) uTime /\
  boundaryAlpha (uvDistance r) uTime <= ring (uvDistance r) * 0.5 /\
  (forall p : Vector3,
     distFromCenterSq p == sq GAME_OVER_RADIUS -> outOfBounds p = false).
Proof.
  intros Hsin.
  assert (Eu : forall x, uvDistance x == x / 16000).
  { intros x. unfold uvDistance, GAME_OVER_RADIUS. field. }
  destruct (smoothstep_up 0.48 0.5 (uvDistance r)) as [U0 U1]; [lra|].
  destruct (smoothstep_down 0.52 0.5 (uvDistance r)) as [D0 D1]; [lra|].
  destruct (ring_unit (uvDistance r)) as [R0 R1].
  split; [reflexivity|]. split; [|split].
  - intros H. unfold ring. rewrite U0; [ring|]. rewrite Eu.
    apply Qle_shift_div_r; lra.
  - intros H. unfold ring. rewrite D0; [ring|]. rewrite Eu.
    apply Qle_shift_div_l; lra.
  - split; [exact R0|]. split; [exact R1|].
    unfold Fx.boundaryAlpha. cbn zeta. destruct (Hsin (uTime * 2.0)) as [S0 S1].
    set (g := sin (uTime * 2.0)) in *. set (q := ring (uvDistance r)) in *.
    split; [nra|]. split; [nra|].
    intros p Hp. apply SimTheory.outOfBounds_false. rewrite Hp. apply Qle_refl.
Qed.

(** *** The sun halo *)

(** X18.  The sun halo is brightest at the centre of its plane, where its
    alpha is the opacity uniform, fades to nothing at half the side from the
    centre, and is nowhere stronger than the opacity. *)
Theorem sun_halo_fades_from_centre (dist uOpacity : Q) :
  0 <= uOpacity ->
  sunAlpha 0 uOpacity == uOpacity /\
  (0.5 <= dist -> sunAlpha dist uOpacity == 0) /\
  0 <= sunAlpha dist uOpacity /\ sunAlpha dist uOpacity <= uOpacity.
Proof.
  intros Ho. split; [unfold sunAlpha, sq; cbn zeta|split].
  - destruct (smoothstep_up 0.0 0.5 0) as [U0 _]; [lra|]. rewrite U0; [ring|lra].
  - intros H. unfold sunAlpha, sq. cbn zeta.
    destruct (smoothstep_up 0.0 0.5 dist) as [_ U1]; [lra|]. rewrite (U1 H). ring.
  - unfold sunAlpha, sq. cbn zeta.
    destruct (smoothstep_unit 0.0 0.5 dist) as [S0 S1].
    set (s := smoothstep 0.0 0.5 dist) in *.
    assert (0 <= (1 - s) * (1 - s)) by nra.
    assert ((1 - s) * (1 - s) <= 1) by nra.
    split; nra.
Qed.

(** *** The grass colour and the fog *)

Lemma mix_between (x y a : Q) :
  0 <= a -> a <= 1 -> x <= y -> x <= mix x y a /\ mix x y a <= y.
Proof. intros H0 H1 Hxy. unfold mix. split; nra. Qed.

(** A channel of the grass fragment. *)
Lemma fragment_channel (c fog ndotl dist : Q) :
  0 <= c -> ndotl <= 1 ->
  let lit := c * (glsl_max ndotl 0.0 * 0.6 + 0.4) in
  let out := mix lit fog (smoothstep 500.0 25000.0 dist) in
  0.4 * c <= lit /\ lit <= c /\
  (ndotl <= 0 -> lit == 0.4 * c) /\
  (dist <= 500 -> out == lit) /\
  (25000 <= dist -> out == fog) /\
  between lit fog out.
Proof.
  intros Hc Hn. cbn zeta.
  destruct (smoothstep_up 500.0 25000.0 dist) as [U0 U1]; [lra|].
  destruct (smoothstep_unit 500.0 25000.0 dist) as [S0 S1].
  unfold mix, between.
  set (f := smoothstep 500.0 25000.0 dist) in *.
  assert (L : 0.4 * c <= c * (glsl_max ndotl 0.0 * 0.6 + 0.4) /\
              c * (glsl_max ndotl 0.0 * 0.6 + 0.4) <= c /\
              (ndotl <= 0 -> c * (glsl_max ndotl 0.0 * 0.6 + 0.4) == 0.4 * c)).
  { destruct (glsl_max_spec ndotl 0.0) as [[M ->]|[M ->]].
    - split; [lra|]. split; [lra|]. intros _. lra.
    - split; [nra|]. split; [nra|]. intros H.
      assert (E : ndotl == 0) by lra. rewrite E. lra. }
  destruct L as (L0 & L1 & L2).
  set (lit := c * (glsl_max ndotl 0.0 * 0.6 + 0.4)) in *.
  split; [exact L0|]. split; [exact L1|]. split; [exact L2|].
  split; [intros H; rewrite U0 by lra; ring|].
  split; [intros H; rewrite U1 by lra; ring|].
  destruct (Qlt_le_dec fog lit) as [H|H]; [right|left]; split; nra.
Qed.

(** X19.  For a fragment whose colour has no negative channel and whose
    normal makes a cosine of at most 1 with the sun, channel by channel: the
    light of a grass fragment is its colour dimmed to between 40 and 100
    percent, by the angle to the sun, and to exactly 40 percent when it faces
    away from the sun; up to 500 from the camera there is no fog and the
    fragment has the lit colour, from 25000 on it has exactly the fog colour,
    and in between each channel lies between the lit colour and the fog. *)
Theorem grass_fragment_light_and_fog (vColor : Color) (ndotl dist : Q) :
  nonnegColor vColor -> ndotl <= 1 ->
  eachChannel (fun channel =>
    let lit := channel (scaleColor vColor (glsl_max ndotl 0.0 * 0.6 + 0.4)) in
    let out := channel (grassFragment vColor ndotl dist) in
    0.4 * channel vColor <= lit /\ lit <= channel vColor /\
    (ndotl <= 0 -> lit == 0.4 * channel vColor) /\
    (dist <= 500 -> out == lit) /\
    (25000 <= dist -> out == channel fogColor) /\
    between lit (channel fogColor) out).
Proof.
  intros (Hr & Hg & Hb) Hn. unfold eachChannel, grassFragment, mixColor, scaleColor.
  cbn [cr cg cb]. split; [|split]; now apply fragment_channel.
Qed.

(** *** The weather *)

Lemma weather_loop_count (body : nat -> list Particle * nat -> list Particle * nat)
      (n : nat) :
  (forall j l k, List.length (fst (body j (l, k))) = S (List.length l) /\
                 snd (body j (l, k)) = (k + 4)%nat) ->
  forall from l k,
    List.length (fst (forLoop from n body (l, k))) = (List.length l + n)%nat /\
    snd (forLoop from n body (l, k)) = (k + 4 * n)%nat.
Proof.
  intros Hb. induction n as [|n IH]; intros from l k.
  - cbn [forLoop fst snd]. split; lia.
  - cbn [forLoop]. destruct (Hb from l k) as [H1 H2].
    destruct (body from (l, k)) as [l1 k1]. cbn [fst snd] in H1, H2.
    destruct (IH (S from) l1 k1) as [I1 I2]. rewrite I1, I2. split; lia.
Qed.

Lemma initialWeather_count (random : nat -> Q) (k : nat) :
  List.length (fst (initialWeather random k)) = 2000%nat /\
  snd (initialWeather random k) = (k + 4 * 2000)%nat.
Proof.
  unfold initialWeather.
  match goal with
  | |- context [forLoop 0 2000 ?b _] =>
      destruct (weather_loop_count b 2000) with (from := 0%nat) (l := @nil Particle) (k := k)
        as [H1 H2]
  end.
  - intros j l k0. cbn [fst snd]. rewrite length_app. cbn [List.length]. split; lia.
  - rewrite H1, H2. split; reflexivity.
Qed.

Lemma initialWeather_inBox (random : nat -> Q) (k : nat) :
  (forall n : nat, 0 <= random n /\ random n < 1) ->
  Forall inBox (fst (initialWeather random k)).
Proof.
  intros Hr. unfold initialWeather.
  apply (FieldTheory.forLoop_invariant
           (fun st : list Particle * nat => Forall inBox (fst st))).
  - constructor.
  - intros j [l k0] Hl. cbn [fst] in *. apply Forall_app. split; [exact Hl|].
    constructor; [|constructor].
    destruct (Hr k0) as [? ?]. destruct (Hr (k0 + 1)%nat) as [? ?].
    destruct (Hr (k0 + 2)%nat) as [? ?]. destruct (Hr (k0 + 3)%nat) as [? ?].
    unfold inBox. cbn [startPosition aRandom v3x v3y v3z].
    repeat split; try (apply Qabs_Qle_condition; split); lra.
Qed.

(** X20.  The weather is 2000 particles, made with four random draws each, in a
    box of 400 by 200 by 400 around the weather system.  The shader keeps
    each of them near that box at all times: its height stays between -100
    and 100 and its sway takes it at most 7.5 beyond the box on either
    ground axis.  A fragment farther than half a point from the centre of
    its point is discarded, the others have an alpha of at most 0.8. *)
Theorem weather_stays_in_its_box
    (random : nat -> Q) (k : nat) (uTime uSpeed uSway vAlpha r : Q) :
  (forall n : nat, 0 <= random n /\ random n < 1) ->
  (forall x : Q, - 1 <= sin x /\ sin x <= 1) ->
  (forall x : Q, - 1 <= cos x /\ cos x <= 1) ->
  0 <= vAlpha /\ vAlpha <= 1 ->
  List.length (fst (initialWeather random k)) = 2000%nat /\
  snd (initialWeather random k) = (k + 4 * 2000)%nat /\
  Forall (fun p =>
            inBox p /\
            Qabs (v3x (weatherVertex (startPosition p) (aRandom p) uTime uSpeed uSway))
              <= 207.5 /\
            - 100 < v3y (weatherVertex (startPosition p) (aRandom p) uTime uSpeed uSway) /\
            v3y (weatherVertex (startPosition p) (aRandom p) uTime uSpeed uSway) <= 100 /\
            Qabs (v3z (weatherVertex (startPosition p) (aRandom p) uTime uSpeed uSway))
              <= 207.5)
         (fst (initialWeather random k)) /\
  (weatherAlpha vAlpha r = None <-> 0.5 < r) /\
  (forall a, weatherAlpha vAlpha r = Some a -> 0 <= a /\ a <= 0.8) /\
  (r <= 0.4 -> exists a, weatherAlpha vAlpha r = Some a /\ a == vAlpha * 0.8).
Proof.
  intros Hr Hsin Hcos [Hv0 Hv1].
  destruct (initialWeather_count random k) as [Hn Hk].
  split; [exact Hn|]. split; [exact Hk|]. split; [|split; [|split]].
  - pose proof (initialWeather_inBox random k Hr) as Hb. revert Hb.
    apply Forall_impl. intros p Hp. split; [exact Hp|].
    destruct Hp as (Hx & Hy & Hz & Ha0 & Ha1).
    unfold Fx.weatherVertex. cbn [v3x v3y v3z].
    destruct (Hsin (uTime * uSway + aRandom p * 10.0)) as [S0 S1].
    destruct (Hcos (uTime * uSway * 0.8 + aRandom p * 12.0)) as [C0 C1].
    set (s := sin _) in *. set (c := cos _) in *.
    apply Qabs_Qle_condition in Hx, Hz.
    unfold weatherY.
    destruct (glsl_mod_range (100 - v3y (startPosition p)
                              + fallOffset uTime uSpeed (aRandom p)) height)
      as [M0 M1]; [reflexivity|].
    unfold height in *.
    split; [apply Qabs_Qle_condition; split; nra|]. split; [lra|]. split; [lra|].
    apply Qabs_Qle_condition; split; nra.
  - unfold weatherAlpha. destruct (Qlt_bool 0.5 r) eqn:E.
    + apply Qlt_bool_true in E. split; [intros _; exact E|reflexivity].
    + apply Qlt_bool_false in E. split; [discriminate|intros H; lra].
  - intros a. unfold weatherAlpha. destruct (Qlt_bool 0.5 r); [discriminate|].
    intros [= <-]. destruct (smoothstep_unit 0.4 0.5 r) as [S0 S1].
    set (g := smoothstep 0.4 0.5 r) in *. split; nra.
  - intros H. unfold weatherAlpha.
    assert (E : Qlt_bool 0.5 r = false) by (apply Qlt_bool_false; lra).
    rewrite E. eexists. split; [reflexivity|].
    destruct (smoothstep_up 0.4 0.5 r) as [U0 _]; [lra|]. rewrite (U0 H). ring.
Qed.

End Gpu.

(** X16 for a vertex half way up a blade in a wind of strength 1. *)
Lemma grass_wind_at_half_height :
  0 <= v3x (Fx.windDisplace (constantly 0) (mkV3 10 0 10) 0 1 (heightPercent 2.25)) - 10.
Proof.
  destruct (grass_wind_is_one_sided_and_roots_hold (constantly 0) (mkV3 10 0 10) 0 1 2.25
              (fun _ => 100) (fun _ => mkV3 1 0 0)) as (H & _).
  - lra.
  - lra.
  - exact H.
Defined.

(** X17 with a constant [sin]. *)
Lemma boundary_ring_at_7000 : ring (uvDistance 7000) == 0.
Proof.
  destruct (boundary_ring_marks_the_game_over_radius (constantly 0) 7000 0)
    as (_ & H & _).
  - intros x. unfold constantly. split; lra.
  - apply H. lra.
Defined.

(** X18 at the opacity the calm meadow aims at. *)
Lemma sun_halo_at_calm_opacity : sunAlpha 0 0.4 == 0.4.
Proof.
  destruct (sun_halo_fades_from_centre 0 0.4) as (H & _); [lra|exact H].
Defined.

(** X19 for a white fragment facing away from the sun, near the camera. *)
Lemma grass_fragment_in_the_shade :
  cr (grassFragment (mkColor 1 1 1) (- 1) 100) == 0.4 * 1.
Proof.
  destruct (grass_fragment_light_and_fog (mkColor 1 1 1) (- 1) 100)
    as ((_ & _ & H1 & H2 & _) & _).
  - unfold nonnegColor. cbn [cr cg cb]. repeat split; lra.
  - lra.
  - cbn zeta in H1, H2. rewrite H2 by lra. apply H1. lra.
Defined.

(** X20 for draws that are all 0.25. *)
Lemma weather_of_constant_draws :
  List.length (fst (initialWeather (alwaysDraw 0.25) 0)) = 2000%nat.
Proof.
  destruct (weather_stays_in_its_box (constantly 0) (constantly 0) (alwaysDraw 0.25)
              0 0 10 1 1 0) as (H & _).
  - intros n. unfold alwaysDraw. split; lra.
  - intros x. unfold constantly. split; lra.
  - intros x. unfold constantly. split; lra.
  - split; lra.
  - exact H.
Defined.

End FxTheory.

(** ** Ranges of the simulation *)

Module EnvelopeTheory.
Import Sim Envelope SimTheory.

Open Scope Q_scope.

Lemma byte_channel (x : Z) :
  0 <= inject_Z (Z.land x 255) / 255 /\ inject_Z (Z.land x 255) / 255 <= 1.
Proof.
  assert (Hz : (0 <= Z.land x 255 <= 255)%Z).
  { change 255%Z with (Z.ones 8). rewrite Z.land_ones by lia.
    pose proof (Z.mod_pos_bound x (2 ^ 8) ltac:(lia)) as [H0 H1].
    change (2 ^ 8)%Z with 256%Z in *. change (Z.ones 8) with 255%Z. lia. }
  destruct Hz as [H0 H1]. set (n := Z.land x 255) in *.
  assert (Q0 : 0 <= inject_Z n)
    by (change 0 with (inject_Z 0); now rewrite <- Zle_Qle).
  assert (Q1 : inject_Z n <= 255)
    by (change 255 with (inject_Z 255); now rewrite <- Zle_Qle).
  split; [apply Qle_shift_div_l; lra|apply Qle_shift_div_r; lra].
Qed.

(** Whatever the number, [setHex] gives channels in the unit interval. *)
Lemma setHex_unit (hex : Z) : unitColor (setHex hex).
Proof.
  unfold unitColor, setHex. cbn [cr cg cb].
  split; [|split]; apply byte_channel.
Qed.

Lemma lerp1_within (lo hi cur target alpha : Q) :
  0 <= alpha -> alpha <= 1 ->
  lo <= cur /\ cur <= hi -> lo <= target /\ target <= hi ->
  lo <= lerp1 cur target alpha /\ lerp1 cur target alpha <= hi.
Proof. intros H0 H1 [Hc0 Hc1] [Ht0 Ht1]. unfold lerp1. split; nra. Qed.

Lemma Color_lerp_unit (c target : Color) (alpha : Q) :
  0 <= alpha -> alpha <= 1 -> unitColor c -> unitColor target ->
  unitColor (Color_lerp c target alpha).
Proof.
  intros H0 H1 (Hr & Hg & Hb) (Tr & Tg & Tb). unfold unitColor, Color_lerp.
  cbn [cr cg cb]. split; [|split]; now apply lerp1_within.
Qed.

Lemma targets_in_range (e : Emotion) :
  unitColor (targetBase (targets e)) /\ unitColor (targetTip (targets e)) /\
  unitColor (sunColor (targets e)) /\ unitColor (targetWeatherColor (targets e)) /\
  unitColor (targetHaloColor (targets e)) /\
  (6 <= targetWeatherSpeed (targets e) /\ targetWeatherSpeed (targets e) <= 20) /\
  (0.8 <= targetWeatherSway (targets e) /\ targetWeatherSway (targets e) <= 2) /\
  (2.5 <= targetWeatherSize (targets e) /\ targetWeatherSize (targets e) <= 5) /\
  (0 <= targetHaloOpacity (targets e) /\ targetHaloOpacity (targets e) <= 0.6).
Proof.
  destruct e;
    cbn [targets targetBase targetTip sunColor targetWeatherColor targetHaloColor
         targetWeatherSpeed targetWeatherSway targetWeatherSize targetHaloOpacity];
    (repeat (split; [apply setHex_unit|])); repeat split; lra.
Qed.

Lemma blend_envelope (state : SystemState) (env : Environment) :
  inEnvelope env -> inEnvelope (blend state env).
Proof.
  intros (E1 & E2 & E3 & E4 & E5 & E6 & E7 & E8 & E9).
  destruct (targets_in_range (emotion state)) as (T1 & T2 & T3 & T4 & T5 & T6 & T7 & T8 & T9).
  unfold inEnvelope, blend, BLEND_RATE, HALO_OPACITY_RATE.
  cbn [uBaseColor uTipColor sunLightColor currentWeather haloColor uOpacity
       color speed sway size].
  repeat (split; [apply Color_lerp_unit; try assumption; lra|]).
  split; [apply (lerp1_within 6 20); try assumption; lra|].
  split; [apply (lerp1_within 0.8 2); try assumption; lra|].
  split; [apply (lerp1_within 2.5 5); try assumption; lra|].
  apply (lerp1_within 0 0.6); try assumption; lra.
Qed.

Lemma initial_envelope : inEnvelope initialEnvironment.
Proof.
  unfold inEnvelope, initialEnvironment.
  cbn [uBaseColor uTipColor sunLightColor currentWeather haloColor uOpacity
       color speed sway size].
  repeat (split; [apply setHex_unit|]). repeat split; lra.
Qed.

Lemma speedZ_bound (st : SystemState) :
  Qabs (speedZ st) <= DEPTH_GAIN * Qabs (handSize st - NEUTRAL_SIZE).
Proof.
  unfold speedZ, DEPTH_GAIN. cbn zeta.
  set (diff := handSize st - NEUTRAL_SIZE).
  pose proof (Qabs_nonneg diff) as Hn.
  destruct (Qlt_bool SIZE_DEADZONE (Qabs diff)).
  - rewrite Qabs_opp, Qabs_Qmult, (Qabs_pos 25.0) by lra. lra.
  - rewrite (Qabs_pos 0) by lra. lra.
Qed.

Lemma smoothed_within (B v t : Q) :
  Qabs v <= B -> Qabs t <= B -> Qabs (v * 0.9 + t * 0.1) <= B.
Proof.
  intros Hv Ht. apply Qabs_Qle_condition in Hv, Ht.
  apply Qabs_Qle_condition. split; lra.
Qed.

Section Oracles.

Variable Math_sin : Q -> Q.
Variable Math_cos : Q -> Q.
Variable random : nat -> Q.

Local Abbreviation animate := (Sim.animate Math_sin Math_cos random).
Local Abbreviation advance := (Sim.advance Math_sin Math_cos random).
Local Abbreviation run := (Sim.run Math_sin Math_cos random).
Local Abbreviation hover := (Sim.hover Math_sin Math_cos).

Lemma animate_envelope (f : Frame) (w : World) :
  inEnvelope (environment w) -> inEnvelope (environment (fst (animate f w))).
Proof.
  intros H. unfold Sim.animate. destruct (isPaused f); [exact H|].
  destruct (outOfBounds (playerPosition w)); [exact H|].
  rewrite (SimTheory.advance_environment Math_sin Math_cos random).
  now apply blend_envelope.
Qed.

Lemma run_envelope (frames : list Frame) (w : World) :
  inEnvelope (environment w) -> inEnvelope (environment (fst (run frames w))).
Proof.
  revert w. induction frames as [|f frames IH]; intros w H; [exact H|].
  cbn [Sim.run]. pose proof (animate_envelope f w H) as Ha.
  destruct (animate f w) as [w1 ev1]. specialize (IH w1 Ha).
  destruct (run frames w1) as [w2 ev2]. exact IH.
Qed.

(** X21.  The blender never leaves the ranges spanned by its initial values
    and its targets, whatever the emotions of the frames and however they
    change: every colour channel stays in the unit interval, the weather
    speed in [[6, 20]], the sway in [[0.8, 2]], the size in [[2.5, 5]] and the
    halo opacity in [[0, 0.6]].  A fresh canvas starts inside these ranges. *)
Theorem blender_stays_in_range (frames : list Frame) (k : nat) :
  inEnvelope (environment (fst (run frames (initialWorld random k)))) /\
  (forall w : World,
     inEnvelope (environment w) -> inEnvelope (environment (fst (run frames w)))) /\
  (forall (state : SystemState) (env : Environment),
     inEnvelope env -> inEnvelope (blend state env)) /\
  (forall hex : Z, unitColor (setHex hex)).
Proof.
  split; [|split; [|split]].
  - apply run_envelope.
    destruct (CanvasTheory.initialWorld_shards random k) as (_ & _ & _ & _ & E).
    rewrite E. apply initial_envelope.
  - intros w. apply run_envelope.
  - apply blend_envelope.
  - apply setHex_unit.
Qed.

(** *** The speed of the player *)

Lemma ticks_cons (f : Frame) (frames : list Frame) :
  ticks (f :: frames) == (if isPaused f then 0 else 1) + ticks frames.
Proof.
  unfold ticks, unpausedFrames. cbn [filter]. destruct (isPaused f); cbn [negb].
  - ring.
  - cbn [List.length]. rewrite Nat2Z.inj_succ, <- Z.add_1_l, inject_Z_plus. ring.
Qed.

Lemma ticks_nonneg (frames : list Frame) : 0 <= ticks frames.
Proof.
  unfold ticks. change 0 with (inject_Z 0). rewrite <- Zle_Qle. lia.
Qed.

(** What one frame can do to velocity and position. *)
Lemma animate_speed (reach : Q) (f : Frame) (w : World) :
  handWithin reach f ->
  Qabs (v2x (playerVelocity w)) <= TURN_GAIN ->
  Qabs (v2y (playerVelocity w)) <= DEPTH_GAIN * reach ->
  let w' := fst (animate f w) in
  let t := if isPaused f then 0 else 1 in
  Qabs (v2x (playerVelocity w')) <= TURN_GAIN /\
  Qabs (v2y (playerVelocity w')) <= DEPTH_GAIN * reach /\
  Qabs (v3x (playerPosition w') - v3x (playerPosition w)) <= 1.5 * t /\
  Qabs (v3z (playerPosition w') - v3z (playerPosition w)) <= 15 * reach * t /\
  v3y (playerPosition w') = v3y (playerPosition w).
Proof.
  intros [Hx Hs] Hvx Hvy. cbn zeta.
  assert (Hr : 0 <= DEPTH_GAIN * reach)
    by (pose proof (Qabs_nonneg (v2y (playerVelocity w))); lra).
  assert (Z0 : forall a : Q, Qabs (a - a) <= 0).
  { intros a. assert (E : a - a == 0) by ring. rewrite E. apply Qle_refl. }
  unfold Sim.animate. destruct (isPaused f).
  { cbn [fst]. pose proof (Z0 (v3x (playerPosition w))).
    pose proof (Z0 (v3z (playerPosition w))). repeat split; try assumption; lra. }
  destruct (outOfBounds (playerPosition w)).
  { cbn [fst tickClock playerVelocity playerPosition].
    pose proof (Z0 (v3x (playerPosition w))).
    pose proof (Z0 (v3z (playerPosition w))).
    unfold DEPTH_GAIN in *. repeat split; try assumption; lra. }
  unfold Sim.advance.
  destruct (Sim.shardLoop _ _ _ _ _ _ _) as [[l k] ev].
  cbn [fst playerVelocity playerPosition].
  assert (Ht : Qabs (turn (state f)) <= TURN_GAIN).
  { unfold turn, TURN_GAIN. rewrite Qabs_Qmult, (Qabs_pos 2.5) by lra. lra. }
  assert (Hz : Qabs (speedZ (state f)) <= DEPTH_GAIN * reach).
  { pose proof (speedZ_bound (state f)). unfold DEPTH_GAIN in *. lra. }
  pose proof (smoothed_within _ _ _ Hvx Ht) as Vx.
  pose proof (smoothed_within _ _ _ Hvy Hz) as Vy.
  unfold updateVelocity, updatePosition, moveSpeed. cbn [v2x v2y v3x v3y v3z].
  set (vx := v2x (playerVelocity w) * 0.9 + turn (state f) * 0.1) in *.
  set (vy := v2y (playerVelocity w) * 0.9 + speedZ (state f) * 0.1) in *.
  split; [exact Vx|]. split; [exact Vy|].
  apply Qabs_Qle_condition in Vx, Vy. unfold TURN_GAIN, DEPTH_GAIN in *.
  split; [apply Qabs_Qle_condition; split; lra|].
  split; [apply Qabs_Qle_condition; split; lra|reflexivity].
Qed.

Lemma abs_chain (a b c p q : Q) :
  Qabs (b - a) <= p -> Qabs (c - b) <= q -> Qabs (c - a) <= p + q.
Proof.
  intros H1 H2. apply Qabs_Qle_condition in H1, H2.
  apply Qabs_Qle_condition. split; lra.
Qed.

(** X22.  The player has a top speed.  While the hand stays inside the
    image, and its size within some reach of the neutral size, the lateral
    velocity never exceeds the turn gain 2.5 and the depth velocity never 25
    times the reach; the player then moves at most 1.5 sideways and 15 times
    the reach in depth per unpaused frame, and never changes height. *)
Theorem player_speed_is_bounded (reach : Q) (frames : list Frame) (w : World) :
  Forall (handWithin reach) frames ->
  Qabs (v2x (playerVelocity w)) <= TURN_GAIN ->
  Qabs (v2y (playerVelocity w)) <= DEPTH_GAIN * reach ->
  let w' := fst (run frames w) in
  Qabs (v2x (playerVelocity w')) <= TURN_GAIN /\
  Qabs (v2y (playerVelocity w')) <= DEPTH_GAIN * reach /\
  Qabs (v3x (playerPosition w') - v3x (playerPosition w)) <= 1.5 * ticks frames /\
  Qabs (v3z (playerPosition w') - v3z (playerPosition w)) <= 15 * reach * ticks frames /\
  v3y (playerPosition w') = v3y (playerPosition w).
Proof.
  intros Hall. revert w. induction Hall as [|f frames Hf Hall IH]; intros w Hvx Hvy.
  - cbn [Sim.run fst]. unfold ticks, unpausedFrames. cbn [filter List.length].
    change (inject_Z (Z.of_nat 0)) with 0.
    assert (Z0 : forall a : Q, Qabs (a - a) <= 0).
    { intros a. assert (E : a - a == 0) by ring. rewrite E. apply Qle_refl. }
    pose proof (Z0 (v3x (playerPosition w))). pose proof (Z0 (v3z (playerPosition w))).
    repeat split; try assumption; lra.
  - cbn zeta. cbn [Sim.run].
    destruct (animate_speed reach f w Hf Hvx Hvy) as (A1 & A2 & A3 & A4 & A5).
    destruct (animate f w) as [w1 ev1]. cbn [fst] in A1, A2, A3, A4, A5.
    destruct (IH w1 A1 A2) as (I1 & I2 & I3 & I4 & I5).
    destruct (run frames w1) as [w2 ev2]. cbn [fst] in *.
    split; [exact I1|]. split; [exact I2|].
    pose proof (abs_chain _ _ _ _ _ A3 I3) as Cx.
    pose proof (abs_chain _ _ _ _ _ A4 I4) as Cz.
    rewrite ticks_cons.
    split; [eapply Qle_trans; [exact Cx|]; lra|].
    split; [eapply Qle_trans; [exact Cz|]; lra|congruence].
Qed.

(** *** What follows the player *)

Lemma hover_box (type : string) (time : Q) :
  (forall x : Q, - 1 <= Math_sin x /\ Math_sin x <= 1) ->
  (forall x : Q, - 1 <= Math_cos x /\ Math_cos x <= 1) ->
  Qabs (v3x (hover type time)) <= 8 /\
  (2 <= v3y (hover type time) /\ v3y (hover type time) <= 12) /\
  Qabs (v3z (hover type time)) <= 8.
Proof.
  intros Hsin Hcos. unfold Sim.hover.
  destruct (String.eqb type "comp_firefly"); [|destruct (String.eqb type "comp_spirit")];
    cbn [v3x v3y v3z];
    match goal with
    | |- Qabs (Math_sin ?a * _) <= _ /\ (_ <= Math_cos ?b * _ + _ /\ _) /\
         Qabs (Math_cos ?c * _) <= _ =>
        destruct (Hsin a), (Hcos b), (Hcos c)
    end;
    (split; [apply Qabs_Qle_condition; split; lra|]);
    (split; [split; lra|]); apply Qabs_Qle_condition; split; lra.
Qed.

(** X23.  A frame that runs to its end puts the scene around the player
    again: the player group, the ground and the weather system are at the
    player's ground position, the ground at height 0, the weather system at
    50 and the player group between 5 and 7.  The camera closes a twentieth
    of its gap to the point 30 above and 60 behind the player.  The companion
    closes a twentieth of its gap to a target that hovers within 8, on both
    ground axes, of its anchor 8 beside the player; so its distance to the
    anchor after the frame is at most 0.95 times the sum of its distance to
    the anchor before the frame and of the way the player has made, plus 0.4,
    and a companion within 8 of its anchor stays within 8 on an axis along
    which the player does not move.  When the player moves it need not. *)
Theorem scene_follows_the_player (f : Frame) (w : World) :
  (forall x : Q, - 1 <= Math_sin x /\ Math_sin x <= 1) ->
  (forall x : Q, - 1 <= Math_cos x /\ Math_cos x <= 1) ->
  isPaused f = false -> outOfBounds (playerPosition w) = false ->
  let w' := fst (animate f w) in
  let p0 := playerPosition w in
  let p := playerPosition w' in
  let c0 := companionPosition w in
  let c := companionPosition w' in
  let h := hover (activeCompanion f) (timeRef w') in
  let target := mkV3 (v3x p + v3x h + 8) (v3y (playerGroupPosition w') + v3y h)
                     (v3z p + v3z h) in
  (v3x (playerGroupPosition w') = v3x p /\ v3z (playerGroupPosition w') = v3z p /\
   5 <= v3y (playerGroupPosition w') /\ v3y (playerGroupPosition w') <= 7) /\
  groundPosition w' = mkV3 (v3x p) 0 (v3z p) /\
  weatherSystemPosition w' = mkV3 (v3x p) 50 (v3z p) /\
  (v3x p - v3x (cameraPosition w') == 0.95 * (v3x p - v3x (cameraPosition w)) /\
   30 - v3y (cameraPosition w') == 0.95 * (30 - v3y (cameraPosition w)) /\
   v3z p + 60 - v3z (cameraPosition w') == 0.95 * (v3z p + 60 - v3z (cameraPosition w))) /\
  (Qabs (v3x target - (v3x p + 8)) <= 8 /\ Qabs (v3z target - v3z p) <= 8) /\
  (v3x target - v3x c == 0.95 * (v3x target - v3x c0) /\
   v3y target - v3y c == 0.95 * (v3y target - v3y c0) /\
   v3z target - v3z c == 0.95 * (v3z target - v3z c0)) /\
  (Qabs (v3x c - (v3x p + 8))
     <= 0.95 * (Qabs (v3x c0 - (v3x p0 + 8)) + Qabs (v3x p - v3x p0)) + 0.4 /\
   Qabs (v3z c - v3z p)
     <= 0.95 * (Qabs (v3z c0 - v3z p0) + Qabs (v3z p - v3z p0)) + 0.4) /\
  (v3x p == v3x p0 -> Qabs (v3x c0 - (v3x p0 + 8)) <= 8 ->
   Qabs (v3x c - (v3x p + 8)) <= 8) /\
  (v3z p == v3z p0 -> Qabs (v3z c0 - v3z p0) <= 8 ->
   Qabs (v3z c - v3z p) <= 8).
Proof.
  intros Hsin Hcos Hp Ho. cbn zeta.
  rewrite (SimTheory.animate_running Math_sin Math_cos random f w Hp Ho).
  unfold Sim.advance. destruct (Sim.shardLoop _ _ _ _ _ _ _) as [[l k] ev].
  cbn [fst playerPosition playerGroupPosition groundPosition weatherSystemPosition
       cameraPosition companionPosition timeRef].
  set (p := updatePosition (updateVelocity (state f) (playerVelocity w)) (playerPosition w)).
  destruct (hover_box (activeCompanion f) (timeRef w + 0.01) Hsin Hcos) as (Hx & _ & Hz).
  destruct (Hsin ((timeRef w + 0.01) * 1.5)) as [S0 S1].
  set (h := hover (activeCompanion f) (timeRef w + 0.01)) in *.
  unfold Vector3_lerp, lerp1. cbn [v3x v3y v3z].
  split; [repeat split; lra|]. split; [reflexivity|]. split; [reflexivity|].
  split; [repeat split; ring|].
  apply Qabs_Qle_condition in Hx, Hz.
  split; [split; apply Qabs_Qle_condition; split; lra|].
  split; [repeat split; ring|].
  pose proof (Qle_Qabs (v3x (companionPosition w) - (v3x (playerPosition w) + 8))) as A1.
  pose proof (Qle_Qabs (- (v3x (companionPosition w) - (v3x (playerPosition w) + 8)))) as A2.
  rewrite Qabs_opp in A2.
  pose proof (Qle_Qabs (v3x p - v3x (playerPosition w))) as A3.
  pose proof (Qle_Qabs (- (v3x p - v3x (playerPosition w)))) as A4.
  rewrite Qabs_opp in A4.
  pose proof (Qle_Qabs (v3z (companionPosition w) - v3z (playerPosition w))) as B1.
  pose proof (Qle_Qabs (- (v3z (companionPosition w) - v3z (playerPosition w)))) as B2.
  rewrite Qabs_opp in B2.
  pose proof (Qle_Qabs (v3z p - v3z (playerPosition w))) as B3.
  pose proof (Qle_Qabs (- (v3z p - v3z (playerPosition w)))) as B4.
  rewrite Qabs_opp in B4.
  split; [split; apply Qabs_Qle_condition; split; lra|].
  split; intros E H; apply Qabs_Qle_condition in H; apply Qabs_Qle_condition; split; lra.
Qed.

End Oracles.

(** X22 for one idle frame from rest. *)
Lemma idle_frame_keeps_player_at_rest :
  Qabs (v2x (playerVelocity
               (fst (Sim.run (constantly 0) (constantly 0) (alwaysDraw 0.25) [idleFrame]
                             (worldAt (mkV3 0 6 0) []))))) <= TURN_GAIN.
Proof.
  destruct (player_speed_is_bounded (constantly 0) (constantly 0) (alwaysDraw 0.25)
              1 [idleFrame] (worldAt (mkV3 0 6 0) [])) as (H & _).
  - constructor; [|constructor]. unfold handWithin, idleFrame, handState, NEUTRAL_SIZE.
    cbn [state handPosition handSize v2x]. split; apply Qabs_Qle_condition; split; lra.
  - cbn [worldAt playerVelocity v2x]. unfold TURN_GAIN. apply Qabs_Qle_condition. split; lra.
  - cbn [worldAt playerVelocity v2y]. unfold DEPTH_GAIN. apply Qabs_Qle_condition. split; lra.
  - exact H.
Defined.

(** X23 for one idle frame at the start. *)
Lemma ground_under_the_player_at_start :
  groundPosition (fst (Sim.animate (constantly 0) (constantly 0) (alwaysDraw 0.25) idleFrame
                                   (worldAt (mkV3 0 6 0) [])))
  = mkV3 (v3x (playerPosition
                 (fst (Sim.animate (constantly 0) (constantly 0) (alwaysDraw 0.25) idleFrame
                                   (worldAt (mkV3 0 6 0) [])))))
         0
         (v3z (playerPosition
                 (fst (Sim.animate (constantly 0) (constantly 0) (alwaysDraw 0.25) idleFrame
                                   (worldAt (mkV3 0 6 0) []))))).
Proof.
  destruct (scene_follows_the_player (constantly 0) (constantly 0) (alwaysDraw 0.25)
              idleFrame (worldAt (mkV3 0 6 0) [])) as (_ & H & _).
  - intros x. unfold constantly. split; lra.
  - intros x. unfold constantly. split; lra.
  - reflexivity.
  - reflexivity.
  - exact H.
Defined.

End EnvelopeTheory.

(** ** The store and the scene *)

Module WardrobeTheory.
Import App Scene ShopFlow AppTheory CosmeticTheory.

Open Scope string_scope.

Lemma equip_marks_item (s : Shop) (item : StoreItem) :
  In item (storeItems s) -> unlocked item = true ->
  In (set_active true item) (storeItems (handleEquip item s)).
Proof.
  intros Hin Hu. simpl. unfold handleEquipItems. rewrite Hu. simpl.
  apply in_map_iff. exists item. split; [|exact Hin].
  now rewrite equipOne_spec, ItemType_eqb_refl, String.eqb_refl.
Qed.

(** The selector of the type of an equipped item names that item. *)
Lemma equip_selects (s : Shop) (item : StoreItem) :
  reachable s -> In item (storeItems s) -> unlocked item = true ->
  activeOf (type item) (handleEquip item s) = id item.
Proof.
  intros Hr Hin Hu.
  assert (Hr' : reachable (handleEquip item s)) by now apply reach_equip.
  destruct (reachable_inv _ Hr') as (Hid' & Hs' & Hc').
  pose proof (equip_marks_item s item Hin Hu) as Hitem.
  destruct (type item) eqn:Ht; unfold activeOf.
  - destruct (selector_defined skin "skin_default" _ Hid' Hs')
      as (i & _ & Hi & Hti & Hai & Hsel).
    unfold activeSkin. rewrite Hsel.
    now rewrite (active_unique skin _ i (set_active true item)
                   Hs' Hi Hti Hai Hitem Ht eq_refl).
  - destruct (selector_defined companion "comp_butterfly" _ Hid' Hc')
      as (i & _ & Hi & Hti & Hai & Hsel).
    unfold activeCompanion. rewrite Hsel.
    now rewrite (active_unique companion _ i (set_active true item)
                   Hc' Hi Hti Hai Hitem Ht eq_refl).
Qed.

Lemma findActive_equip_other (t : ItemType) (item : StoreItem) (l : list StoreItem) :
  t <> type item -> findActive t (map (equipOne item) l) = findActive t l.
Proof.
  intros Ht. unfold findActive. induction l as [|a l IH]; [reflexivity|].
  cbn [map find]. rewrite equipOne_spec.
  destruct (ItemType_eqb (type a) (type item)) eqn:E.
  - apply ItemType_eqb_eq in E.
    assert (E1 : ItemType_eqb (type (set_active (id a =? id item) a)) t = false).
    { cbn [set_active type]. destruct (ItemType_eqb (type a) t) eqn:E2; [|reflexivity].
      apply ItemType_eqb_eq in E2. congruence. }
    assert (E2 : ItemType_eqb (type a) t = false) by exact E1.
    rewrite E1, E2. cbn [andb]. exact IH.
  - destruct (ItemType_eqb (type a) t && active a); [reflexivity|exact IH].
Qed.

(** The selector of the other type is not affected. *)
Lemma equip_keeps_other (t : ItemType) (s : Shop) (item : StoreItem) :
  t <> type item -> activeOf t (handleEquip item s) = activeOf t s.
Proof.
  intros Ht.
  assert (E : findActive t (storeItems (handleEquip item s)) = findActive t (storeItems s)).
  { simpl. unfold handleEquipItems. destruct (negb (unlocked item)); [reflexivity|].
    now apply findActive_equip_other. }
  destruct t; unfold activeOf, activeSkin, activeCompanion; now rewrite E.
Qed.

Section WithPI.

Variable Math_PI : Q.

Local Abbreviation cosmeticEffect := (Scene.cosmeticEffect Math_PI).
Local Abbreviation companionParts := (Scene.companionParts Math_PI).

Lemma effect_refs (skin comp : string) (c : Cosmetics) :
  activeSkinRef (cosmeticEffect skin comp c) = skin /\
  activeCompanionRef (cosmeticEffect skin comp c) = comp.
Proof.
  unfold Scene.cosmeticEffect.
  destruct (skin =? activeSkinRef c) eqn:E1; [|now split].
  destruct (comp =? activeCompanionRef c) eqn:E2; [|now split].
  apply String.eqb_eq in E1, E2. cbn [andb]. now split.
Qed.

(** X24.  What is equipped is what is shown.  After an unlocked item is
    equipped and the canvas has run its effect, the selector of the item's
    type names the item, the other selector is as before, and the scene holds
    the mesh of the selected skin beside the player light, one mesh in all,
    and the parts of the selected companion.  Only the butterfly has more
    than two parts, its two wings first. *)
Theorem equipped_item_is_shown (s : Shop) (item : StoreItem) (c : Cosmetics) :
  reachable s -> In item (storeItems s) -> unlocked item = true ->
  cosmeticsReachable Math_PI c ->
  let s' := handleEquip item s in
  let c' := cosmeticEffect (activeSkin s') (activeCompanion s') c in
  (type item = skin ->
     activeSkin s' = id item /\ activeCompanion s' = activeCompanion s /\
     playerChildren c' = [playerLight; playerMesh (id item)]) /\
  (type item = companion ->
     activeCompanion s' = id item /\ activeSkin s' = activeSkin s /\
     companionChildren c' = companionParts (id item)) /\
  playerChildren c' = [playerLight; playerMesh (activeSkin s')] /\
  companionChildren c' = companionParts (activeCompanion s') /\
  countMeshes (playerChildren c') = 1%nat /\
  ((2 < List.length (companionChildren c'))%nat <->
   (activeCompanion s' =? "comp_firefly") = false /\
   (activeCompanion s' =? "comp_spirit") = false) /\
  ((2 < List.length (companionChildren c'))%nat ->
   map isMesh (companionChildren c') = [true; true; false]).
Proof.
  intros Hr Hin Hu Hc. cbn zeta.
  set (s' := handleEquip item s).
  set (c' := cosmeticEffect (activeSkin s') (activeCompanion s') c).
  assert (Hc' : cosmeticsReachable Math_PI c') by (now apply reach_effect).
  destruct (CosmeticTheory.cosmetics_invariant Math_PI c' Hc') as [Hp Hq].
  destruct (effect_refs (activeSkin s') (activeCompanion s') c) as [R1 R2].
  fold c' in R1, R2. rewrite R1 in Hp. rewrite R2 in Hq.
  pose proof (equip_selects s item Hr Hin Hu) as Hsel. fold s' in Hsel.
  split; [|split; [|split; [exact Hp|split; [exact Hq|split; [|split]]]]].
  - intros Ht. rewrite Ht in Hsel. cbn [activeOf] in Hsel.
    assert (Ho : activeOf companion s' = activeOf companion s)
      by (apply equip_keeps_other; rewrite Ht; discriminate).
    cbn [activeOf] in Ho. split; [exact Hsel|]. split; [exact Ho|]. now rewrite Hp, Hsel.
  - intros Ht. rewrite Ht in Hsel. cbn [activeOf] in Hsel.
    assert (Ho : activeOf skin s' = activeOf skin s)
      by (apply equip_keeps_other; rewrite Ht; discriminate).
    cbn [activeOf] in Ho. split; [exact Hsel|]. split; [exact Ho|]. now rewrite Hq, Hsel.
  - rewrite Hp. unfold countMeshes. cbn [filter isMesh playerLight].
    now rewrite CosmeticTheory.playerMesh_isMesh.
  - rewrite Hq. unfold Scene.companionParts.
    destruct (activeCompanion s' =? "comp_firefly");
      [|destruct (activeCompanion s' =? "comp_spirit")]; cbn [List.length];
      split; try lia; try (intros [? ?]; discriminate); now split.
  - rewrite Hq. unfold Scene.companionParts.
    destruct (activeCompanion s' =? "comp_firefly");
      [|destruct (activeCompanion s' =? "comp_spirit")]; cbn [List.length map isMesh];
      intros H; try lia; reflexivity.
Qed.

End WithPI.

(** X24 for the default skin of the initial store. *)
Lemma default_skin_is_shown :
  activeSkin (handleEquip (mkItem "skin_default" "光之球" skin 0 true true
                                  "最纯粹的光芒形态。") initialShop) = "skin_default".
Proof.
  destruct (equipped_item_is_shown 3.14159 initialShop
              (mkItem "skin_default" "光之球" skin 0 true true "最纯粹的光芒形态。")
              (mountCosmetics 3.14159 "skin_default" "comp_butterfly"))
    as (H & _).
  - apply reach_init.
  - left. reflexivity.
  - reflexivity.
  - apply reach_mount.
  - destruct (H eq_refl) as (H1 & _). exact H1.
Defined.

End WardrobeTheory.

(** ** Every state of a session *)

Module SessionInvariants.
Import App Sim ShopFlow Session AppTheory SimTheory SessionTheory.

Open Scope Q_scope.

Lemma signals_reachable (events : list Event) (s : AppState) :
  reachable (shop s) -> reachable (shop (fold_left signal events s)).
Proof.
  revert s. induction events as [|e events IH]; intros s Hr; [exact Hr|].
  cbn [fold_left]. apply IH. destruct e; cbn [signal handleGameOver setStatus setShop shop].
  - exact Hr.
  - now apply reach_collect.
Qed.

Section Oracles.

Variable Math_sin : Q -> Q.
Variable Math_cos : Q -> Q.
Variable random : nat -> Q.
Variable mountDraws : nat -> nat.

Local Abbreviation animate := (Sim.animate Math_sin Math_cos random).
Local Abbreviation frame := (Session.frame Math_sin Math_cos random).
Local Abbreviation step := (Session.step Math_sin Math_cos random mountDraws).
Local Abbreviation steps := (Session.steps Math_sin Math_cos random mountDraws).
Local Abbreviation initialApp := (Session.initialApp random mountDraws).

Lemma animate_height (f : Frame) (w : World) :
  v3y (playerPosition (fst (animate f w))) = v3y (playerPosition w).
Proof.
  unfold Sim.animate. destruct (isPaused f); [reflexivity|].
  destruct (outOfBounds (playerPosition w)); [reflexivity|].
  unfold Sim.advance. destruct (Sim.shardLoop _ _ _ _ _ _ _) as [[l k] ev]. reflexivity.
Qed.

Lemma removeAt_Forall {A : Type} (P : A -> Prop) (n : nat) (l : list A) :
  Forall P l -> Forall P (removeAt n l).
Proof.
  intros H. revert n. induction H as [|a l Ha Hl IH]; intros n.
  - destruct n; constructor.
  - destruct n as [|n]; cbn [removeAt]; [exact Hl|]. constructor; [exact Ha|apply IH].
Qed.

Lemma wellFormed_step (s : AppState) (i : Input) :
  wellFormed s -> wellFormed (step s i).
Proof.
  intros W. pose proof W as (Hr & Hs & Hn & Hy & Hl & Hq).
  destruct i as [state|c|ok|n]; cbn [Session.step].
  - destruct (SessionTheory.frame_spec Math_sin Math_cos random state s)
      as (F1 & F2 & _ & _ & F5 & _ & _ & _ & F9).
    cbn zeta in F1, F2.
    unfold wellFormed. rewrite F1, F2, F5, F9.
    split.
    { unfold Session.frame. destruct (animate (frameOf state s) (canvas s)) as [w ev].
      apply signals_reachable. exact Hr. }
    split; [destruct (ended _); [discriminate|exact Hs]|].
    split; [now rewrite (SimTheory.animate_shards_length Math_sin Math_cos random)|].
    split; [now rewrite animate_height|].
    split; [|exact Hq].
    destruct (ended _); [discriminate|exact Hl].
  - unfold Session.press. destruct (offers (screen s) c); [|exact W].
    destruct c as [| | | |card].
    + unfold Session.handleStart, wellFormed.
      destruct (AppStatus_eqb (status s) GAME_OVER);
        cbn [shop status canvas starting toggling].
      * split; [exact Hr|]. split; [discriminate|].
        destruct (CanvasTheory.initialWorld_shards random (mountDraws (S (gameKey s))))
          as (Es & _).
        destruct (CanvasTheory.initialShards_count random (mountDraws (S (gameKey s))))
          as [En _].
        rewrite Es, En, (SimTheory.initialWorld_position random).
        split; [reflexivity|]. split; [reflexivity|]. split; [|exact Hq]. intros _. lia.
      * split; [exact Hr|]. split; [discriminate|]. split; [exact Hn|].
        split; [exact Hy|]. split; [|exact Hq]. intros _. lia.
    + assert (Ha : forall st, st = PAUSED \/ st = RUNNING ->
                     Forall (fun st => st = PAUSED \/ st = RUNNING) (toggling s ++ [st])).
      { intros st Hst. apply Forall_app. split; [exact Hq|]. constructor; [exact Hst|constructor]. }
      unfold togglePause, wellFormed. destruct (status s) eqn:E; try exact W;
        destruct (hasAudio s);
        cbn [setStatus setToggling shop status canvas starting toggling]; rewrite ?E;
        repeat split; try assumption; try discriminate;
        try (apply Ha; now (left + right)).
    + exact W.
    + exact W.
    + destruct (nth_error (storeItems (shop s)) card) as [item|] eqn:En; [|exact W].
      unfold wellFormed. cbn [setShop shop status canvas starting toggling].
      split; [|now repeat split].
      apply SessionTheory.click_reachable; [exact Hr|eapply nth_error_In; eauto].
  - unfold Session.settle. destruct (starting s) as [|n] eqn:E; [exact W|].
    unfold wellFormed. cbn [shop status canvas starting toggling].
    split; [exact Hr|]. split; [now destruct ok|]. split; [exact Hn|].
    split; [exact Hy|]. split; [now destruct ok|exact Hq].
  - unfold toggled. destruct (nth_error (toggling s) n) as [st|] eqn:En; [|exact W].
    assert (Hst : st = PAUSED \/ st = RUNNING).
    { rewrite Forall_forall in Hq. apply Hq. eapply nth_error_In; eauto. }
    unfold wellFormed. cbn [setStatus setToggling shop status canvas starting toggling].
    split; [exact Hr|]. split; [destruct Hst as [-> | ->]; discriminate|].
    split; [exact Hn|]. split; [exact Hy|].
    split; [destruct Hst as [-> | ->]; discriminate|].
    now apply removeAt_Forall.
Qed.

(** X25.  Whatever happens to a session from the first render on, the store
    is one the shop handlers can produce, so that all that holds of those
    holds of it; the status is never [READY]; the canvas has 150 shards and
    the player at height 6; and the loading screen is only shown while a
    start is under way. *)
Theorem session_states_are_well_formed (inputs : list Input) :
  let s := steps inputs initialApp in
  reachable (shop s) /\ status s <> READY /\
  List.length (shards (canvas s)) = 150%nat /\
  v3y (playerPosition (canvas s)) = 6 /\
  (status s = LOADING -> (0 < starting s)%nat).
Proof.
  cbn zeta.
  assert (H0 : wellFormed initialApp).
  { unfold wellFormed, Session.initialApp. cbn [shop status canvas starting toggling].
    destruct (CanvasTheory.initialWorld_shards random (mountDraws 0)) as (Es & _).
    destruct (CanvasTheory.initialShards_count random (mountDraws 0)) as [En _].
    rewrite Es, En, (SimTheory.initialWorld_position random).
    split; [apply reach_init|]. split; [discriminate|]. split; [reflexivity|].
    split; [reflexivity|]. split; [discriminate|constructor]. }
  assert (H : wellFormed (steps inputs initialApp)).
  { generalize dependent initialApp. intros s0 H0.
    revert s0 H0. induction inputs as [|i inputs IH]; intros s0 H0; [exact H0|].
    unfold Session.steps. cbn [fold_left]. apply IH. now apply wellFormed_step. }
  destruct H as (H1 & H2 & H3 & H4 & H5 & _). now repeat split.
Qed.

End Oracles.

End SessionInvariants.

(** ** The overlay: the wind bar *)

Module WindBarTheory.
Import Sim Hud.

Open Scope Q_scope.

(** X26.  The wind bar of the overlay shows twice the sound amplitude in
    percent and is full from an amplitude of one half on; up to there the
    wind strength of the grass is 0.5 plus a fortieth of the bar, beyond it
    the bar no longer tells the wind strengths apart. *)
Theorem wind_bar_is_full_at_half_amplitude (st : SystemState) (env : Environment) :
  0 <= soundAmplitude st ->
  0 <= windBar st /\ windBar st <= 100 /\
  (soundAmplitude st <= 0.5 ->
     windBar st == soundAmplitude st * 200 /\
     uWindStrength (blend st env) == 0.5 + windBar st / 40) /\
  (0.5 <= soundAmplitude st ->
     windBar st == 100 /\ 3 <= uWindStrength (blend st env)).
Proof.
  intros Ha. unfold windBar, Math_min, blend. cbn [uWindStrength].
  destruct (Qlt_bool 100 (soundAmplitude st * 200)) eqn:E.
  - apply Qlt_bool_true in E.
    split; [lra|]. split; [lra|]. split; [intros H; lra|]. intros H. split; lra.
  - apply Qlt_bool_false in E.
    split; [lra|]. split; [lra|]. split.
    + intros H. split; [reflexivity|]. field.
    + intros H. split; lra.
Qed.

(** X26 for a quiet room. *)
Lemma wind_bar_of_silence : windBar (handState 0 0.12) == 0 * 200.
Proof.
  destruct (wind_bar_is_full_at_half_amplitude (handState 0 0.12) initialEnvironment)
    as (_ & _ & H & _).
  - cbn [handState soundAmplitude]. lra.
  - destruct H as [H _]; [cbn [handState soundAmplitude]; lra|exact H].
Defined.

End WindBarTheory.

(** ** The colour of the grass *)

Module GrassColorTheory.
Import Shader Sim Fx FxTheory.

Open Scope Q_scope.

(** A channel of the colour of a grass vertex. *)
Lemma colour_channel (b t v hp : Q) :
  0 <= b -> 0 <= t -> 0 <= v -> v <= 1 ->
  let foot := mix (mix b (b * 0.8) v) (mix t (t * 1.2) v) 0 in
  let tip := mix (mix b (b * 0.8) v) (mix t (t * 1.2) v) 1 in
  let out := mix (mix b (b * 0.8) v) (mix t (t * 1.2) v) hp in
  0.8 * b <= foot /\ foot <= b /\
  t <= tip /\ tip <= 1.2 * t /\
  out == mix foot tip hp /\
  (0 <= hp /\ hp <= 1 -> between foot tip out).
Proof.
  intros Hb Ht V0 V1. cbn zeta. unfold mix, between.
  assert (B0 : 0.8 * b <= b * (1 - v) + b * 0.8 * v) by nra.
  assert (B1 : b * (1 - v) + b * 0.8 * v <= b) by nra.
  assert (T0 : t <= t * (1 - v) + t * 1.2 * v) by nra.
  assert (T1 : t * (1 - v) + t * 1.2 * v <= 1.2 * t) by nra.
  set (mb := b * (1 - v) + b * 0.8 * v) in *.
  set (mt := t * (1 - v) + t * 1.2 * v) in *.
  split; [lra|]. split; [lra|]. split; [lra|]. split; [lra|]. split; [ring|].
  intros [H0 H1].
  destruct (Qlt_le_dec mt mb) as [H|H]; [right|left]; split; nra.
Qed.

(** X27.  The colour of a grass vertex, channel by channel, for a base and a
    tip colour without negative channels: at the foot of its blade it is the
    base colour darkened by at most a fifth, at the tip the tip colour
    brightened by at most a fifth, so that a tip may be brighter than the tip
    colour; at any height it is the mix of its colour at the foot and its
    colour at the tip, and so lies between the two along the blade. *)
Theorem grass_colour_from_foot_to_tip
    (sin : Q -> Q) (worldPos : Vector3) (uBaseColor uTipColor : Color) (hp : Q) :
  nonnegColor uBaseColor -> nonnegColor uTipColor ->
  eachChannel (fun channel =>
    let foot := channel (grassColor sin worldPos uBaseColor uTipColor 0) in
    let tip := channel (grassColor sin worldPos uBaseColor uTipColor 1) in
    let out := channel (grassColor sin worldPos uBaseColor uTipColor hp) in
    0.8 * channel uBaseColor <= foot /\ foot <= channel uBaseColor /\
    channel uTipColor <= tip /\ tip <= 1.2 * channel uTipColor /\
    out == mix foot tip hp /\
    (0 <= hp /\ hp <= 1 -> between foot tip out)).
Proof.
  intros (Br & Bg & Bb) (Tr & Tg & Tb).
  destruct (FxTheory.smoothNoise_range sin (v3x worldPos * 0.1) (v3z worldPos * 0.1))
    as [V0 V1].
  apply Qlt_le_weak in V1.
  unfold eachChannel, grassColor, mixColor, scaleColor. cbn [cr cg cb].
  split; [|split]; now apply colour_channel.
Qed.

(** X27 for a green blade. *)
Lemma grass_colour_of_a_green_blade :
  cr (grassColor (constantly 0) (mkV3 0 0 0) (mkColor 0.1 0.2 0.1) (mkColor 0.7 0.8 0.4) 0)
  <= 0.1.
Proof.
  destruct (grass_colour_from_foot_to_tip (constantly 0) (mkV3 0 0 0)
              (mkColor 0.1 0.2 0.1) (mkColor 0.7 0.8 0.4) 0) as ((_ & H & _) & _).
  - unfold nonnegColor. cbn [cr cg cb]. repeat split; lra.
  - unfold nonnegColor. cbn [cr cg cb]. repeat split; lra.
  - exact H.
Defined.

End GrassColorTheory.

(** ** The noise of the wind *)

Module NoiseTheory.
Import Noise.

Open Scope Q_scope.

Lemma filter_tap (a g B x w : Q) :
  0 <= a -> 0 <= g -> a * B + g <= B ->
  Qabs x <= B -> Qabs w <= 1 -> Qabs (a * x + w * g) <= B.
Proof.
  intros Ha Hg Hb Hx Hw. apply Qabs_Qle_condition in Hx, Hw.
  apply Qabs_Qle_condition. split; nra.
Qed.

Lemma pinkStep_bounded (white : Q) (s : Pink) :
  Qabs white <= 1 -> bounded s ->
  bounded (fst (pinkStep white s)) /\ Qabs (snd (pinkStep white s)) <= 7.74.
Proof.
  intros Hw (H0 & H1 & H2 & H3 & H4 & H5 & H6).
  assert (N0 : Qabs (0.99886 * b0 s + white * 0.0555179) <= 49)
    by (apply filter_tap; try assumption; lra).
  assert (N1 : Qabs (0.99332 * b1 s + white * 0.0750759) <= 12)
    by (apply filter_tap; try assumption; lra).
  assert (N2 : Qabs (0.96900 * b2 s + white * 0.1538520) <= 5)
    by (apply filter_tap; try assumption; lra).
  assert (N3 : Qabs (0.86650 * b3 s + white * 0.3104856) <= 2.4)
    by (apply filter_tap; try assumption; lra).
  assert (N4 : Qabs (0.55000 * b4 s + white * 0.5329522) <= 1.2)
    by (apply filter_tap; try assumption; lra).
  assert (N5 : Qabs (- 0.7616 * b5 s - white * 0.0168980) <= 0.08).
  { apply Qabs_Qle_condition in H5, Hw. apply Qabs_Qle_condition. split; lra. }
  assert (N6 : Qabs (white * 0.115926) <= 0.116).
  { apply Qabs_Qle_condition in Hw. apply Qabs_Qle_condition. split; lra. }
  unfold pinkStep. cbn [fst snd]. split.
  - unfold bounded. cbn [b0 b1 b2 b3 b4 b5 b6]. now repeat split.
  - apply Qabs_Qle_condition in N0, N1, N2, N3, N4, N5, H6, Hw.
    apply Qabs_Qle_condition. split; lra.
Qed.

Lemma silent_bounded : bounded silent.
Proof.
  unfold bounded, silent. cbn [b0 b1 b2 b3 b4 b5 b6].
  repeat (split; [apply Qabs_Qle_condition; split; lra|]).
  apply Qabs_Qle_condition; split; lra.
Qed.

Lemma fill_count (body : nat -> Pink * list Q * nat -> Pink * list Q * nat) (n : nat) :
  (forall j s l k, List.length (snd (fst (body j (s, l, k)))) = S (List.length l) /\
                   snd (body j (s, l, k)) = (k + 1)%nat) ->
  forall from s l k,
    List.length (snd (fst (forLoop from n body (s, l, k)))) = (List.length l + n)%nat /\
    snd (forLoop from n body (s, l, k)) = (k + n)%nat.
Proof.
  intros Hb. induction n as [|n IH]; intros from s l k.
  - cbn [forLoop fst snd]. split; lia.
  - cbn [forLoop]. destruct (Hb from s l k) as [H1 H2].
    destruct (body from (s, l, k)) as [[s1 l1] k1]. cbn [fst snd] in H1, H2.
    destruct (IH (S from) s1 l1 k1) as [I1 I2]. rewrite I1, I2. split; lia.
Qed.

(** X28.  The pink-noise filter that makes the wind is stable: however long
    the buffer, it holds one sample per random draw, the state of the filter
    stays within fixed bounds, and no sample exceeds 7.74 in absolute
    value. *)
Theorem pink_noise_is_bounded (random : nat -> Q) (bufferSize k : nat) :
  (forall n : nat, 0 <= random n /\ random n < 1) ->
  List.length (snd (fst (fill random bufferSize k))) = bufferSize /\
  snd (fill random bufferSize k) = (k + bufferSize)%nat /\
  bounded (fst (fst (fill random bufferSize k))) /\
  Forall (fun sample => Qabs sample <= 7.74) (snd (fst (fill random bufferSize k))).
Proof.
  intros Hr. unfold fill.
  match goal with
  | |- context [forLoop 0 bufferSize ?b _] =>
      destruct (fill_count b bufferSize) with (from := 0%nat) (s := silent)
                                               (l := @nil Q) (k := k) as [H1 H2]
  end.
  { intros j s l k0. destruct (pinkStep (random k0 * 2 - 1) s) as [s' sample].
    cbn [fst snd]. rewrite length_app. cbn [List.length]. split; lia. }
  split; [exact H1|]. split; [exact H2|].
  apply (FieldTheory.forLoop_invariant
           (fun st : Pink * list Q * nat =>
              bounded (fst (fst st)) /\
              Forall (fun sample => Qabs sample <= 7.74) (snd (fst st)))).
  - split; [apply silent_bounded|constructor].
  - intros j [[s l] k0] [Hs Hl]. cbn [fst snd] in Hs, Hl.
    destruct (Hr k0) as [R0 R1].
    assert (Hw : Qabs (random k0 * 2 - 1) <= 1)
      by (apply Qabs_Qle_condition; split; lra).
    destruct (pinkStep_bounded (random k0 * 2 - 1) s Hw Hs) as [Hs' Ho].
    destruct (pinkStep (random k0 * 2 - 1) s) as [s' sample].
    cbn [fst snd] in *. split; [exact Hs'|].
    apply Forall_app. split; [exact Hl|]. constructor; [exact Ho|constructor].
Qed.

(** X28 for a buffer of two samples. *)
Lemma pink_noise_of_two_samples :
  List.length (snd (fst (fill (Sim.alwaysDraw 0.25) 2 0))) = 2%nat.
Proof.
  destruct (pink_noise_is_bounded (Sim.alwaysDraw 0.25) 2 0) as (H & _).
  - intros n. unfold Sim.alwaysDraw. split; lra.
  - exact H.
Defined.

End NoiseTheory.
